(** * Spotify to TIDAL transfer: the track matching core

    A shallow embedding of the matching engine of
    [src/spotify_tidal_transfer.py]: the text normaliser
    ([_normalize_search_text]), the primary-artist extractor
    ([_extract_primary_artist]), the artist similarity scorer
    ([_calculate_artist_similarity]), the progressive matcher
    ([search_tidal_track]) and the batching loop of
    [direct_transfer_playlists]; then the loops that use them, of
    [direct_transfer_songs], [direct_transfer_artists],
    [direct_transfer_albums] and [direct_transfer_playlists], and the
    credential mask of [connect_spotify].

    Modelling conventions.
    - A Python [str] is a [string]; its characters are the 8-bit code
      points 0..255 (the Latin-1 range of Python's [str]), classified as
      Python classifies them: [is_space] is [str.isspace], [is_word] is the
      class [\w] of a [str] pattern, [lower_char] is [str.lower].
    - A Python [float] is modelled twice.  In the scorer and the matcher
      of the main development it is an exact rational ([Q]): a decimal
      literal such as [0.6] is the rational it denotes, and [+], [*], [/]
      and the comparisons are exact.  [Binary64] holds the scorer and the
      matcher once more with every literal and operation rounded to an
      IEEE 754 double, as the interpreter computes them.  The two can part
      ways where a sum meets a threshold (0.6 + 0.1 + 0.1 is 0.8 exactly
      and the double below 0.8), so the statements about the test
      [best_score >= 0.8] and about the order of two scores are made of
      the [Binary64] matcher.
    - The two external services are explicit: the TIDAL session is a
      [World] threaded through every call, a raised exception is the
      [Raised] outcome, and every call that leaves the process is recorded
      in a trace of [Event]s. *)

From Stdlib Require Import QArith Qabs Lqa ZArith Lia SpecFloat.
From Stdlib Require Import Ascii String List Bool.
From stdpp Require Import gmap strings list.
Import ListNotations.

Local Open Scope string_scope.
Local Open Scope list_scope.

(** ** Characters *)

Module Char.

Definition code (c : ascii) : N := N_of_ascii c.

Definition between (lo hi : N) (c : ascii) : bool :=
  ((lo <=? code c) && (code c <=? hi))%N.

(** [str.isspace]: the characters [str.split()] and [str.strip()] treat as
    whitespace. *)
Definition is_space (c : ascii) : bool :=
  between 9 13 c || between 28 32 c || (code c =? 133)%N || (code c =? 160)%N.

(** The class [\w] of a [str] pattern: alphanumeric characters and the
    underscore. *)
Definition is_word (c : ascii) : bool :=
  between 48 57 c || between 65 90 c || (code c =? 95)%N || between 97 122 c
  || (code c =? 170)%N || between 178 179 c || (code c =? 181)%N
  || between 185 186 c || between 188 190 c || between 192 214 c
  || between 216 246 c || between 248 255 c.

(** [str.lower] on one character. *)
Definition lower_char (c : ascii) : ascii :=
  if between 65 90 c || between 192 214 c || between 216 222 c
  then ascii_of_N (code c + 32)
  else c.

(** Equality of characters under [re.IGNORECASE]. *)
Definition eq_ci (a b : ascii) : bool :=
  bool_decide (lower_char a = lower_char b).

End Char.

(** ** Text primitives on character lists *)

Module Text.
Import Char.

Abbreviation chars := (list ascii).

Definition lower (s : chars) : chars := map lower_char s.

Fixpoint lstrip (s : chars) : chars :=
  match s with
  | c :: rest => if is_space c then lstrip rest else s
  | [] => []
  end.

(** [str.strip()] *)
Definition strip (s : chars) : chars := rev (lstrip (rev (lstrip s))).

Fixpoint is_prefix (p s : chars) : bool :=
  match p, s with
  | [], _ => true
  | a :: p', b :: s' => bool_decide (a = b) && is_prefix p' s'
  | _ :: _, [] => false
  end.

(** [needle in hay] *)
Fixpoint contains (needle hay : chars) : bool :=
  is_prefix needle hay
  || match hay with
     | [] => false
     | _ :: rest => contains needle rest
     end.

(** [s.split(sep)[0]]: the text before the first occurrence of [sep]. *)
Fixpoint before (sep s : chars) : chars :=
  match s with
  | [] => []
  | c :: rest => if is_prefix sep s then [] else c :: before sep rest
  end.

Definition flush (cur : chars) : list chars :=
  match cur with [] => [] | _ => [cur] end.

(** The maximal runs of characters that are not separators; [cur] is the
    run being read. *)
Fixpoint fields (sep : ascii -> bool) (cur s : chars) : list chars :=
  match s with
  | [] => flush cur
  | c :: rest =>
      if sep c then flush cur ++ fields sep [] rest
      else fields sep (cur ++ [c]) rest
  end.

(** [s.split()]: the maximal runs of non-whitespace characters. *)
Definition split_ws (s : chars) : list chars := fields is_space [] s.

(** The words of a text as [\b] delimits them: the maximal runs of word
    characters. *)
Definition word_runs (s : chars) : list chars :=
  fields (fun c => negb (is_word c)) [] s.

(** [sep.join(ws)] *)
Fixpoint join (sep : chars) (ws : list chars) : chars :=
  match ws with
  | [] => []
  | [w] => w
  | w :: rest => w ++ sep ++ join sep rest
  end.

(** [re.sub(op [^cl]* cl, '', s)] for two distinct literal characters [op]
    and [cl]: scanning from the left, an [op] that has a [cl] somewhere
    after it opens a span that ends at the first such [cl]; the span is
    dropped.  [inside] says whether the scan is inside a span. *)
Fixpoint sub_delimited (op cl : ascii) (inside : bool) (s : chars) : chars :=
  match s with
  | [] => []
  | c :: rest =>
      if inside then
        sub_delimited op cl (negb (bool_decide (c = cl))) rest
      else if bool_decide (c = op) && existsb (fun d => bool_decide (d = cl)) rest
      then sub_delimited op cl true rest
      else c :: sub_delimited op cl false rest
  end.

Definition word_opt (c : option ascii) : bool :=
  match c with Some x => is_word x | None => false end.

(** [\b] between [prev] and [next] ([None] is an end of the text). *)
Definition boundary (prev next : option ascii) : bool :=
  xorb (word_opt prev) (word_opt next).

Fixpoint is_prefix_ci (p s : chars) : bool :=
  match p, s with
  | [], _ => true
  | a :: p', b :: s' => eq_ci a b && is_prefix_ci p' s'
  | _ :: _, [] => false
  end.

(** Does [\b w \b] (with [re.IGNORECASE]) match at the head of [s], the
    character before it being [prev]?  [w] is not empty. *)
Definition matches_at (w : chars) (prev : option ascii) (s : chars) : bool :=
  boundary prev (head s)
  && is_prefix_ci w s
  && boundary (last (take (length w) s)) (head (drop (length w) s)).

(** [re.sub(r'\b' + re.escape(w) + r'\b', '', s, flags=re.IGNORECASE)]:
    leftmost non-overlapping matches are dropped.  [skip] counts the
    characters of the current match still to drop, [prev] is the
    character of the subject just before the head of [s]. *)
Fixpoint sub_word (w : chars) (skip : nat) (prev : option ascii) (s : chars)
  : chars :=
  match s with
  | [] => []
  | c :: rest =>
      match skip with
      | S k => sub_word w k (Some c) rest
      | O =>
          if matches_at w prev s
          then sub_word w (length w - 1) (Some c) rest
          else c :: sub_word w 0 (Some c) rest
      end
  end.

(** The normaliser on character lists: the two span removals, the seven
    noise-word removals, the whitespace clean-up. *)
Definition normalize (noise : list chars) (s : chars) : chars :=
  let s := sub_delimited "(" ")" false s in
  let s := sub_delimited "[" "]" false s in
  let s := fold_left (fun s w => sub_word w 0 None s) noise s in
  strip (join [" "%char] (split_ws s)).

(** *** Notions used to state properties of the text functions *)

(** No [op] of the text has a [cl] after it: the text holds no span for
    [sub_delimited] to drop. *)
Fixpoint span_free (op cl : ascii) (s : chars) : Prop :=
  match s with
  | [] => True
  | c :: rest => (c = op -> ~ In cl rest) /\ span_free op cl rest
  end.

(** [thinned u v]: [u] arises from [v] by dropping characters and by
    writing a space for a whitespace character. *)
Inductive thinned : chars -> chars -> Prop :=
| thinned_nil : thinned [] []
| thinned_keep c u v : thinned u v -> thinned (c :: u) (c :: v)
| thinned_drop c u v : thinned u v -> thinned u (c :: v)
| thinned_space c u v :
    is_space c = true -> thinned u v -> thinned (" "%char :: u) (c :: v).

(** A field: a non-empty run without separators. *)
Definition field (sep : ascii -> bool) (f : chars) : Prop :=
  f <> [] /\ Forall (fun c => sep c = false) f.

Definition keep (p : chars -> bool) (cur : chars) : chars :=
  if p cur then [] else cur.

(** The text without its maximal runs of word characters that satisfy [p];
    [cur] is the run being read. *)
Fixpoint del_runs (p : chars -> bool) (cur s : chars) : chars :=
  match s with
  | [] => keep p cur
  | c :: rest =>
      if is_word c then del_runs p (cur ++ [c]) rest
      else keep p cur ++ c :: del_runs p [] rest
  end.

(** [r] is [w] up to letter case. *)
Definition same_word (w r : chars) : bool :=
  bool_decide (lower r = lower w).

(** *** Tokens

    The text as [\b] reads it: maximal runs of word characters, and
    single characters that are not word characters. *)

Inductive token :=
| Word (r : chars)
| Other (c : ascii).

Definition spell (t : token) : chars :=
  match t with Word r => r | Other c => [c] end.

Definition flatten (ts : list token) : chars := flat_map spell ts.

Definition push (cur : chars) : list token :=
  match cur with [] => [] | _ => [Word cur] end.

(** The tokens of a text; [cur] is the run being read. *)
Fixpoint tokens (cur s : chars) : list token :=
  match s with
  | [] => push cur
  | c :: rest =>
      if is_word c then tokens (cur ++ [c]) rest
      else push cur ++ Other c :: tokens [] rest
  end.

(** The runs among some tokens. *)
Definition runs (ts : list token) : list chars :=
  omap (fun t => match t with Word r => Some r | Other _ => None end) ts.

Definition starts_with_word (ts : list token) : bool :=
  match ts with Word _ :: _ => true | _ => false end.

(** Tokens as [tokens] yields them: runs are not empty, hold word
    characters only, and no two runs are neighbours. *)
Fixpoint well_formed (ts : list token) : Prop :=
  match ts with
  | [] => True
  | Word r :: rest =>
      r <> [] /\ Forall (fun c => is_word c = true) r
      /\ starts_with_word rest = false /\ well_formed rest
  | Other c :: rest => is_word c = false /\ well_formed rest
  end.

(** The tokens without the runs that satisfy [p]: what the removal of a
    noise word made of word characters does. *)
Definition drop_word (p : chars -> bool) (ts : list token) : list token :=
  List.filter (fun t => match t with Word r => negb (p r) | Other _ => true end) ts.

(** A run that satisfies [p], then the character [x], then a run. *)
Definition marked_at (p : chars -> bool) (x : ascii) (ts : list token) : bool :=
  match ts with
  | Word r :: Other d :: rest =>
      p r && bool_decide (d = x) && starts_with_word rest
  | _ => false
  end.

(** Where [\b w \. \b] matches, [p] being the test for [w]. *)
Abbreviation dotted_at p := (marked_at p "."%char).

(** The tokens without the matches of [\b w \. \b]: the run and the
    ['.'] go, the run after them stays and is looked at next.  [skip]
    says that the head is the ['.'] of a match. *)
Fixpoint drop_dotted (p : chars -> bool) (skip : bool) (ts : list token)
  : list token :=
  match ts with
  | [] => []
  | t :: rest =>
      if skip then drop_dotted p false rest
      else if dotted_at p ts then drop_dotted p true rest
      else t :: drop_dotted p false rest
  end.

Fixpoint mark_free (p : chars -> bool) (x : ascii) (ts : list token) : Prop :=
  match ts with
  | [] => True
  | _ :: rest => marked_at p x ts = false /\ mark_free p x rest
  end.

Abbreviation dotted_free p := (mark_free p "."%char).

(** No ['&'] between two runs: [\b & \b] matches nowhere. *)
Abbreviation amp_free := (mark_free (fun _ => true) "&"%char).

Definition word_free (p : chars -> bool) (ts : list token) : Prop :=
  Forall (fun t => match t with Word r => p r = false | Other _ => True end) ts.

Definition is_gap (t : token) : bool :=
  match t with Other c => is_space c | Word _ => false end.

Definition flush_group (cur : list token) : list (list token) :=
  match cur with [] => [] | _ => [cur] end.

(** The maximal groups of tokens between whitespace; [cur] is the group
    being read. *)
Fixpoint groups (cur ts : list token) : list (list token) :=
  match ts with
  | [] => flush_group cur
  | t :: rest =>
      if is_gap t then flush_group cur ++ groups [] rest
      else groups (cur ++ [t]) rest
  end.

Fixpoint join_groups (gs : list (list token)) : list token :=
  match gs with
  | [] => []
  | [g] => g
  | g :: rest => g ++ Other " "%char :: join_groups rest
  end.

(** The whitespace clean-up on tokens. *)
Definition squeeze (ts : list token) : list token := join_groups (groups [] ts).

(** [pruned u v]: [u] arises from the well-formed tokens [v] by dropping
    runs, and runs together with the character after them where a run
    follows. *)
Inductive pruned : list token -> list token -> Prop :=
| pruned_nil : pruned [] []
| pruned_keep t u v : pruned u v -> pruned (t :: u) (t :: v)
| pruned_run r u v : pruned u v -> pruned u (Word r :: v)
| pruned_pair r d u v :
    starts_with_word v = true -> pruned u v -> pruned u (Word r :: Other d :: v).

(** The text after the two span removals. *)
Definition spans_removed (s : chars) : chars :=
  sub_delimited "[" "]" false (sub_delimited "(" ")" false s).

(** The noise word [&]. *)
Abbreviation amp := ["&"%char].

End Text.

(** ** Python string operations *)

Module Str.

Definition chars_of (s : string) : list ascii := list_ascii_of_string s.
Definition of_chars (l : list ascii) : string := string_of_list_ascii l.

(** Truth value of a [str]: the empty string is falsy. *)
Definition truthy (s : string) : bool :=
  match s with EmptyString => false | String _ _ => true end.

Definition eqb (a b : string) : bool := bool_decide (a = b).

Definition lower (s : string) : string := of_chars (Text.lower (chars_of s)).
Definition strip (s : string) : string := of_chars (Text.strip (chars_of s)).

(** [a in b] *)
Definition is_in (a b : string) : bool := Text.contains (chars_of a) (chars_of b).

(** [s.split()] *)
Definition split (s : string) : list string :=
  map of_chars (Text.split_ws (chars_of s)).

(** [sep.join(ws)] *)
Definition join (sep : string) (ws : list string) : string :=
  of_chars (Text.join (chars_of sep) (map chars_of ws)).

(** [s.split(sep)[0]] *)
Definition before (sep s : string) : string :=
  of_chars (Text.before (chars_of sep) (chars_of s)).

(** [re.sub(r'\([^)]*\)', '', s)] *)
Definition sub_parens (s : string) : string :=
  of_chars (Text.sub_delimited "(" ")" false (chars_of s)).

(** [re.sub(r'\[[^\]]*\]', '', s)] *)
Definition sub_brackets (s : string) : string :=
  of_chars (Text.sub_delimited "[" "]" false (chars_of s)).

(** [re.sub(r'\b' + re.escape(word) + r'\b', '', s, flags=re.IGNORECASE)] *)
Definition sub_word (word s : string) : string :=
  of_chars (Text.sub_word (chars_of word) 0 None (chars_of s)).

(** The words of [s]: its maximal runs of word characters. *)
Definition words (s : string) : list string :=
  map of_chars (Text.word_runs (chars_of s)).

End Str.

(** ** The text normaliser *)

Definition noise_words : list string :=
  ["feat."; "ft."; "featuring"; "with"; "vs."; "vs"; "&"].

Definition _normalize_search_text (text : string) : string :=
  if negb (Str.truthy text) then EmptyString
  else
    (* Remove content in parentheses/brackets *)
    let text := Str.sub_parens text in
    let text := Str.sub_brackets text in
    (* Remove common noise words *)
    let text := fold_left (fun text word => Str.sub_word word text) noise_words text in
    (* Clean up whitespace *)
    let text := Str.join " " (Str.split text) in
    Str.strip text.

(** Shorthands for the statements about the noise words. *)
Module NoiseNotations.

Abbreviation featuring := (Str.chars_of "featuring").
Abbreviation with_ := (Str.chars_of "with").
Abbreviation vs := (Str.chars_of "vs").
Abbreviation noise := (map Str.chars_of noise_words).
Abbreviation remove_noise := (fold_left (fun s w => Text.sub_word w 0 None s) noise).

(** The three noise words made of letters, as a test on a word. *)
Abbreviation letters_noise r :=
  (Text.same_word featuring r || Text.same_word with_ r || Text.same_word vs r).

Abbreviation nonword := (fun c : ascii => negb (Char.is_word c)).

End NoiseNotations.

(** The noise words on tokens. *)
Module NoiseTokens.
Import Text NoiseNotations.

Abbreviation feat := (Str.chars_of "feat").
Abbreviation ft := (Str.chars_of "ft").

(** The seven removals on tokens that have no ['&'] between two runs:
    [feat.], [ft.], [featuring], [with], [vs.], [vs]; the removal of [&]
    finds nothing. *)
Definition scrub (ts : list token) : list token :=
  drop_word (same_word vs)
    (drop_dotted (same_word vs) false
       (drop_word (same_word with_)
          (drop_word (same_word featuring)
             (drop_dotted (same_word ft) false
                (drop_dotted (same_word feat) false ts))))).

(** Tokens in which none of the seven removals finds anything. *)
Definition clean (ts : list token) : Prop :=
  dotted_free (same_word feat) ts
  /\ dotted_free (same_word ft) ts
  /\ word_free (same_word featuring) ts
  /\ word_free (same_word with_) ts
  /\ dotted_free (same_word vs) ts
  /\ word_free (same_word vs) ts
  /\ amp_free ts.

End NoiseTokens.

(** ** The primary-artist extractor *)

Definition separators : list string := [","; ";"; "&"; " and "; " x "; " X "].

Definition _extract_primary_artist (artist_str : string) : string :=
  if negb (Str.truthy artist_str) then EmptyString
  else
    match List.find (fun sep => Str.is_in sep artist_str) separators with
    | Some sep => Str.strip (Str.before sep artist_str)
    | None => Str.strip artist_str
    end.

(** ** The artist similarity scorer *)

Definition _calculate_artist_similarity (artist1 artist2 : string) : Q :=
  (if negb (Str.truthy artist1) || negb (Str.truthy artist2) then 0.0
  else
    let a1 := Str.strip (Str.lower artist1) in
    let a2 := Str.strip (Str.lower artist2) in
    (* Exact match *)
    if Str.eqb a1 a2 then 1.0
    (* One contains the other *)
    else if Str.is_in a1 a2 || Str.is_in a2 a1 then 0.9
    else
      (* Check if primary artist matches *)
      let primary1 := _extract_primary_artist a1 in
      let primary2 := _extract_primary_artist a2 in
      if Str.eqb primary1 primary2 then 0.85
      else
        (* Simple word overlap *)
        let words1 : gset string := list_to_set (Str.split a1) in
        let words2 : gset string := list_to_set (Str.split a2) in
        if bool_decide (words1 ≠ ∅) && bool_decide (words2 ≠ ∅) then
          let overlap :=
            inject_Z (Z.of_nat (size (words1 ∩ words2)))
            / inject_Z (Z.of_nat (Nat.max (size words1) (size words2))) in
          overlap * 0.7
        else 0.0)%Q.

(** ** The TIDAL side *)

(** What the matcher reads of a search hit.  [None] in a field is an
    attribute that is missing or [None]: [track.artist], [track.album],
    [track.duration], [track.name]. *)
Record TidalTrack := {
  t_id : Z;
  t_name : option string;
  t_artist : option string;   (* track.artist.name *)
  t_album : option string;    (* track.album.name *)
  t_duration : option Z       (* seconds *)
}.

(** [self.tidal.search(query, limit=10)] either raises or returns a result
    whose ['tracks'] entry is a list of hits. *)
Inductive SearchResult :=
| SearchOk (tracks : list TidalTrack)
| SearchRaised (e : string).

(** [tidal_playlist.add(batch_ids)] *)
Inductive AddResult :=
| AddOk
| AddRaised (e : string).

(** The calls that reach TIDAL, in the order they are made. *)
Inductive Event :=
| EvSearch (query : string) (limit : nat) (res : SearchResult)
| EvAdd (ids : list Z) (res : AddResult).

(** A Python call returns a value or raises. *)
Inductive Outcome (A : Type) :=
| Returned (a : A)
| Raised (e : string).
Arguments Returned {A} a.
Arguments Raised {A} e.

(** [try: body  except Exception as e: handler e] *)
Definition try_except {A} (body : Outcome A) (handler : string -> Outcome A)
  : Outcome A :=
  match body with
  | Returned a => Returned a
  | Raised e => handler e
  end.

(** The dict returned by [search_tidal_track]. *)
Record MatchResult := {
  track : TidalTrack;
  confidence : Q;
  query_used : option string
}.

(** The three loop variables of [search_tidal_track]. *)
Record MatchState := {
  best_match : option TidalTrack;
  best_score : Q;
  st_query_used : option string
}.

(** How one iteration of the query loop ends. *)
Inductive LoopCtl :=
| Continue (st : MatchState)
| Break (st : MatchState).

Definition Qgtb (a b : Q) : bool :=
  match (a ?= b)%Q with Gt => true | _ => false end.

Definition Qgeb (a b : Q) : bool := Qle_bool b a.

(** The value of an optional argument when it is truthy. *)
Definition truthy_str (o : option string) : option string :=
  match o with
  | Some s => if Str.truthy s then Some s else None
  | None => None
  end.

Definition truthy_int (o : option Z) : option Z :=
  match o with
  | Some z => if (z =? 0)%Z then None else Some z
  | None => None
  end.

(** The score of one search hit (the body of [for track in tracks], up to
    [# Update best match]). *)
Definition score_track (track_clean artist_name : string)
    (album_name : option string) (duration_ms : option Z) (t : TidalTrack) : Q :=
  (let score := 0.0 in
  (* Artist similarity (most important) *)
  let track_artist := default EmptyString (t_artist t) in
  let artist_sim := _calculate_artist_similarity artist_name track_artist in
  let score := score + artist_sim * 0.6 in
  (* Album match (if available) *)
  let score :=
    match truthy_str album_name, t_album t with
    | Some album_name, Some track_album =>
        let album_sim := _calculate_artist_similarity album_name track_album in
        score + album_sim * 0.2
    | _, _ => score
    end in
  (* Duration match (if available) *)
  let score :=
    match truthy_int duration_ms, truthy_int (t_duration t) with
    | Some duration_ms, Some track_duration =>
        let duration_diff := Z.abs (duration_ms - track_duration * 1000) in
        if (duration_diff <? 5000)%Z then score + 0.2
        else if (duration_diff <? 15000)%Z then score + 0.1
        else score
    | _, _ => score + 0.1
    end in
  (* Track name similarity (basic check) *)
  let track_name_clean := _normalize_search_text (default EmptyString (t_name t)) in
  if Str.is_in (Str.lower track_clean) (Str.lower track_name_clean)
     || Str.is_in (Str.lower track_name_clean) (Str.lower track_clean)
  then score + 0.1
  else score)%Q.

(** [# Update best match] *)
Definition update_best (track_clean artist_name : string)
    (album_name : option string) (duration_ms : option Z)
    (query : string) (st : MatchState) (t : TidalTrack) : MatchState :=
  let score := score_track track_clean artist_name album_name duration_ms t in
  if Qgtb score (best_score st)
  then {| best_match := Some t; best_score := score; st_query_used := Some query |}
  else st.

Definition dquote : string := String (ascii_of_nat 34) EmptyString.

(** The progressive fallback queries, most specific first, [None] entries
    removed. *)
Definition build_queries (track_clean artist_clean primary_artist : string)
  : list string :=
  let queries : list (option string) :=
    [ if Str.truthy primary_artist
      then Some (dquote ++ track_clean ++ dquote ++ " " ++ dquote ++ primary_artist ++ dquote)%string
      else None;
      if Str.truthy primary_artist
      then Some (track_clean ++ " " ++ primary_artist)%string
      else None;
      if Str.truthy artist_clean && negb (Str.eqb artist_clean primary_artist)
      then Some (track_clean ++ " " ++ artist_clean)%string
      else None;
      Some track_clean ] in
  omap (fun q => truthy_str q) queries.

Definition initial_state : MatchState :=
  {| best_match := None; best_score := 0.0%Q; st_query_used := None |}.

(** [if best_match and best_score >= 0.5: return {...}] else [return None] *)
Definition final_result (st : MatchState) : option MatchResult :=
  match best_match st with
  | Some t =>
      if Qgeb (best_score st) 0.5%Q
      then Some {| track := t; confidence := best_score st;
                   query_used := st_query_used st |}
      else None
  | None => None
  end.

Section Matcher.

Context {World : Type}.

(** The search capability of the TIDAL session. *)
Variable tidal_search : World -> string -> nat -> World * SearchResult.

Section Attempt.

Variables (track_clean artist_name : string).
Variables (album_name : option string) (duration_ms : option Z).

(** The [try] block of one iteration of [for query in queries].  The
    search call is the one statement of the block that can raise, and it
    comes before any update of the loop variables. *)
Definition query_body (query : string) (st : MatchState) (w : World)
  : World * list Event * Outcome LoopCtl :=
  let '(w, search_result) := tidal_search w query 10 in
  let ev := [EvSearch query 10 search_result] in
  match search_result with
  | SearchRaised e => (w, ev, Raised e)
  | SearchOk tracks =>
      match tracks with
      | [] => (w, ev, Returned (Continue st))
      | _ :: _ =>
          (* Score each result *)
          let st :=
            fold_left (update_best track_clean artist_name album_name duration_ms query)
                      tracks st in
          (* If we found a high-confidence match, stop searching *)
          if Qgeb (best_score st) 0.8%Q then (w, ev, Returned (Break st))
          else (* time.sleep(0.1): the pause is not part of the model *)
            (w, ev, Returned (Continue st))
      end
  end.

(** [for query in queries: try: ... except Exception as e: print; continue] *)
Fixpoint query_loop (queries : list string) (st : MatchState) (w : World)
  : World * list Event * Outcome MatchState :=
  match queries with
  | [] => (w, [], Returned st)
  | query :: rest =>
      let '(w, ev, body) := query_body query st w in
      match try_except body (fun e => Returned (Continue st)) with
      | Raised e => (w, ev, Raised e)
      | Returned (Break st) => (w, ev, Returned st)
      | Returned (Continue st) =>
          let '(w, evs, r) := query_loop rest st w in
          (w, ev ++ evs, r)
      end
  end.

End Attempt.

Definition search_tidal_track (w : World) (track_name artist_name : string)
    (album_name : option string) (duration_ms : option Z)
  : World * list Event * Outcome (option MatchResult) :=
  (* Normalize inputs *)
  let track_clean := _normalize_search_text track_name in
  let artist_clean := _normalize_search_text artist_name in
  let primary_artist := _extract_primary_artist artist_clean in
  if negb (Str.truthy track_clean) then (w, [], Returned None)
  else
    let queries := build_queries track_clean artist_clean primary_artist in
    let '(w, evs, r) :=
      query_loop track_clean artist_name album_name duration_ms
                 queries initial_state w in
    match r with
    | Raised e => (w, evs, Raised e)
    | Returned st => (w, evs, Returned (final_result st))
    end.

End Matcher.

(** ** Playlist transfer: the track loop of [direct_transfer_playlists] *)

(** A Spotify track object, as far as the loop reads it. *)
Record SpotifyTrack := {
  sp_type : string;
  sp_name : string;
  sp_artists : list string;   (* artist['name'] for artist in track['artists'] *)
  sp_album : string;          (* track['album']['name'] *)
  sp_duration_ms : Z
}.

(** One page of [self.spotify.playlist_tracks(playlist_id, limit=100, offset)]. *)
Record Page := {
  page_items : list (option SpotifyTrack);   (* item.get('track') *)
  page_next : option string                  (* tracks['next'] *)
}.

(** An entry of [self.failed_items['playlist_tracks']]. *)
Record FailureRecord := {
  f_name : string;
  f_artist : string;
  f_album : string;
  f_playlist : string;
  f_reason : string
}.

(** The local variables of the track loop, with the entries it appends to
    the ledger. *)
Record TransferState := {
  imported : nat;
  failed : nat;
  batch_ids : list Z;
  failed_items : list FailureRecord
}.

Definition record_failure (playlist_name : string) (t : SpotifyTrack)
    (reason : string) (ps : TransferState) : TransferState :=
  {| imported := imported ps;
     failed := S (failed ps);
     batch_ids := batch_ids ps;
     failed_items :=
       failed_items ps ++
       [ {| f_name := sp_name t;
            f_artist := Str.join ", " (sp_artists t);
            f_album := sp_album t;
            f_playlist := playlist_name;
            f_reason := reason |} ] |}.

(** [track['artists'][0]['name']] in the progress line of a track: an
    [IndexError] when the track lists no artist. *)
Definition first_artist (t : SpotifyTrack) : Outcome string :=
  match sp_artists t with
  | [] => Raised "list index out of range"
  | name :: _ => Returned name
  end.

Section Playlist.

Context {World : Type}.
Variable tidal_search : World -> string -> nat -> World * SearchResult.

(** [tidal_playlist.add(batch_ids)] *)
Variable playlist_add : World -> list Z -> World * AddResult.

Variable playlist_name : string.

(** The body of [for item in tracks['items']].  The progress line of a
    track prints [track['artists'][0]['name']]: on a track without artists
    that raises inside the [try], after the counters and the buffer have
    been updated and, for a match, before the buffer is tested. *)
Definition process_item (item : option SpotifyTrack) (ps : TransferState)
    (w : World) : World * list Event * TransferState :=
  match item with
  | Some t =>
      if Str.eqb (sp_type t) "track" then
        let '(w, ev, match_result) :=
          search_tidal_track tidal_search w (sp_name t)
            (Str.join ", " (sp_artists t)) (Some (sp_album t))
            (Some (sp_duration_ms t)) in
        match match_result with
        | Raised e => (w, ev, record_failure playlist_name t ("Error: " ++ e)%string ps)
        | Returned None =>
            let ps := record_failure playlist_name t "No match found on TIDAL" ps in
            (* print(f"... {track['name']} - {track['artists'][0]['name']}") *)
            match first_artist t with
            | Returned _ => (w, ev, ps)
            | Raised e =>
                (w, ev, record_failure playlist_name t ("Error: " ++ e)%string ps)
            end
        | Returned (Some m) =>
            let ps := {| imported := S (imported ps);
                         failed := failed ps;
                         batch_ids := batch_ids ps ++ [t_id (track m)];
                         failed_items := failed_items ps |} in
            (* print(f"... {track['name']} - {track['artists'][0]['name']} ...") *)
            match first_artist t with
            | Raised e =>
                (w, ev, record_failure playlist_name t ("Error: " ++ e)%string ps)
            | Returned _ =>
                if (length (batch_ids ps) =? 50)%nat then
                  let '(w, r) := playlist_add w (batch_ids ps) in
                  let ev := ev ++ [EvAdd (batch_ids ps) r] in
                  match r with
                  | AddOk =>
                      (w, ev, {| imported := imported ps;
                                 failed := failed ps;
                                 batch_ids := [];
                                 failed_items := failed_items ps |})
                  | AddRaised e =>
                      (w, ev, record_failure playlist_name t ("Error: " ++ e)%string ps)
                  end
                else (w, ev, ps)
            end
        end
      else (w, [], ps)
  | None => (w, [], ps)
  end.

Fixpoint process_items (items : list (option SpotifyTrack)) (ps : TransferState)
    (w : World) : World * list Event * TransferState :=
  match items with
  | [] => (w, [], ps)
  | item :: rest =>
      let '(w, ev, ps) := process_item item ps w in
      let '(w, evs, ps) := process_items rest ps w in
      (w, ev ++ evs, ps)
  end.

(** [while True: tracks = playlist_tracks(..., offset); ...;
    if not tracks['next']: break; offset += 100].  The playlist is the
    finite list of the pages Spotify serves for it; a request past the
    last page returns no items and no [next]. *)
Fixpoint page_loop (pages : list Page) (ps : TransferState) (w : World)
  : World * list Event * TransferState :=
  match pages with
  | [] => (w, [], ps)
  | page :: rest =>
      let '(w, ev, ps) := process_items (page_items page) ps w in
      match truthy_str (page_next page) with
      | None => (w, ev, ps)
      | Some _ =>
          let '(w, evs, ps) := page_loop rest ps w in
          (w, ev ++ evs, ps)
      end
  end.

(** Lines 828-885: the track loop of one playlist and the final
    [if batch_ids: tidal_playlist.add(batch_ids)]. *)
Definition transfer_playlist_tracks (pages : list Page) (w : World)
  : World * list Event * Outcome TransferState :=
  let ps := {| imported := 0; failed := 0; batch_ids := []; failed_items := [] |} in
  let '(w, ev, ps) := page_loop pages ps w in
  (* Add remaining tracks *)
  match batch_ids ps with
  | [] => (w, ev, Returned ps)
  | _ :: _ =>
      let '(w, r) := playlist_add w (batch_ids ps) in
      match r with
      | AddOk => (w, ev ++ [EvAdd (batch_ids ps) r], Returned ps)
      | AddRaised e => (w, ev ++ [EvAdd (batch_ids ps) r], Raised e)
      end
  end.

End Playlist.

(** ** Reading a trace *)

(** The ID batches written to the destination playlist, in order. *)
Definition writes (evs : list Event) : list (list Z) :=
  omap (fun ev => match ev with EvAdd ids _ => Some ids | _ => None end) evs.
Arguments writes : simpl never.

(** The search calls of a trace. *)
Definition search_calls (evs : list Event) : list string :=
  omap (fun ev => match ev with EvSearch q _ _ => Some q | _ => None end) evs.

(** The running best after one more response: every hit of an answered
    search, in the order received, goes through [update_best]; a failed
    search changes nothing. *)
Definition replay_step (track_clean artist_name : string)
    (album_name : option string) (duration_ms : option Z)
    (st : MatchState) (ev : Event) : MatchState :=
  match ev with
  | EvSearch q _ (SearchOk tracks) =>
      fold_left (update_best track_clean artist_name album_name duration_ms q)
                tracks st
  | _ => st
  end.

(** The running best after the responses of a trace. *)
Definition replay (track_clean artist_name : string) (album_name : option string)
    (duration_ms : option Z) (evs : list Event) : MatchState :=
  fold_left (replay_step track_clean artist_name album_name duration_ms)
            evs initial_state.

(** The candidates a trace presents, in the order they are scored: the
    query that produced the hit, the hit and its score. *)
Definition candidates (track_clean artist_name : string) (album_name : option string)
    (duration_ms : option Z) (evs : list Event) : list (string * TidalTrack * Q) :=
  flat_map
    (fun ev =>
       match ev with
       | EvSearch q _ (SearchOk tracks) =>
           map (fun t => (q, t, score_track track_clean artist_name album_name duration_ms t))
               tracks
       | _ => []
       end)
    evs.

(** [# Update best match] on a candidate that is already scored. *)
Definition pick (st : MatchState) (c : string * TidalTrack * Q) : MatchState :=
  let '(q, t, score) := c in
  if Qgtb score (best_score st)
  then {| best_match := Some t; best_score := score; st_query_used := Some q |}
  else st.

(** Two names that the scorer's exact-match rule accepts. *)
Definition exact_match (a b : string) : Prop :=
  a <> EmptyString /\ b <> EmptyString
  /\ Str.strip (Str.lower a) = Str.strip (Str.lower b).

(** A hit with an exact artist match, an exact album match, a duration
    within 5000 ms and a name that contains, or is contained in, the
    normalised track name. *)
Definition exact_candidate (track_clean artist_name : string)
    (album_name : option string) (duration_ms : option Z) (t : TidalTrack) : Prop :=
  (exists track_artist,
      t_artist t = Some track_artist /\ exact_match artist_name track_artist)
  /\ (exists album track_album,
      album_name = Some album /\ t_album t = Some track_album
      /\ exact_match album track_album)
  /\ (exists ms seconds,
      duration_ms = Some ms /\ t_duration t = Some seconds
      /\ ms <> 0%Z /\ seconds <> 0%Z /\ (Z.abs (ms - seconds * 1000) < 5000)%Z)
  /\ (let track_name_clean := _normalize_search_text (default EmptyString (t_name t)) in
      Str.is_in (Str.lower track_clean) (Str.lower track_name_clean)
      || Str.is_in (Str.lower track_name_clean) (Str.lower track_clean) = true).

(** The sizes of the batches that [n] matched tracks are written in. *)
Definition batch_sizes (n : nat) : list nat :=
  repeat 50%nat (n / 50) ++ (if (n mod 50 =? 0)%nat then [] else [n mod 50]).

(** ** The matcher in binary64

    The scores of the source are IEEE 754 doubles.  [Binary64] holds the
    scorer and the matcher once more, with the control flow of the
    definitions above and the arithmetic of the source: every literal,
    product, quotient and sum is rounded to binary64 by the standard
    library's executable specification of IEEE 754 arithmetic (a decimal
    literal [n/d] is the correctly rounded quotient), and [>] and [>=] are
    the comparisons of doubles.  The statements about the thresholds 0.8
    and 0.5 and about the order of the scores are made of this matcher. *)
Module Binary64.

Definition prec : Z := 53.
Definition emax : Z := 1024.

Definition of_Z (z : Z) : spec_float := binary_normalize prec emax z 0 false.
Definition literal (n d : Z) : spec_float := SFdiv prec emax (of_Z n) (of_Z d).
Definition add : spec_float -> spec_float -> spec_float := SFadd prec emax.
Definition mul : spec_float -> spec_float -> spec_float := SFmul prec emax.

(** [score = 0.0; score += 1.0 * 0.6; score += 1.0 * 0.2; score += 0.2;
    score += 0.1] *)
Definition exact_candidate_score : spec_float :=
  let score := literal 0 10 in
  let score := add score (mul (literal 10 10) (literal 6 10)) in
  let score := add score (mul (literal 10 10) (literal 2 10)) in
  let score := add score (literal 2 10) in
  add score (literal 1 10).

(** [a / b] on two [int]s: the correctly rounded quotient. *)
Definition int_div (a b : nat) : spec_float :=
  SFdiv prec emax (of_Z (Z.of_nat a)) (of_Z (Z.of_nat b)).

(** [a > b] and [a >= b] on floats. *)
Definition gtb (a b : spec_float) : bool := SFltb b a.
Definition geb (a b : spec_float) : bool := SFleb b a.

(** [_calculate_artist_similarity], the ladder above with its results as
    doubles. *)
Definition _calculate_artist_similarity (artist1 artist2 : string) : spec_float :=
  if negb (Str.truthy artist1) || negb (Str.truthy artist2) then literal 0 10
  else
    let a1 := Str.strip (Str.lower artist1) in
    let a2 := Str.strip (Str.lower artist2) in
    (* Exact match *)
    if Str.eqb a1 a2 then literal 10 10
    (* One contains the other *)
    else if Str.is_in a1 a2 || Str.is_in a2 a1 then literal 9 10
    else
      (* Check if primary artist matches *)
      let primary1 := _extract_primary_artist a1 in
      let primary2 := _extract_primary_artist a2 in
      if Str.eqb primary1 primary2 then literal 85 100
      else
        (* Simple word overlap *)
        let words1 : gset string := list_to_set (Str.split a1) in
        let words2 : gset string := list_to_set (Str.split a2) in
        if bool_decide (words1 ≠ ∅) && bool_decide (words2 ≠ ∅) then
          let overlap :=
            int_div (size (words1 ∩ words2)) (Nat.max (size words1) (size words2)) in
          mul overlap (literal 7 10)
        else literal 0 10.

(** The dict returned by [search_tidal_track]. *)
Record MatchResult := {
  track : TidalTrack;
  confidence : spec_float;
  query_used : option string
}.

(** The three loop variables of [search_tidal_track]. *)
Record MatchState := {
  best_match : option TidalTrack;
  best_score : spec_float;
  st_query_used : option string
}.

(** How one iteration of the query loop ends. *)
Inductive LoopCtl :=
| Continue (st : MatchState)
| Break (st : MatchState).

(** The score of one search hit (the body of [for track in tracks], up to
    [# Update best match]); every [+=] rounds. *)
Definition score_track (track_clean artist_name : string)
    (album_name : option string) (duration_ms : option Z) (t : TidalTrack)
  : spec_float :=
  let score := literal 0 10 in
  (* Artist similarity (most important) *)
  let track_artist := default EmptyString (t_artist t) in
  let artist_sim := _calculate_artist_similarity artist_name track_artist in
  let score := add score (mul artist_sim (literal 6 10)) in
  (* Album match (if available) *)
  let score :=
    match truthy_str album_name, t_album t with
    | Some album_name, Some track_album =>
        let album_sim := _calculate_artist_similarity album_name track_album in
        add score (mul album_sim (literal 2 10))
    | _, _ => score
    end in
  (* Duration match (if available) *)
  let score :=
    match truthy_int duration_ms, truthy_int (t_duration t) with
    | Some duration_ms, Some track_duration =>
        let duration_diff := Z.abs (duration_ms - track_duration * 1000) in
        if (duration_diff <? 5000)%Z then add score (literal 2 10)
        else if (duration_diff <? 15000)%Z then add score (literal 1 10)
        else score
    | _, _ => add score (literal 1 10)
    end in
  (* Track name similarity (basic check) *)
  let track_name_clean := _normalize_search_text (default EmptyString (t_name t)) in
  if Str.is_in (Str.lower track_clean) (Str.lower track_name_clean)
     || Str.is_in (Str.lower track_name_clean) (Str.lower track_clean)
  then add score (literal 1 10)
  else score.

(** [# Update best match]: [if score > best_score] *)
Definition update_best (track_clean artist_name : string)
    (album_name : option string) (duration_ms : option Z)
    (query : string) (st : MatchState) (t : TidalTrack) : MatchState :=
  let score := score_track track_clean artist_name album_name duration_ms t in
  if gtb score (best_score st)
  then {| best_match := Some t; best_score := score; st_query_used := Some query |}
  else st.

Definition initial_state : MatchState :=
  {| best_match := None; best_score := literal 0 10; st_query_used := None |}.

(** [if best_match and best_score >= 0.5: return {...}] else [return None] *)
Definition final_result (st : MatchState) : option MatchResult :=
  match best_match st with
  | Some t =>
      if geb (best_score st) (literal 5 10)
      then Some {| track := t; confidence := best_score st;
                   query_used := st_query_used st |}
      else None
  | None => None
  end.

Section Matcher.

Context {World : Type}.

(** The search capability of the TIDAL session. *)
Variable tidal_search : World -> string -> nat -> World * SearchResult.

Section Attempt.

Variables (track_clean artist_name : string).
Variables (album_name : option string) (duration_ms : option Z).

(** The [try] block of one iteration of [for query in queries]. *)
Definition query_body (query : string) (st : MatchState) (w : World)
  : World * list Event * Outcome LoopCtl :=
  let '(w, search_result) := tidal_search w query 10 in
  let ev := [EvSearch query 10 search_result] in
  match search_result with
  | SearchRaised e => (w, ev, Raised e)
  | SearchOk tracks =>
      match tracks with
      | [] => (w, ev, Returned (Continue st))
      | _ :: _ =>
          (* Score each result *)
          let st :=
            fold_left (update_best track_clean artist_name album_name duration_ms query)
                      tracks st in
          (* If we found a high-confidence match, stop searching *)
          if geb (best_score st) (literal 8 10) then (w, ev, Returned (Break st))
          else (* time.sleep(0.1): the pause is not part of the model *)
            (w, ev, Returned (Continue st))
      end
  end.

(** [for query in queries: try: ... except Exception as e: print; continue] *)
Fixpoint query_loop (queries : list string) (st : MatchState) (w : World)
  : World * list Event * Outcome MatchState :=
  match queries with
  | [] => (w, [], Returned st)
  | query :: rest =>
      let '(w, ev, body) := query_body query st w in
      match try_except body (fun e => Returned (Continue st)) with
      | Raised e => (w, ev, Raised e)
      | Returned (Break st) => (w, ev, Returned st)
      | Returned (Continue st) =>
          let '(w, evs, r) := query_loop rest st w in
          (w, ev ++ evs, r)
      end
  end.

End Attempt.

Definition search_tidal_track (w : World) (track_name artist_name : string)
    (album_name : option string) (duration_ms : option Z)
  : World * list Event * Outcome (option MatchResult) :=
  (* Normalize inputs *)
  let track_clean := _normalize_search_text track_name in
  let artist_clean := _normalize_search_text artist_name in
  let primary_artist := _extract_primary_artist artist_clean in
  if negb (Str.truthy track_clean) then (w, [], Returned None)
  else
    let queries := build_queries track_clean artist_clean primary_artist in
    let '(w, evs, r) :=
      query_loop track_clean artist_name album_name duration_ms
                 queries initial_state w in
    match r with
    | Raised e => (w, evs, Raised e)
    | Returned st => (w, evs, Returned (final_result st))
    end.

End Matcher.

(** The running best after one more response. *)
Definition replay_step (track_clean artist_name : string)
    (album_name : option string) (duration_ms : option Z)
    (st : MatchState) (ev : Event) : MatchState :=
  match ev with
  | EvSearch q _ (SearchOk tracks) =>
      fold_left (update_best track_clean artist_name album_name duration_ms q)
                tracks st
  | _ => st
  end.

(** The running best after the responses of a trace. *)
Definition replay (track_clean artist_name : string) (album_name : option string)
    (duration_ms : option Z) (evs : list Event) : MatchState :=
  fold_left (replay_step track_clean artist_name album_name duration_ms)
            evs initial_state.

(** The candidates a trace presents, in the order they are scored. *)
Definition candidates (track_clean artist_name : string) (album_name : option string)
    (duration_ms : option Z) (evs : list Event)
  : list (string * TidalTrack * spec_float) :=
  flat_map
    (fun ev =>
       match ev with
       | EvSearch q _ (SearchOk tracks) =>
           map (fun t => (q, t, score_track track_clean artist_name album_name duration_ms t))
               tracks
       | _ => []
       end)
    evs.

(** [# Update best match] on a candidate that is already scored. *)
Definition pick (st : MatchState) (c : string * TidalTrack * spec_float) : MatchState :=
  let '(q, t, score) := c in
  if gtb score (best_score st)
  then {| best_match := Some t; best_score := score; st_query_used := Some q |}
  else st.

End Binary64.

(** ** Example inputs *)

Module Examples.

Definition hello : TidalTrack :=
  {| t_id := 7; t_name := Some "Hello"; t_artist := Some "Adele";
     t_album := Some "25"; t_duration := Some 295%Z |}.

(** A search capability that answers every query with the single hit
    [hello]. *)
Definition search_hello (w : unit) (q : string) (limit : nat)
  : unit * SearchResult := (w, SearchOk [hello]).

(** A search capability that fails on its first call and answers with
    [hello] afterwards; the world counts the calls. *)
Definition search_flaky (w : nat) (q : string) (limit : nat)
  : nat * SearchResult :=
  match w with
  | O => (S w, SearchRaised "timeout")
  | S _ => (S w, SearchOk [hello])
  end.

Definition add_ok (w : unit) (ids : list Z) : unit * AddResult := (w, AddOk).

(** A destination whose first write raises; the world counts the writes. *)
Definition search_hello_counting (w : nat) (q : string) (limit : nat)
  : nat * SearchResult := (w, SearchOk [hello]).

Definition add_flaky (w : nat) (ids : list Z) : nat * AddResult :=
  match w with
  | O => (S w, AddRaised "timeout")
  | S _ => (S w, AddOk)
  end.

Definition hello_item : option SpotifyTrack :=
  Some {| sp_type := "track"; sp_name := "Hello"; sp_artists := ["Adele"];
          sp_album := "25"; sp_duration_ms := 295000 |}.

(** A playlist of 125 tracks, served as a full page of 100 and a last page
    of 25. *)
Definition pages_125 : list Page :=
  [ {| page_items := repeat hello_item 100; page_next := Some "offset=100" |};
    {| page_items := repeat hello_item 25; page_next := None |} ].

(** A track that lists no artist, and a playlist of 125 tracks in which it
    comes 50th. *)
Definition anonymous_item : option SpotifyTrack :=
  Some {| sp_type := "track"; sp_name := "Hello"; sp_artists := [];
          sp_album := "25"; sp_duration_ms := 295000 |}.

Definition pages_anonymous : list Page :=
  [ {| page_items := repeat hello_item 49 ++ [anonymous_item] ++ repeat hello_item 50;
       page_next := Some "offset=100" |};
    {| page_items := repeat hello_item 25; page_next := None |} ].

(** Two hits by the very artist.  The first has the name searched for and
    no duration: 0.6 + 0.1 + 0.1.  The second has another name and the
    duration searched for: 0.6 + 0.2. *)
Definition hello_untimed : TidalTrack :=
  {| t_id := 7; t_name := Some "Hello"; t_artist := Some "Adele";
     t_album := None; t_duration := None |}.

Definition skyfall_timed : TidalTrack :=
  {| t_id := 8; t_name := Some "Skyfall"; t_artist := Some "Adele";
     t_album := None; t_duration := Some 295%Z |}.

Definition search_two (w : unit) (q : string) (limit : nat)
  : unit * SearchResult := (w, SearchOk [hello_untimed; skyfall_timed]).

End Examples.

(** ** Masking a credential: [_mask] in [connect_spotify] *)

Definition _mask (val : option string) : string :=
  match truthy_str val with
  | None => "(missing)"
  | Some v =>
      let v := Str.chars_of v in
      if (length v <=? 4)%nat then "****"
      else Str.of_chars (repeat "*"%char (length v - 4) ++ drop (length v - 4) v)
  end.

(** ** Favourites: liked songs, followed artists, saved albums *)

(** An entry of [self.failed_items['songs']], [['artists']] or
    [['albums']]; [None] is a key the entry does not have. *)
Record FailedItem := {
  fi_name : string;
  fi_artist : option string;
  fi_album : option string;
  fi_reason : string
}.

(** The counters of one transfer and the ledger it appends to. *)
Record FavState := {
  fav_imported : nat;
  fav_failed : nat;
  fav_ledger : list FailedItem
}.

(** [imported += 1] *)
Definition fav_import (st : FavState) : FavState :=
  {| fav_imported := S (fav_imported st);
     fav_failed := fav_failed st;
     fav_ledger := fav_ledger st |}.

(** [failed += 1; self.failed_items[...].append(item)] *)
Definition fav_fail (item : FailedItem) (st : FavState) : FavState :=
  {| fav_imported := fav_imported st;
     fav_failed := S (fav_failed st);
     fav_ledger := fav_ledger st ++ [item] |}.

(** [self.tidal.search(query, limit=5).get(key, [])] either raises or
    returns the hits under [key]. *)
Inductive Found (A : Type) :=
| FoundOk (hits : list A)
| FoundRaised (e : string).
Arguments FoundOk {A} hits.
Arguments FoundRaised {A} e.

(** The calls that an artist or album transfer makes on TIDAL. *)
Inductive FavCall (A : Type) :=
| FavSearch (query : string) (limit : nat) (res : Found A)
| FavAdd (id : Z) (res : AddResult).
Arguments FavSearch {A} query limit res.
Arguments FavAdd {A} id res.

(** The calls that the song transfer makes on TIDAL: those of
    [search_tidal_track], and [favorites.add_track(id)]. *)
Inductive SongCall :=
| SongSearch (ev : Event)
| SongAdd (id : Z) (res : AddResult).

(** [# Find best match]: [best_match = None; best_score = 0] and, for every
    hit, [if score > best_score: best_score = score; best_match = hit]. *)
Definition better {A : Type} (score : A -> Q) (best : option A * Q) (hit : A)
  : option A * Q :=
  if Qgtb (score hit) best.2 then (Some hit, score hit) else best.

Definition find_best {A : Type} (score : A -> Q) (hits : list A) : option A * Q :=
  fold_left (better score) hits (None, 0%Q).

(** A TIDAL artist; a missing name reads as the empty string, which the
    scorer treats alike. *)
Record TidalArtist := { ar_id : Z; ar_name : string }.

(** A TIDAL album; [al_artist] is [tidal_album.artist.name], [None] when
    the album has no artist. *)
Record TidalAlbum := { al_id : Z; al_name : string; al_artist : option string }.

(** A followed artist and a saved album of Spotify. *)
Record SpotifyArtist := { spr_id : string; spr_name : string }.
Record SpotifyAlbum := { spa_name : string; spa_artists : list string }.

(** The score of an album hit:
    [(album_score * 0.7) + (artist_score * 0.3)]. *)
Definition album_score (album : SpotifyAlbum) (artist_name : string)
    (tidal_album : TidalAlbum) : Q :=
  (let album_score := _calculate_artist_similarity (spa_name album) (al_name tidal_album) in
   let artist_score :=
     _calculate_artist_similarity artist_name
       (default EmptyString (al_artist tidal_album)) in
   (album_score * 0.7) + (artist_score * 0.3))%Q.

(** The paging shared by the three transfers: [while True: items = fetch;
    if not items: break; for item in items: ...; if len(items) < limit:
    break].  [pages] are the answers to the successive requests; a request
    past the last one returns no items. *)
Section Paged.

Context {World Item Call State : Type}.
Variable process : Item -> State -> World -> World * list Call * State.
Variable limit : nat.

Fixpoint process_all (items : list Item) (st : State) (w : World)
  : World * list Call * State :=
  match items with
  | [] => (w, [], st)
  | item :: rest =>
      let '(w, ev, st) := process item st w in
      let '(w, evs, st) := process_all rest st w in
      (w, ev ++ evs, st)
  end.

Fixpoint paged_loop (pages : list (list Item)) (st : State) (w : World)
  : World * list Call * State :=
  match pages with
  | [] => (w, [], st)
  | items :: rest =>
      match items with
      | [] => (w, [], st)
      | _ :: _ =>
          let '(w, ev, st) := process_all items st w in
          if (length items <? limit)%nat then (w, ev, st)
          else
            let '(w, evs, st) := paged_loop rest st w in
            (w, ev ++ evs, st)
      end
  end.

End Paged.

(** The items that [paged_loop] reads from the answers. *)
Fixpoint items_read {Item : Type} (limit : nat) (pages : list (list Item))
  : list Item :=
  match pages with
  | [] => []
  | items :: rest =>
      match items with
      | [] => []
      | _ :: _ =>
          if (length items <? limit)%nat then items
          else items ++ items_read limit rest
      end
  end.

(** The answers of a service that holds [library] to the requests at
    offsets [0], [limit], [2 * limit], ...: [offset += limit]. *)
Definition served {Item : Type} (limit : nat) (library : list Item)
  : list (list Item) :=
  map (fun k => take limit (drop (k * limit) library))
      (seq 0 (length library / limit + 1)).

Section Favourites.

Context {World : Type}.
Variable tidal_search : World -> string -> nat -> World * SearchResult.
Variable search_artists : World -> string -> nat -> World * Found TidalArtist.
Variable search_albums : World -> string -> nat -> World * Found TidalAlbum.

(** [self.tidal.user.favorites.add_track(id)], [add_artist(id)],
    [add_album(id)] *)
Variable add_track add_artist add_album : World -> Z -> World * AddResult.

(** [f'{best_score:.0%}'] *)
Variable percent : Q -> string.

(** The body of [for item in items] in [direct_transfer_songs]. *)
Definition process_song (item : option SpotifyTrack) (st : FavState) (w : World)
  : World * list SongCall * FavState :=
  match item with
  | Some t =>
      if Str.eqb (sp_type t) "track" then
        let failure reason :=
          {| fi_name := sp_name t;
             fi_artist := Some (Str.join ", " (sp_artists t));
             fi_album := Some (sp_album t);
             fi_reason := reason |} in
        let '(w, ev, match_result) :=
          search_tidal_track tidal_search w (sp_name t)
            (Str.join ", " (sp_artists t)) (Some (sp_album t))
            (Some (sp_duration_ms t)) in
        let calls := map SongSearch ev in
        match match_result with
        | Raised e => (w, calls, fav_fail (failure ("Error: " ++ e)%string) st)
        | Returned None =>
            let st := fav_fail (failure "No match found on TIDAL") st in
            (* print(f"... {track['name']} - {track['artists'][0]['name']}") *)
            match first_artist t with
            | Returned _ => (w, calls, st)
            | Raised e => (w, calls, fav_fail (failure ("Error: " ++ e)%string) st)
            end
        | Returned (Some m) =>
            let '(w, r) := add_track w (t_id (track m)) in
            let calls := calls ++ [SongAdd (t_id (track m)) r] in
            match r with
            | AddOk =>
                let st := fav_import st in
                (* print(f"... {track['name']} - {track['artists'][0]['name']} ...") *)
                match first_artist t with
                | Returned _ => (w, calls, st)
                | Raised e => (w, calls, fav_fail (failure ("Error: " ++ e)%string) st)
                end
            | AddRaised e => (w, calls, fav_fail (failure ("Error: " ++ e)%string) st)
            end
        end
      else (w, [], st)
  | None => (w, [], st)
  end.

(** The body of [for artist in artists] in [direct_transfer_artists]. *)
Definition process_artist (artist : SpotifyArtist) (st : FavState) (w : World)
  : World * list (FavCall TidalArtist) * FavState :=
  let failure reason :=
    {| fi_name := spr_name artist; fi_artist := None; fi_album := None;
       fi_reason := reason |} in
  let '(w, search_result) := search_artists w (spr_name artist) 5 in
  let calls := [FavSearch (spr_name artist) 5 search_result] in
  match search_result with
  | FoundRaised e => (w, calls, fav_fail (failure ("Error: " ++ e)%string) st)
  | FoundOk [] => (w, calls, fav_fail (failure "Not found on TIDAL") st)
  | FoundOk tidal_artists =>
      (* Find best match *)
      let '(best_match, best_score) :=
        find_best (fun tidal_artist =>
                     _calculate_artist_similarity (spr_name artist) (ar_name tidal_artist))
                  tidal_artists in
      match best_match with
      | Some hit =>
          if Qgeb best_score 0.7%Q then
            let '(w, r) := add_artist w (ar_id hit) in
            let calls := calls ++ [FavAdd (ar_id hit) r] in
            match r with
            | AddOk => (w, calls, fav_import st)
            | AddRaised e => (w, calls, fav_fail (failure ("Error: " ++ e)%string) st)
            end
          else
            (w, calls,
             fav_fail (failure ("No good match found (best score: "
                                ++ percent best_score ++ ")")%string) st)
      | None => (w, calls, fav_fail (failure "No match found on TIDAL") st)
      end
  end.

(** The body of [for item in items] in [direct_transfer_albums]. *)
Definition process_album (album : SpotifyAlbum) (st : FavState) (w : World)
  : World * list (FavCall TidalAlbum) * FavState :=
  let artist_name := Str.join ", " (spa_artists album) in
  let failure reason :=
    {| fi_name := spa_name album; fi_artist := Some artist_name; fi_album := None;
       fi_reason := reason |} in
  let query := (spa_name album ++ " " ++ artist_name)%string in
  let '(w, search_result) := search_albums w query 5 in
  let calls := [FavSearch query 5 search_result] in
  match search_result with
  | FoundRaised e => (w, calls, fav_fail (failure ("Error: " ++ e)%string) st)
  | FoundOk [] => (w, calls, fav_fail (failure "Not found on TIDAL") st)
  | FoundOk tidal_albums =>
      (* Find best match *)
      let '(best_match, best_score) :=
        find_best (album_score album artist_name) tidal_albums in
      match best_match with
      | Some hit =>
          if Qgeb best_score 0.6%Q then
            let '(w, r) := add_album w (al_id hit) in
            let calls := calls ++ [FavAdd (al_id hit) r] in
            match r with
            | AddOk => (w, calls, fav_import st)
            | AddRaised e => (w, calls, fav_fail (failure ("Error: " ++ e)%string) st)
            end
          else
            (w, calls,
             fav_fail (failure ("No good match found (best score: "
                                ++ percent best_score ++ ")")%string) st)
      | None => (w, calls, fav_fail (failure "No match found on TIDAL") st)
      end
  end.

(** The loops of [direct_transfer_songs], [direct_transfer_artists] and
    [direct_transfer_albums], with both services connected: [imported = 0;
    failed = 0] and the paging, 50 items to a page; [ledger] is the
    category's list of [self.failed_items] when the transfer starts. *)
Definition fresh (ledger : list FailedItem) : FavState :=
  {| fav_imported := 0; fav_failed := 0; fav_ledger := ledger |}.

Definition direct_transfer_songs (ledger : list FailedItem)
    (pages : list (list (option SpotifyTrack))) (w : World)
  : World * list SongCall * FavState :=
  paged_loop process_song 50 pages (fresh ledger) w.

Definition direct_transfer_artists (ledger : list FailedItem)
    (pages : list (list SpotifyArtist)) (w : World)
  : World * list (FavCall TidalArtist) * FavState :=
  paged_loop process_artist 50 pages (fresh ledger) w.

Definition direct_transfer_albums (ledger : list FailedItem)
    (pages : list (list SpotifyAlbum)) (w : World)
  : World * list (FavCall TidalAlbum) * FavState :=
  paged_loop process_album 50 pages (fresh ledger) w.

End Favourites.

(** The tracks among the items of a page: [track and track['type'] ==
    'track']. *)
Definition is_track (item : option SpotifyTrack) : bool :=
  match item with
  | Some t => Str.eqb (sp_type t) "track"
  | None => false
  end.

(** The number of tracks among some items. *)
Definition tracks_among (items : list (option SpotifyTrack)) : nat :=
  length (List.filter is_track items).

(** The items that [page_loop] reads from the pages of a playlist: those of
    the pages up to the first one without a [next]. *)
Fixpoint playlist_items_read (pages : list Page) : list (option SpotifyTrack) :=
  match pages with
  | [] => []
  | page :: rest =>
      page_items page ++
      match truthy_str (page_next page) with
      | None => []
      | Some _ => playlist_items_read rest
      end
  end.

(** The write calls of a trace that raised. *)
Definition failed_writes (evs : list Event) : nat :=
  length (omap (fun ev => match ev with
                          | EvAdd ids (AddRaised _) => Some ids
                          | _ => None
                          end) evs).

(** A track item names an artist; items that the loops skip need none. *)
Definition names_artist (item : option SpotifyTrack) : Prop :=
  is_track item = true -> exists t, item = Some t /\ sp_artists t <> [].

(** The tracks among some items, in order: those that the track loop
    searches for. *)
Definition tracks_of (items : list (option SpotifyTrack)) : list SpotifyTrack :=
  omap (fun item =>
          match item with
          | Some t => if Str.eqb (sp_type t) "track" then Some t else None
          | None => None
          end) items.

(** The search calls of a trace, with their answers. *)
Definition searches (evs : list Event) : list Event :=
  List.filter (fun ev => match ev with EvSearch _ _ _ => true | EvAdd _ _ => false end)
              evs.

(** [attempted tidal_search tracks evs matches]: the search calls [evs] are
    those of one attempt of the matcher for each of [tracks] in turn, made
    with the arguments that the playlist loop passes, and [matches] pairs
    each track whose attempt returned a match with that match, in order. *)
Inductive attempted {World : Type}
    (tidal_search : World -> string -> nat -> World * SearchResult)
  : list SpotifyTrack -> list Event -> list (SpotifyTrack * MatchResult) -> Prop :=
| attempted_none : attempted tidal_search [] [] []
| attempted_match t w w' evs m tracks rest matches :
    search_tidal_track tidal_search w (sp_name t) (Str.join ", " (sp_artists t))
                       (Some (sp_album t)) (Some (sp_duration_ms t))
    = (w', evs, Returned (Some m)) ->
    attempted tidal_search tracks rest matches ->
    attempted tidal_search (t :: tracks) (evs ++ rest) ((t, m) :: matches)
| attempted_no_match t w w' evs tracks rest matches :
    search_tidal_track tidal_search w (sp_name t) (Str.join ", " (sp_artists t))
                       (Some (sp_album t)) (Some (sp_duration_ms t))
    = (w', evs, Returned None) ->
    attempted tidal_search tracks rest matches ->
    attempted tidal_search (t :: tracks) (evs ++ rest) matches.

(** [match_result['track'].id] of each match. *)
Definition matched_ids (matches : list (SpotifyTrack * MatchResult)) : list Z :=
  map (fun tm => t_id (track tm.2)) matches.

(** The matched tracks all list an artist. *)
Definition credited (matches : list (SpotifyTrack * MatchResult)) : Prop :=
  Forall (fun tm => sp_artists tm.1 <> []) matches.

(** Every write call of a trace returned, except possibly the very last
    call. *)
Definition writes_return (evs : list Event) : Prop :=
  forall pre ids e post, evs = pre ++ EvAdd ids (AddRaised e) :: post -> post = [].

(** Between two items of the track loop, [evs] being the calls made so far
    and [matches] the matches found so far.  While no write has raised and
    every match lists an artist, the batches written are full and, followed
    by the buffer, they hold the IDs matched, in order; once a write has
    raised, the buffer holds at least 50 IDs. *)
Definition buffered (ps : TransferState) (evs : list Event)
    (matches : list (SpotifyTrack * MatchResult)) : Prop :=
  (failed_writes evs = 0%nat -> credited matches ->
   exists k : nat,
     map length (writes evs) = repeat 50%nat k
     /\ concat (writes evs) ++ batch_ids ps = matched_ids matches
     /\ (length (batch_ids ps) < 50)%nat)
  /\ (failed_writes evs <> 0%nat -> (50 <= length (batch_ids ps))%nat).

(** What the playlist loop keeps between two of its states, [items] being
    the items read and [evs] the calls made in between. *)
Definition counted (ps ps' : TransferState) (items : list (option SpotifyTrack))
    (evs : list Event) : Prop :=
  (failed ps' + length (failed_items ps) = failed ps + length (failed_items ps'))%nat
  /\ (imported ps' + failed ps'
      = imported ps + failed ps + tracks_among items + failed_writes evs)%nat.

(** The IDs that a transfer asked TIDAL to add to the favourites, and those
    for which the call returned. *)
Definition song_added (calls : list SongCall) : list Z :=
  omap (fun c => match c with SongAdd id AddOk => Some id | _ => None end) calls.

Definition fav_adds {A : Type} (calls : list (FavCall A)) : list Z :=
  omap (fun c => match c with FavAdd id _ => Some id | _ => None end) calls.

Definition fav_added {A : Type} (calls : list (FavCall A)) : list Z :=
  omap (fun c => match c with FavAdd id AddOk => Some id | _ => None end) calls.

(** What a favourites loop keeps between two of its states: the ledger
    only grows, by one entry for each failure counted, and [imported]
    counts the IDs in [added]. *)
Definition ledgered (st st' : FavState) (added : list Z) : Prop :=
  exists new,
    fav_ledger st' = fav_ledger st ++ new
    /\ fav_failed st' = (fav_failed st + length new)%nat
    /\ fav_imported st' = (fav_imported st + length added)%nat.

(** ** Playlists: the loop of [direct_transfer_playlists] *)

(** A TIDAL playlist, as far as the loop reads it: its name, and its
    identity as the target of [tidal_playlist.add]. *)
Record TidalPlaylist := { tp_id : Z; tp_name : string }.

(** A Spotify playlist: [playlist['name']] and the pages that
    [playlist_tracks(playlist['id'], ...)] serves for it; the requests to
    Spotify are taken to return. *)
Record SpotifyPlaylist := { spl_name : string; spl_pages : list Page }.

(** The calls that the playlists transfer makes on TIDAL. *)
Inductive PlaylistCall :=
| CallPlaylists (res : Outcome (list TidalPlaylist))
| CallCreate (name : string) (res : Outcome TidalPlaylist)
| CallTrack (target : TidalPlaylist) (ev : Event).

(** [playlists_created], [total_imported], [total_failed] and
    [self.failed_items['playlist_tracks']]. *)
Record PlaylistTotals := {
  playlists_created : nat;
  total_imported : nat;
  total_failed : nat;
  playlist_ledger : list FailureRecord
}.

(** [next((pl for pl in user_playlists if pl.name == playlist_name), None)] *)
Definition find_playlist (playlist_name : string) (user_playlists : list TidalPlaylist)
  : option TidalPlaylist :=
  List.find (fun pl => Str.eqb (tp_name pl) playlist_name) user_playlists.

Section Playlists.

Context {World : Type}.
Variable tidal_search : World -> string -> nat -> World * SearchResult.

(** [self.tidal.user.playlists()],
    [self.tidal.user.create_playlist(name, description=...)] and
    [tidal_playlist.add(batch_ids)] *)
Variable user_playlists : World -> World * Outcome (list TidalPlaylist).
Variable create_playlist : World -> string -> World * Outcome TidalPlaylist.
Variable playlist_add : TidalPlaylist -> World -> list Z -> World * AddResult.

(** [# Get and transfer tracks] up to [total_failed += failed], inside the
    [try] of one playlist: the track loop, whose ledger entries stay when
    the last write raises, the write of the remaining tracks, and the two
    totals, which a raise skips. *)
Definition transfer_tracks (tidal_playlist : TidalPlaylist) (playlist_name : string)
    (pages : list Page) (tot : PlaylistTotals) (w : World)
  : World * list PlaylistCall * PlaylistTotals :=
  let ps := {| imported := 0; failed := 0; batch_ids := []; failed_items := [] |} in
  let '(w, ev, ps) :=
    page_loop tidal_search (playlist_add tidal_playlist) playlist_name pages ps w in
  let calls := map (CallTrack tidal_playlist) ev in
  let raised :=
    {| playlists_created := playlists_created tot;
       total_imported := total_imported tot;
       total_failed := total_failed tot;
       playlist_ledger := playlist_ledger tot ++ failed_items ps |} in
  let complete :=
    {| playlists_created := playlists_created tot;
       total_imported := total_imported tot + imported ps;
       total_failed := total_failed tot + failed ps;
       playlist_ledger := playlist_ledger tot ++ failed_items ps |} in
  (* Add remaining tracks *)
  match batch_ids ps with
  | [] => (w, calls, complete)
  | _ :: _ =>
      let '(w, r) := playlist_add tidal_playlist w (batch_ids ps) in
      let calls := calls ++ [CallTrack tidal_playlist (EvAdd (batch_ids ps) r)] in
      match r with
      | AddOk => (w, calls, complete)
      | AddRaised e => (w, calls, raised)
      end
  end.

(** The body of [for playlist in playlists['items']]. *)
Definition process_playlist (playlist : option SpotifyPlaylist) (tot : PlaylistTotals)
    (w : World) : World * list PlaylistCall * PlaylistTotals :=
  match playlist with
  | None => (w, [], tot)
  | Some p =>
      let playlist_name := spl_name p in
      (* Create TIDAL playlist *)
      let '(w, r) := user_playlists w in
      let calls := [CallPlaylists r] in
      match r with
      | Raised e => (w, calls, tot)
      | Returned existing =>
          match find_playlist playlist_name existing with
          | Some tidal_playlist =>
              let '(w, evs, tot) :=
                transfer_tracks tidal_playlist playlist_name (spl_pages p) tot w in
              (w, calls ++ evs, tot)
          | None =>
              let '(w, r) := create_playlist w playlist_name in
              let calls := calls ++ [CallCreate playlist_name r] in
              match r with
              | Raised e => (w, calls, tot)
              | Returned tidal_playlist =>
                  let tot :=
                    {| playlists_created := S (playlists_created tot);
                       total_imported := total_imported tot;
                       total_failed := total_failed tot;
                       playlist_ledger := playlist_ledger tot |} in
                  let '(w, evs, tot) :=
                    transfer_tracks tidal_playlist playlist_name (spl_pages p) tot w in
                  (w, calls ++ evs, tot)
              end
          end
      end
  end.

(** The loop of [direct_transfer_playlists] over the playlists of the one
    request [current_user_playlists(limit=50)]; [ledger] is
    [self.failed_items['playlist_tracks']] when the transfer starts. *)
Definition direct_transfer_playlists (ledger : list FailureRecord)
    (playlists : list (option SpotifyPlaylist)) (w : World)
  : World * list PlaylistCall * PlaylistTotals :=
  process_all process_playlist playlists
    {| playlists_created := 0; total_imported := 0; total_failed := 0;
       playlist_ledger := ledger |} w.

End Playlists.

(** The names passed to [create_playlist], the calls of it that returned,
    the requests for the user's playlists, and the targets of the
    searches and writes of the track loops. *)
Definition creations (calls : list PlaylistCall) : list string :=
  omap (fun c => match c with CallCreate name _ => Some name | _ => None end) calls.

Definition created (calls : list PlaylistCall) : list TidalPlaylist :=
  omap (fun c => match c with CallCreate _ (Returned pl) => Some pl | _ => None end) calls.

Definition listings (calls : list PlaylistCall) : nat :=
  length (omap (fun c => match c with CallPlaylists _ => Some tt | _ => None end) calls).

Definition targets (calls : list PlaylistCall) : list TidalPlaylist :=
  omap (fun c => match c with CallTrack target _ => Some target | _ => None end) calls.

(** [imported] and [failed] have together gone up by [n]. *)
Definition tallied (st st' : FavState) (n : nat) : Prop :=
  (fav_imported st' + fav_failed st' = fav_imported st + fav_failed st + n)%nat.

(** ** More example inputs *)

Module MoreExamples.

Definition beatles : TidalArtist := {| ar_id := 11; ar_name := "The Beatles" |}.
Definition beatles_tribute : TidalArtist :=
  {| ar_id := 12; ar_name := "The Beatles Tribute Band" |}.

Definition search_beatles (w : unit) (q : string) (limit : nat)
  : unit * Found TidalArtist := (w, FoundOk [beatles_tribute; beatles]).

Definition abbey_road : TidalAlbum :=
  {| al_id := 21; al_name := "Abbey Road"; al_artist := Some "Various Artists" |}.

Definition search_abbey_road (w : unit) (q : string) (limit : nat)
  : unit * Found TidalAlbum := (w, FoundOk [abbey_road]).

Definition add_favorite (w : unit) (id : Z) : unit * AddResult := (w, AddOk).

Definition add_favorite_fails (w : unit) (id : Z) : unit * AddResult :=
  (w, AddRaised "timeout").

Definition percent (q : Q) : string := "?%".

Definition the_beatles : SpotifyArtist := {| spr_id := "a1"; spr_name := "the beatles" |}.

Definition abbey_road_saved : SpotifyAlbum :=
  {| spa_name := "Abbey Road"; spa_artists := ["The Beatles"] |}.

Definition let_it_be_saved : SpotifyAlbum :=
  {| spa_name := "Let It Be"; spa_artists := ["Various Artists"] |}.

Definition road_trip : TidalPlaylist := {| tp_id := 31; tp_name := "Road trip" |}.

(** A TIDAL account that holds the playlist [road_trip] and creates any
    other under the ID 32. *)
Definition playlists_road_trip (w : unit) : unit * Outcome (list TidalPlaylist) :=
  (w, Returned [road_trip]).

Definition create_any (w : unit) (name : string) : unit * Outcome TidalPlaylist :=
  (w, Returned {| tp_id := 32; tp_name := name |}).

Definition add_to (target : TidalPlaylist) (w : unit) (ids : list Z) : unit * AddResult :=
  (w, AddOk).

Definition road_trip_saved : SpotifyPlaylist :=
  {| spl_name := "Road trip";
     spl_pages := [ {| page_items := [Examples.hello_item]; page_next := None |} ] |}.

(** A library of 120 liked songs, two of them podcast episodes. *)
Definition episode : option SpotifyTrack :=
  Some {| sp_type := "episode"; sp_name := "News"; sp_artists := [];
          sp_album := "Daily"; sp_duration_ms := 1000 |}.

Definition library_120 : list (option SpotifyTrack) :=
  repeat Examples.hello_item 59 ++ [episode] ++ repeat Examples.hello_item 59 ++ [episode].

End MoreExamples.


(** * Properties *)

(** ** The similarity scorer *)

Lemma truthy_true (s : string) : s <> EmptyString -> Str.truthy s = true.
Proof. destruct s; [congruence | reflexivity]. Qed.

Lemma str_eqb_sym (a b : string) : Str.eqb a b = Str.eqb b a.
Proof. unfold Str.eqb. apply bool_decide_ext. split; congruence. Qed.

Lemma str_eqb_refl (a : string) : Str.eqb a a = true.
Proof. unfold Str.eqb. apply bool_decide_eq_true. reflexivity. Qed.

Lemma exact_match_similarity (a b : string) :
  exact_match a b -> _calculate_artist_similarity a b = 1.0%Q.
Proof.
  intros (Ha & Hb & Heq). unfold _calculate_artist_similarity.
  rewrite (truthy_true a Ha), (truthy_true b Hb). cbn [negb orb].
  rewrite Heq, str_eqb_refl. reflexivity.
Qed.

(** C8. For non-empty strings the scorer returns 1.0 on a string compared
    to itself, and on any two strings that are equal once lower-cased and
    trimmed. *)
Theorem similarity_exact_match :
  forall a b : string,
    a <> EmptyString -> b <> EmptyString ->
    Str.strip (Str.lower a) = Str.strip (Str.lower b) ->
    _calculate_artist_similarity a b = 1.0%Q
    /\ _calculate_artist_similarity a a = 1.0%Q.
Proof.
  intros a b Ha Hb Heq. split; apply exact_match_similarity; repeat split; auto.
Qed.

Lemma similarity_exact_match_witness :
  _calculate_artist_similarity "  The Beatles" "the beatles " = 1.0%Q
  /\ _calculate_artist_similarity "  The Beatles" "  The Beatles" = 1.0%Q.
Proof.
  apply (similarity_exact_match "  The Beatles" "the beatles ");
    [discriminate | discriminate | vm_compute; reflexivity].
Defined.

(** C10. The scorer is symmetric: every rule of the ladder treats its two
    arguments alike. *)
Theorem similarity_symmetric :
  forall a b : string,
    _calculate_artist_similarity a b = _calculate_artist_similarity b a.
Proof.
  intros a b. unfold _calculate_artist_similarity.
  rewrite (orb_comm (negb (Str.truthy a))).
  destruct (negb (Str.truthy b) || negb (Str.truthy a)); [reflexivity |].
  set (a1 := Str.strip (Str.lower a)). set (a2 := Str.strip (Str.lower b)).
  rewrite (str_eqb_sym a1 a2).
  destruct (Str.eqb a2 a1); [reflexivity |].
  rewrite (orb_comm (Str.is_in a1 a2)).
  destruct (Str.is_in a2 a1 || Str.is_in a1 a2); [reflexivity |].
  rewrite (str_eqb_sym (_extract_primary_artist a1)).
  destruct (Str.eqb (_extract_primary_artist a2) (_extract_primary_artist a1));
    [reflexivity |].
  set (w1 := list_to_set (Str.split a1) : gset string).
  set (w2 := list_to_set (Str.split a2) : gset string).
  rewrite (andb_comm (bool_decide (w1 ≠ ∅))).
  rewrite (comm_L (∩) w1 w2), (Nat.max_comm (size w1)).
  reflexivity.
Qed.

(** ** The query loop *)

Lemma Qgtb_lt (a b : Q) : Qgtb a b = true <-> (b < a)%Q.
Proof.
  unfold Qgtb. rewrite (Qgt_alt a b).
  destruct (a ?= b)%Q; split; congruence.
Qed.

Lemma Qgtb_le (a b : Q) : Qgtb a b = false <-> (a <= b)%Q.
Proof.
  rewrite Qle_alt. unfold Qgtb.
  destruct (a ?= b)%Q; split; congruence.
Qed.

Lemma Qgeb_le (a b : Q) : Qgeb a b = true <-> (b <= a)%Q.
Proof. unfold Qgeb. apply Qle_bool_iff. Qed.

Lemma Qgeb_lt (a b : Q) : Qgeb a b = false <-> (a < b)%Q.
Proof.
  unfold Qgeb. rewrite <- not_true_iff_false, Qle_bool_iff.
  split; [apply Qnot_le_lt | apply Qlt_not_le].
Qed.

Section MatcherFacts.

Context {World : Type}.
Variable tidal_search : World -> string -> nat -> World * SearchResult.
Variables (track_clean artist_name : string).
Variables (album_name : option string) (duration_ms : option Z).

Let step := replay_step track_clean artist_name album_name duration_ms.
Let loop := query_loop tidal_search track_clean artist_name album_name duration_ms.
Let body := query_body tidal_search track_clean artist_name album_name duration_ms.

(** One iteration: the call is recorded, the state moves by [replay_step],
    and the iteration breaks exactly when the new best reaches 0.8 on a
    non-empty answer. *)
Lemma query_body_spec (q : string) (st : MatchState) (w : World) :
  Qgeb (best_score st) 0.8%Q = false ->
  exists res ctl,
    body q st w = ((tidal_search w q 10).1, [EvSearch q 10 res], ctl)
    /\ (tidal_search w q 10).2 = res
    /\ let st' := step st (EvSearch q 10 res) in
       try_except ctl (fun e => Returned (Continue st))
       = Returned (if Qgeb (best_score st') 0.8%Q then Break st' else Continue st').
Proof.
  intros Hlow. unfold body, query_body.
  destruct (tidal_search w q 10) as [w1 res] eqn:E. exists res.
  destruct res as [tracks | e].
  - destruct tracks as [| t ts].
    + eexists. split; [reflexivity |]. split; [reflexivity |].
      cbn. rewrite Hlow. reflexivity.
    + cbn [step replay_step].
      destruct (Qgeb (best_score (fold_left _ (t :: ts) st)) 0.8%Q) eqn:Hb;
        eexists; (split; [reflexivity |]); (split; [reflexivity |]);
        reflexivity.
  - eexists. split; [reflexivity |]. split; [reflexivity |].
    cbn. rewrite Hlow. reflexivity.
Qed.

(** The loop as a whole. *)
Lemma query_loop_spec (queries : list string) :
  forall (st : MatchState) (w : World),
    Qgeb (best_score st) 0.8%Q = false ->
    exists w' evs,
      loop queries st w = (w', evs, Returned (fold_left step evs st))
      /\ Forall2 (fun ev q => exists res, ev = EvSearch q 10 res)
                 evs (take (length evs) queries)
      /\ (length evs <= length queries)%nat
      /\ (forall n, (n < length evs)%nat ->
            Qgeb (best_score (fold_left step (take n evs) st)) 0.8%Q = false)
      /\ ((length evs < length queries)%nat ->
            Qgeb (best_score (fold_left step evs st)) 0.8%Q = true).
Proof.
  induction queries as [| q rest IH]; intros st w Hlow.
  - exists w, []. cbn. repeat split; try constructor; try lia.
  - destruct (query_body_spec q st w Hlow) as (res & ctl & Hbody & _ & Hctl).
    cbn zeta in Hctl. unfold loop. cbn [query_loop]. fold loop. fold body.
    rewrite Hbody, Hctl.
    destruct (Qgeb (best_score (step st (EvSearch q 10 res))) 0.8%Q) eqn:Hb.
    + exists (tidal_search w q 10).1, [EvSearch q 10 res]. cbn.
      repeat split; try lia.
      * repeat constructor. eauto.
      * intros n Hn. assert (n = 0)%nat as -> by lia. exact Hlow.
      * intros _. exact Hb.
    + destruct (IH (step st (EvSearch q 10 res)) (tidal_search w q 10).1 Hb)
        as (w' & evs & Hloop & Hall & Hlen & Hpre & Hstop).
      rewrite Hloop. exists w', (EvSearch q 10 res :: evs). cbn.
      repeat split; try lia.
      * constructor; eauto.
      * intros [| n] Hn; [exact Hlow |]. cbn. apply Hpre. lia.
      * intros Hn. apply Hstop. lia.
Qed.

End MatcherFacts.

(** ** The matcher *)

Lemma omap_length_le {A B} (f : A -> option B) (l : list A) :
  (length (omap f l) <= length l)%nat.
Proof.
  induction l as [| x l IH]; cbn; [lia |].
  destruct (f x); cbn; lia.
Qed.

Lemma build_queries_length (track_clean artist_clean primary_artist : string) :
  (length (build_queries track_clean artist_clean primary_artist) <= 4)%nat.
Proof.
  unfold build_queries.
  match goal with |- (length (omap ?f ?l) <= _)%nat =>
    transitivity (length l); [apply omap_length_le | cbn; lia] end.
Qed.

Lemma search_calls_all (evs : list Event) (queries : list string) :
  Forall2 (fun ev q => exists res, ev = EvSearch q 10 res) evs queries ->
  search_calls evs = queries.
Proof.
  induction 1 as [| ev q evs qs [res ->] _ IH]; [reflexivity |].
  cbn. f_equal. exact IH.
Qed.

Section SearchFacts.

Context {World : Type}.
Variable tidal_search : World -> string -> nat -> World * SearchResult.
Variables (w : World) (track_name artist_name : string).
Variables (album_name : option string) (duration_ms : option Z).

Let track_clean := _normalize_search_text track_name.
Let artist_clean := _normalize_search_text artist_name.
Let queries :=
  build_queries track_clean artist_clean (_extract_primary_artist artist_clean).
Let step := replay_step track_clean artist_name album_name duration_ms.
Let run :=
  search_tidal_track tidal_search w track_name artist_name album_name duration_ms.

Lemma search_empty_name :
  Str.truthy track_clean = false -> run = (w, [], Returned None).
Proof.
  intros H. unfold run, search_tidal_track. fold track_clean.
  rewrite H. reflexivity.
Qed.

(** What one attempt does: it never raises, its trace is a prefix of the
    planned queries, its result is read off the replayed trace, the running
    best is below 0.8 after every call but the last, and the trace stops
    short of the plan only on a running best of at least 0.8. *)
Lemma search_tidal_track_spec :
  exists w' evs,
    run = (w', evs, Returned (final_result (fold_left step evs initial_state)))
    /\ Forall2 (fun ev q => exists res, ev = EvSearch q 10 res)
               evs (take (length evs) queries)
    /\ (length evs <= length queries)%nat
    /\ (forall n, (n < length evs)%nat ->
          Qgeb (best_score (fold_left step (take n evs) initial_state)) 0.8%Q = false)
    /\ ((length evs < length queries)%nat -> evs <> [] ->
          Qgeb (best_score (fold_left step evs initial_state)) 0.8%Q = true).
Proof.
  destruct (Str.truthy track_clean) eqn:Htc.
  - destruct (query_loop_spec tidal_search track_clean artist_name album_name
                duration_ms queries initial_state w eq_refl)
      as (w' & evs & Hloop & Hall & Hlen & Hpre & Hstop).
    exists w', evs. repeat split; try assumption.
    + unfold run, search_tidal_track. fold track_clean artist_clean.
      rewrite Htc. cbn [negb]. fold queries. rewrite Hloop. reflexivity.
    + intros H _. apply Hstop, H.
  - exists w, []. rewrite (search_empty_name Htc). cbn.
    repeat split; try constructor; try lia. congruence.
Qed.

End SearchFacts.

(** C6. A track name that normalises to the empty string makes the matcher
    return [None] at once: no search call is made and the world is left as
    it was, whatever the artist, album and duration are. *)
Theorem search_empty_track_name :
  forall (World : Type) (tidal_search : World -> string -> nat -> World * SearchResult)
         (w : World) (track_name artist_name : string)
         (album_name : option string) (duration_ms : option Z),
    _normalize_search_text track_name = EmptyString ->
    search_tidal_track tidal_search w track_name artist_name album_name duration_ms
    = (w, [], Returned None).
Proof.
  intros World tidal_search w track_name artist_name album_name duration_ms H.
  apply search_empty_name. rewrite H. reflexivity.
Qed.

Lemma search_empty_track_name_witness :
  search_tidal_track Examples.search_hello tt "(Live) [Remaster]" "Adele"
                     (Some "25") (Some 295000%Z)
  = (tt, [], Returned None).
Proof.
  apply (search_empty_track_name unit Examples.search_hello tt "(Live) [Remaster]").
  vm_compute. reflexivity.
Defined.

(** ** The query loop in binary64 *)

(** The comparisons of doubles are those of a strict order: what the first
    maximum needs of them. *)

Ltac float_order :=
  repeat match goal with
  | x : spec_float |- _ => destruct x as [[] | [] | | [] ? ?]
  end;
  cbn; try reflexivity; try discriminate;
  change (Pos.compare_cont Eq) with Pos.compare;
  repeat match goal with
  | |- context [(?a ?= ?b)%Z] => destruct (Z.compare_spec a b)
  | |- context [(?a ?= ?b)%positive] => destruct (Pos.compare_spec a b)
  end;
  cbn; try reflexivity; try discriminate; try (intros; lia).

Lemma SFltb_not_SFleb (a b : spec_float) : SFltb a b = true -> SFleb b a = false.
Proof. unfold SFltb, SFleb. float_order. Qed.

Lemma SFltb_trans (a b c : spec_float) :
  SFltb a b = true -> SFltb b c = true -> SFltb a c = true.
Proof. unfold SFltb. float_order. Qed.

Lemma SFltb_SFleb_trans (a b c : spec_float) :
  SFltb a b = true -> SFleb b c = true -> SFltb a c = true.
Proof. unfold SFltb, SFleb. float_order. Qed.

Section MatcherFacts64.

Context {World : Type}.
Variable tidal_search : World -> string -> nat -> World * SearchResult.
Variables (track_clean artist_name : string).
Variables (album_name : option string) (duration_ms : option Z).

Let step := Binary64.replay_step track_clean artist_name album_name duration_ms.
Let loop :=
  Binary64.query_loop tidal_search track_clean artist_name album_name duration_ms.
Let body :=
  Binary64.query_body tidal_search track_clean artist_name album_name duration_ms.
Let high (st : Binary64.MatchState) : bool :=
  Binary64.geb (Binary64.best_score st) (Binary64.literal 8 10).

(** One iteration: the call is recorded, the state moves by [replay_step],
    and the iteration breaks exactly when the new best reaches 0.8. *)
Lemma query_body_binary64 (q : string) (st : Binary64.MatchState) (w : World) :
  high st = false ->
  exists res ctl,
    body q st w = ((tidal_search w q 10).1, [EvSearch q 10 res], ctl)
    /\ (tidal_search w q 10).2 = res
    /\ let st' := step st (EvSearch q 10 res) in
       try_except ctl (fun e => Returned (Binary64.Continue st))
       = Returned (if high st' then Binary64.Break st' else Binary64.Continue st').
Proof.
  intros Hlow. unfold body, Binary64.query_body.
  destruct (tidal_search w q 10) as [w1 res] eqn:E. exists res.
  destruct res as [tracks | e].
  - destruct tracks as [| t ts].
    + eexists. split; [reflexivity |]. split; [reflexivity |].
      cbn. rewrite Hlow. reflexivity.
    + cbn [step Binary64.replay_step]. unfold high.
      destruct (Binary64.geb (Binary64.best_score (fold_left _ (t :: ts) st)) _) eqn:Hb;
        eexists; (split; [reflexivity |]); (split; [reflexivity |]);
        reflexivity.
  - eexists. split; [reflexivity |]. split; [reflexivity |].
    cbn. rewrite Hlow. reflexivity.
Qed.

(** The loop as a whole. *)
Lemma query_loop_binary64 (queries : list string) :
  forall (st : Binary64.MatchState) (w : World),
    high st = false ->
    exists w' evs,
      loop queries st w = (w', evs, Returned (fold_left step evs st))
      /\ Forall2 (fun ev q => exists res, ev = EvSearch q 10 res)
                 evs (take (length evs) queries)
      /\ (length evs <= length queries)%nat
      /\ (forall n, (n < length evs)%nat ->
            high (fold_left step (take n evs) st) = false)
      /\ ((length evs < length queries)%nat ->
            high (fold_left step evs st) = true).
Proof.
  induction queries as [| q rest IH]; intros st w Hlow.
  - exists w, []. cbn. repeat split; try constructor; try lia.
  - destruct (query_body_binary64 q st w Hlow) as (res & ctl & Hbody & _ & Hctl).
    cbn zeta in Hctl. unfold loop. cbn [Binary64.query_loop]. fold loop. fold body.
    rewrite Hbody, Hctl.
    destruct (high (step st (EvSearch q 10 res))) eqn:Hb.
    + exists (tidal_search w q 10).1, [EvSearch q 10 res]. cbn.
      repeat split; try lia.
      * repeat constructor. eauto.
      * intros n Hn. assert (n = 0)%nat as -> by lia. exact Hlow.
      * intros _. exact Hb.
    + destruct (IH (step st (EvSearch q 10 res)) (tidal_search w q 10).1 Hb)
        as (w' & evs & Hloop & Hall & Hlen & Hpre & Hstop).
      rewrite Hloop. exists w', (EvSearch q 10 res :: evs). cbn.
      repeat split; try lia.
      * constructor; eauto.
      * intros [| n] Hn; [exact Hlow |]. cbn. apply Hpre. lia.
      * intros Hn. apply Hstop. lia.
Qed.

End MatcherFacts64.

Section SearchFacts64.

Context {World : Type}.
Variable tidal_search : World -> string -> nat -> World * SearchResult.
Variables (w : World) (track_name artist_name : string).
Variables (album_name : option string) (duration_ms : option Z).

Let track_clean := _normalize_search_text track_name.
Let artist_clean := _normalize_search_text artist_name.
Let queries :=
  build_queries track_clean artist_clean (_extract_primary_artist artist_clean).
Let running_best := Binary64.replay track_clean artist_name album_name duration_ms.
Let high (st : Binary64.MatchState) : bool :=
  Binary64.geb (Binary64.best_score st) (Binary64.literal 8 10).
Let run :=
  Binary64.search_tidal_track tidal_search w track_name artist_name album_name
                              duration_ms.

(** What one attempt does, read with the comparisons of doubles: it never
    raises, its trace is a prefix of the planned queries, its result is read
    off the replayed trace, the running best is below 0.8 after every call
    but the last, and the trace stops short of the plan only on a running
    best of at least 0.8. *)
Lemma search_tidal_track_binary64 :
  exists w' evs,
    run = (w', evs, Returned (Binary64.final_result (running_best evs)))
    /\ Forall2 (fun ev q => exists res, ev = EvSearch q 10 res)
               evs (take (length evs) queries)
    /\ (length evs <= length queries)%nat
    /\ (forall n, (n < length evs)%nat -> high (running_best (take n evs)) = false)
    /\ ((length evs < length queries)%nat -> evs <> [] ->
          high (running_best evs) = true).
Proof.
  destruct (Str.truthy track_clean) eqn:Htc.
  - destruct (query_loop_binary64 tidal_search track_clean artist_name album_name
                duration_ms queries Binary64.initial_state w eq_refl)
      as (w' & evs & Hloop & Hall & Hlen & Hpre & Hstop).
    exists w', evs. repeat split; try assumption.
    + unfold run, Binary64.search_tidal_track. fold track_clean artist_clean.
      rewrite Htc. cbn [negb]. fold queries. rewrite Hloop. reflexivity.
    + intros H _. apply Hstop, H.
  - exists w, []. unfold run, Binary64.search_tidal_track. fold track_clean.
    rewrite Htc. cbn.
    repeat split; try constructor; try lia. congruence.
Qed.

End SearchFacts64.

(** C4. One attempt makes at most four calls, all of them search calls,
    and a call after which the running best is at least 0.8 is the last
    one; the scores and the test [best_score >= 0.8] are those of the
    doubles of the source.  The result is read off the running best of the
    whole trace. *)
Theorem search_calls_bounded :
  forall (World : Type) (tidal_search : World -> string -> nat -> World * SearchResult)
         (w : World) (track_name artist_name : string)
         (album_name : option string) (duration_ms : option Z)
         (w' : World) (evs : list Event) (r : Outcome (option Binary64.MatchResult)),
    Binary64.search_tidal_track tidal_search w track_name artist_name album_name
                                duration_ms
    = (w', evs, r) ->
    let running_best :=
      Binary64.replay (_normalize_search_text track_name) artist_name album_name
                      duration_ms in
    (length evs <= 4)%nat
    /\ length (search_calls evs) = length evs
    /\ (forall pre ev post,
          evs = pre ++ ev :: post ->
          Binary64.geb (Binary64.best_score (running_best (pre ++ [ev])))
                       (Binary64.literal 8 10) = true ->
          post = [])
    /\ r = Returned (Binary64.final_result (running_best evs)).
Proof.
  intros World tidal_search w track_name artist_name album_name duration_ms
         w' evs r Hrun running_best.
  destruct (search_tidal_track_binary64 tidal_search w track_name artist_name
              album_name duration_ms)
    as (w1 & evs1 & Hspec & Hall & Hlen & Hpre & _).
  rewrite Hrun in Hspec. injection Hspec as -> -> ->.
  repeat split.
  - etransitivity; [exact Hlen | apply build_queries_length].
  - rewrite (search_calls_all _ _ Hall), length_take. lia.
  - intros pre ev post -> Hhigh.
    destruct post as [| ev' post]; [reflexivity | exfalso].
    specialize (Hpre (S (length pre))).
    rewrite length_app in Hpre. cbn [length] in Hpre.
    rewrite (cons_middle ev pre), app_assoc in Hpre.
    rewrite take_app_length' in Hpre by (rewrite length_app; cbn; lia).
    unfold running_best in Hhigh.
    rewrite Hpre in Hhigh by lia. discriminate.
Qed.

Lemma search_calls_bounded_witness :
  exists evs,
    (Binary64.search_tidal_track Examples.search_flaky 0%nat "Hello" "Adele" None None).1.2
    = evs
    /\ length evs = 3%nat
    /\ (length evs <= 4)%nat
    /\ length (search_calls evs) = length evs.
Proof.
  destruct (Binary64.search_tidal_track Examples.search_flaky 0%nat "Hello" "Adele"
                                        None None)
    as [[w' evs] r] eqn:Hrun.
  destruct (search_calls_bounded _ _ _ _ _ _ _ _ _ _ Hrun) as (Hlen & Hcalls & _).
  exists evs. repeat split; try assumption.
  vm_compute in Hrun. injection Hrun as _ <- _. reflexivity.
Defined.

(** On this input the double and the exact sum part ways: 0.6 + 0.1 + 0.1
    is the double below 0.8, so the attempt goes on to its third query. *)
Remark binary64_sum_below_threshold :
  exists r,
    (Binary64.search_tidal_track Examples.search_flaky 0%nat "Hello" "Adele" None None).2
    = Returned (Some r)
    /\ Binary64.confidence r
       = Binary64.add (Binary64.add (Binary64.literal 6 10) (Binary64.literal 1 10))
                      (Binary64.literal 1 10)
    /\ Binary64.geb (Binary64.confidence r) (Binary64.literal 8 10) = false
    /\ Binary64.query_used r = Some "Hello Adele".
Proof. eexists. vm_compute. repeat split. Qed.


(** ** The running best is the first candidate of maximal score *)

Section BestFacts.

Variables (track_clean artist_name : string).
Variables (album_name : option string) (duration_ms : option Z).

Let score := score_track track_clean artist_name album_name duration_ms.
Let step := replay_step track_clean artist_name album_name duration_ms.
Let cands := candidates track_clean artist_name album_name duration_ms.

Lemma update_best_pick (q : string) (st : MatchState) (t : TidalTrack) :
  update_best track_clean artist_name album_name duration_ms q st t
  = pick st (q, t, score t).
Proof. reflexivity. Qed.

Lemma fold_update_best_pick (q : string) (tracks : list TidalTrack) :
  forall st,
    fold_left (update_best track_clean artist_name album_name duration_ms q) tracks st
    = fold_left pick (map (fun t => (q, t, score t)) tracks) st.
Proof.
  induction tracks as [| t ts IH]; intros st; [reflexivity |].
  cbn [fold_left map]. rewrite IH. reflexivity.
Qed.

Lemma replay_pick (evs : list Event) :
  forall st, fold_left step evs st = fold_left pick (cands evs) st.
Proof.
  induction evs as [| ev evs IH]; intros st; [reflexivity |].
  unfold cands, candidates in *. cbn [fold_left flat_map].
  rewrite fold_left_app, <- IH. f_equal.
  destruct ev as [q n [tracks | e] | ids r]; cbn; try reflexivity.
  apply fold_update_best_pick.
Qed.

Lemma cands_scored (evs : list Event) (q : string) (t : TidalTrack) (s : Q) :
  In (q, t, s) (cands evs) -> s = score t.
Proof.
  unfold cands, candidates. rewrite in_flat_map.
  intros (ev & _ & Hin).
  destruct ev as [q' n [tracks | e] | ids r]; cbn in Hin; try contradiction.
  apply in_map_iff in Hin as (t' & Heq & _).
  injection Heq as _ <- <-. reflexivity.
Qed.

(** Folding [pick] either leaves the state alone, because no candidate
    beats it, or ends on the first candidate of maximal score. *)
Lemma fold_pick_first_max (cs : list (string * TidalTrack * Q)) :
  forall st,
    (fold_left pick cs st = st /\ Forall (fun c => (c.2 <= best_score st)%Q) cs)
    \/ (exists pre q t s post,
          cs = pre ++ (q, t, s) :: post
          /\ fold_left pick cs st
             = {| best_match := Some t; best_score := s; st_query_used := Some q |}
          /\ (best_score st < s)%Q
          /\ Forall (fun c => (c.2 < s)%Q) pre
          /\ Forall (fun c => (c.2 <= s)%Q) post).
Proof.
  induction cs as [| [[q t] s] cs IH]; intros st.
  - left. split; [reflexivity | constructor].
  - cbn [fold_left]. unfold pick at 2 4. destruct (Qgtb s (best_score st)) eqn:Hgt.
    + apply Qgtb_lt in Hgt.
      destruct (IH {| best_match := Some t; best_score := s; st_query_used := Some q |})
        as [[Hsame Hall] | (pre & q' & t' & s' & post & -> & Hres & Hlt & Hpre & Hpost)].
      * right. exists [], q, t, s, cs. cbn in *. repeat split; auto.
      * right. exists ((q, t, s) :: pre), q', t', s', post. cbn in *.
        repeat split; auto; lra.
    + apply Qgtb_le in Hgt.
      destruct (IH st)
        as [[Hsame Hall] | (pre & q' & t' & s' & post & -> & Hres & Hlt & Hpre & Hpost)].
      * left. split; [exact Hsame |]. constructor; [exact Hgt | exact Hall].
      * right. exists ((q, t, s) :: pre), q', t', s', post. cbn in *.
        repeat split; auto. constructor; [cbn; lra | exact Hpre].
Qed.

End BestFacts.

Section BestFacts64.

Variables (track_clean artist_name : string).
Variables (album_name : option string) (duration_ms : option Z).

Let score := Binary64.score_track track_clean artist_name album_name duration_ms.
Let step := Binary64.replay_step track_clean artist_name album_name duration_ms.
Let cands := Binary64.candidates track_clean artist_name album_name duration_ms.

Lemma fold_update_best_pick64 (q : string) (tracks : list TidalTrack) :
  forall st,
    fold_left (Binary64.update_best track_clean artist_name album_name duration_ms q)
              tracks st
    = fold_left Binary64.pick (map (fun t => (q, t, score t)) tracks) st.
Proof.
  induction tracks as [| t ts IH]; intros st; [reflexivity |].
  cbn [fold_left map]. rewrite IH. reflexivity.
Qed.

Lemma replay_pick64 (evs : list Event) :
  forall st, fold_left step evs st = fold_left Binary64.pick (cands evs) st.
Proof.
  induction evs as [| ev evs IH]; intros st; [reflexivity |].
  unfold cands, Binary64.candidates in *. cbn [fold_left flat_map].
  rewrite fold_left_app, <- IH. f_equal.
  destruct ev as [q n [tracks | e] | ids r]; cbn; try reflexivity.
  apply fold_update_best_pick64.
Qed.

Lemma cands_scored64 (evs : list Event) (q : string) (t : TidalTrack)
    (s : spec_float) :
  In (q, t, s) (cands evs) -> s = score t.
Proof.
  unfold cands, Binary64.candidates. rewrite in_flat_map.
  intros (ev & _ & Hin).
  destruct ev as [q' n [tracks | e] | ids r]; cbn in Hin; try contradiction.
  apply in_map_iff in Hin as (t' & Heq & _).
  injection Heq as _ <- <-. reflexivity.
Qed.

(** Folding [pick] either leaves the state alone, because no candidate
    beats it, or ends on a candidate that beats the state, that no earlier
    candidate reaches and that no later candidate beats. *)
Lemma fold_pick_first_max64 (cs : list (string * TidalTrack * spec_float)) :
  forall st,
    (fold_left Binary64.pick cs st = st
     /\ Forall (fun c => Binary64.gtb c.2 (Binary64.best_score st) = false) cs)
    \/ (exists pre q t s post,
          cs = pre ++ (q, t, s) :: post
          /\ fold_left Binary64.pick cs st
             = {| Binary64.best_match := Some t; Binary64.best_score := s;
                  Binary64.st_query_used := Some q |}
          /\ Binary64.gtb s (Binary64.best_score st) = true
          /\ Forall (fun c => Binary64.geb c.2 s = false) pre
          /\ Forall (fun c => Binary64.gtb c.2 s = false) post).
Proof.
  induction cs as [| [[q t] s] cs IH]; intros st.
  - left. split; [reflexivity | constructor].
  - cbn [fold_left]. unfold Binary64.pick at 2 4.
    destruct (Binary64.gtb s (Binary64.best_score st)) eqn:Hgt.
    + destruct (IH {| Binary64.best_match := Some t; Binary64.best_score := s;
                      Binary64.st_query_used := Some q |})
        as [[Hsame Hall] | (pre & q' & t' & s' & post & -> & Hres & Hlt & Hpre & Hpost)].
      * right. exists [], q, t, s, cs. cbn in *. repeat split; auto.
      * right. exists ((q, t, s) :: pre), q', t', s', post. cbn in *.
        unfold Binary64.gtb, Binary64.geb in *. repeat split; auto.
        -- eapply SFltb_trans; eassumption.
        -- constructor; [cbn; apply SFltb_not_SFleb, Hlt | exact Hpre].
    + destruct (IH st)
        as [[Hsame Hall] | (pre & q' & t' & s' & post & -> & Hres & Hlt & Hpre & Hpost)].
      * left. split; [exact Hsame |]. constructor; [exact Hgt | exact Hall].
      * right. exists ((q, t, s) :: pre), q', t', s', post. cbn in *.
        repeat split; auto. constructor; [cbn | exact Hpre].
        unfold Binary64.gtb, Binary64.geb in *.
        destruct (SFleb s' s) eqn:Hle; [| reflexivity].
        rewrite (SFltb_SFleb_trans _ _ _ Hlt Hle) in Hgt. discriminate.
Qed.

End BestFacts64.

(** C9. The running best is replaced only by a strictly greater score
    ([score > best_score] on doubles), so the match returned is the first
    candidate of maximal score in the order the candidates are received:
    no candidate received before it reaches its score, none received after
    it exceeds its score, and its [query_used] is the query that produced
    it. *)
Theorem first_maximal_candidate_returned :
  forall (World : Type) (tidal_search : World -> string -> nat -> World * SearchResult)
         (w : World) (track_name artist_name : string)
         (album_name : option string) (duration_ms : option Z)
         (w' : World) (evs : list Event) (r : Binary64.MatchResult),
    Binary64.search_tidal_track tidal_search w track_name artist_name album_name
                                duration_ms
    = (w', evs, Returned (Some r)) ->
    let track_clean := _normalize_search_text track_name in
    let score := Binary64.score_track track_clean artist_name album_name duration_ms in
    (exists pre q post,
        Binary64.candidates track_clean artist_name album_name duration_ms evs
        = pre ++ (q, Binary64.track r, Binary64.confidence r) :: post
        /\ Binary64.confidence r = score (Binary64.track r)
        /\ Binary64.query_used r = Some q
        /\ Forall (fun c => Binary64.geb c.2 (Binary64.confidence r) = false) pre
        /\ Forall (fun c => Binary64.gtb c.2 (Binary64.confidence r) = false) post)
    /\ (forall q st t,
          let st' :=
            Binary64.update_best track_clean artist_name album_name duration_ms q st t in
          (Binary64.gtb (score t) (Binary64.best_score st) = false /\ st' = st)
          \/ (Binary64.gtb (score t) (Binary64.best_score st) = true
              /\ st' = {| Binary64.best_match := Some t;
                          Binary64.best_score := score t;
                          Binary64.st_query_used := Some q |})).
Proof.
  intros World tidal_search w track_name artist_name album_name duration_ms
         w' evs r Hrun track_clean score.
  split.
  - destruct (search_tidal_track_binary64 tidal_search w track_name artist_name
                album_name duration_ms) as (w1 & evs1 & Hspec & _).
    rewrite Hrun in Hspec. injection Hspec as <- <- Hres.
    unfold Binary64.replay in Hres. rewrite replay_pick64 in Hres.
    destruct (fold_pick_first_max64
                (Binary64.candidates track_clean artist_name album_name duration_ms evs)
                Binary64.initial_state)
      as [[Hsame _] | (pre & q & t & s & post & Hcs & Hfold & _ & Hpre & Hpost)].
    + fold track_clean in Hres. rewrite Hsame in Hres. discriminate.
    + fold track_clean in Hres. rewrite Hfold in Hres.
      unfold Binary64.final_result in Hres.
      cbn in Hres. destruct (Binary64.geb s _); [| discriminate].
      injection Hres as ->. cbn. exists pre, q, post. repeat split; auto.
      eapply cands_scored64 with (evs := evs) (q := q).
      fold track_clean. rewrite Hcs. apply in_elt.
  - intros q st t st'. subst st'. unfold Binary64.update_best. fold score.
    destruct (Binary64.gtb (score t) (Binary64.best_score st)) eqn:Hgt;
      [right | left]; split; reflexivity.
Qed.

(** Two hits that an exact sum would tie at 0.8: the double of the first
    is below the double of the second, and the second is returned. *)
Lemma first_maximal_candidate_returned_witness :
  exists r pre q post,
    (Binary64.search_tidal_track Examples.search_two tt "Hello" "Adele" None
                                 (Some 295000%Z)).2
    = Returned (Some r)
    /\ Binary64.candidates "Hello" "Adele" None (Some 295000%Z)
         (Binary64.search_tidal_track Examples.search_two tt "Hello" "Adele" None
                                      (Some 295000%Z)).1.2
       = pre ++ (q, Binary64.track r, Binary64.confidence r) :: post
    /\ Binary64.query_used r = Some q
    /\ Binary64.track r = Examples.skyfall_timed
    /\ map (fun c => c.1.2) pre = [Examples.hello_untimed]
    /\ Forall (fun c => Binary64.geb c.2 (Binary64.confidence r) = false) pre.
Proof.
  destruct (Binary64.search_tidal_track Examples.search_two tt "Hello" "Adele" None
                                        (Some 295000%Z))
    as [[w' evs] [[r |] | e]] eqn:Hrun;
    try (vm_compute in Hrun; discriminate).
  destruct (first_maximal_candidate_returned _ _ _ _ _ _ _ _ _ _ Hrun)
    as [(pre & q & post & Hcs & _ & Hq & Hpre & _) _].
  exists r, pre, q, post. repeat split; try assumption.
  - vm_compute in Hrun. injection Hrun as _ _ <-. reflexivity.
  - vm_compute in Hrun. injection Hrun as _ <- <-.
    cbn [Binary64.track Binary64.confidence] in Hcs.
    vm_compute in Hcs.
    destruct pre as [| c1 [| c2 pre]]; cbn in Hcs.
    + injection Hcs as Hbad _. discriminate.
    + injection Hcs as <- _. reflexivity.
    + injection Hcs as _ _ Hrest. destruct pre; discriminate.
Defined.



(** ** The range of the scores *)

Lemma ratio_range (k m : nat) :
  (k <= m)%nat -> (0 < m)%nat ->
  (0 <= inject_Z (Z.of_nat k) / inject_Z (Z.of_nat m) <= 1)%Q.
Proof.
  intros Hkm Hm.
  assert (Hpos : (0 < inject_Z (Z.of_nat m))%Q).
  { replace 0%Q with (inject_Z 0) by reflexivity. rewrite <- Zlt_Qlt. lia. }
  split.
  - apply Qle_shift_div_l; [exact Hpos |]. rewrite Qmult_0_l.
    replace 0%Q with (inject_Z 0) by reflexivity. rewrite <- Zle_Qle. lia.
  - apply Qle_shift_div_r; [exact Hpos |]. rewrite Qmult_1_l.
    rewrite <- Zle_Qle. lia.
Qed.

Lemma similarity_range (a b : string) :
  (0 <= _calculate_artist_similarity a b <= 1)%Q.
Proof.
  unfold _calculate_artist_similarity.
  destruct (negb (Str.truthy a) || negb (Str.truthy b)); [split; lra |].
  destruct (Str.eqb _ _); [split; lra |].
  destruct (_ || _); [split; lra |].
  destruct (Str.eqb _ _); [split; lra |].
  set (w1 := list_to_set _ : gset string). set (w2 := list_to_set _ : gset string).
  destruct (bool_decide (w1 ≠ ∅)) eqn:H1; [| split; cbn; lra].
  destruct (bool_decide (w2 ≠ ∅)) eqn:H2; [| split; cbn; lra].
  cbn [andb]. apply bool_decide_eq_true in H1.
  assert (Hk : (size (w1 ∩ w2) <= Nat.max (size w1) (size w2))%nat).
  { transitivity (size w1); [apply subseteq_size, intersection_subseteq_l | lia]. }
  assert (Hm : (0 < Nat.max (size w1) (size w2))%nat).
  { destruct (size w1) eqn:Hsz; [| lia].
    apply size_empty_inv, leibniz_equiv in Hsz. contradiction. }
  pose proof (ratio_range _ _ Hk Hm) as [Hlo Hhi].
  split; nra.
Qed.

Section ScoreFacts.

Variables (track_clean artist_name : string).
Variables (album_name : option string) (duration_ms : option Z).

Let score := score_track track_clean artist_name album_name duration_ms.

(** Every hit scores between 0 and 1.1 = 0.6 + 0.2 + 0.2 + 0.1. *)
Lemma score_track_range (t : TidalTrack) : (0 <= score t <= 1.1)%Q.
Proof.
  unfold score, score_track.
  pose proof (similarity_range artist_name (default EmptyString (t_artist t))) as Ha.
  repeat match goal with
         | |- context [match ?x with _ => _ end] =>
             match x with
             | _calculate_artist_similarity _ _ => fail 1
             | _ => destruct x eqn:?
             end
         end;
    try match goal with
        | |- context [(_calculate_artist_similarity ?x ?y * 0.2)%Q] =>
            pose proof (similarity_range x y)
        end;
    split; lra.
Qed.

(** An exact candidate scores 0.6 + 0.2 + 0.2 + 0.1. *)
Lemma score_track_exact (t : TidalTrack) :
  exact_candidate track_clean artist_name album_name duration_ms t ->
  (score t == 1.1)%Q.
Proof.
  intros ((ta & Hta & Ha1 & Ha2 & Ha3)
          & (al & tal & Hal & Htal & Hb1 & Hb2 & Hb3)
          & (ms & sec & Hms & Hsec & Hms0 & Hsec0 & Hdiff) & Hname).
  unfold score, score_track. cbn zeta in Hname. rewrite Hname.
  rewrite Hta, Hal, Htal, Hms, Hsec. cbn [default truthy_str truthy_int].
  rewrite (truthy_true al Hb1).
  destruct (Z.eqb_spec ms 0); [contradiction |].
  destruct (Z.eqb_spec sec 0); [contradiction |].
  destruct (Z.ltb_spec (Z.abs (ms - sec * 1000)) 5000); [| lia].
  unfold id.
  rewrite (exact_match_similarity _ _ (conj Ha1 (conj Ha2 Ha3))).
  rewrite (exact_match_similarity _ _ (conj Hb1 (conj Hb2 Hb3))).
  reflexivity.
Qed.

End ScoreFacts.




(** In binary64 the score of the exact candidate is the double [1.1], above
    [1.0], as in the rational model. *)
Remark binary64_exact_candidate_score :
  Binary64.exact_candidate_score = Binary64.literal 11 10
  /\ SFltb (Binary64.literal 10 10) Binary64.exact_candidate_score = true.
Proof. vm_compute. split; reflexivity. Qed.

(** ** Batching in the playlist loop *)

Lemma writes_app (a b : list Event) : writes (a ++ b) = writes a ++ writes b.
Proof. unfold writes. apply omap_app. Qed.

Lemma writes_add (ids : list Z) (r : AddResult) : writes [EvAdd ids r] = [ids].
Proof. reflexivity. Qed.

Lemma writes_searches (evs : list Event) (queries : list string) :
  Forall2 (fun ev q => exists res, ev = EvSearch q 10 res) evs queries ->
  writes evs = [].
Proof.
  induction 1 as [| ev q evs qs [res ->] _ IH]; [reflexivity | exact IH].
Qed.

Lemma batch_sizes_spec (k len : nat) :
  (len < 50)%nat ->
  batch_sizes (50 * k + len)
  = repeat 50%nat k ++ (match len with O => [] | S _ => [len] end).
Proof.
  intros Hlen. unfold batch_sizes.
  replace ((50 * k + len) / 50)%nat with k
    by (apply Nat.div_unique with len; lia).
  replace ((50 * k + len) mod 50)%nat with len
    by (apply Nat.mod_unique with k; lia).
  destruct len; reflexivity.
Qed.

Lemma failed_writes_app (a b : list Event) :
  failed_writes (a ++ b) = (failed_writes a + failed_writes b)%nat.
Proof. unfold failed_writes. rewrite omap_app, length_app. reflexivity. Qed.

Lemma failed_writes_searches (evs : list Event) (queries : list string) :
  Forall2 (fun ev q => exists res, ev = EvSearch q 10 res) evs queries ->
  failed_writes evs = 0%nat.
Proof.
  induction 1 as [| ev q evs qs [res ->] _ IH]; [reflexivity | exact IH].
Qed.

Lemma failed_writes_returned (ids : list Z) : failed_writes [EvAdd ids AddOk] = 0%nat.
Proof. reflexivity. Qed.

Lemma failed_writes_raised (ids : list Z) (e : string) :
  failed_writes [EvAdd ids (AddRaised e)] = 1%nat.
Proof. reflexivity. Qed.

Lemma searches_app (a b : list Event) : searches (a ++ b) = searches a ++ searches b.
Proof. apply List.filter_app. Qed.

Lemma searches_searches (evs : list Event) (queries : list string) :
  Forall2 (fun ev q => exists res, ev = EvSearch q 10 res) evs queries ->
  searches evs = evs.
Proof.
  induction 1 as [| ev q evs qs [res ->] _ IH]; [reflexivity |].
  cbn. f_equal. exact IH.
Qed.

Lemma tracks_of_app (a b : list (option SpotifyTrack)) :
  tracks_of (a ++ b) = tracks_of a ++ tracks_of b.
Proof. apply omap_app. Qed.

Lemma tracks_of_one (t : SpotifyTrack) :
  tracks_of [Some t] = if Str.eqb (sp_type t) "track" then [t] else [].
Proof. unfold tracks_of. cbn. destruct (Str.eqb (sp_type t) "track"); reflexivity. Qed.

(** A write that raised splits the trace. *)
Lemma failed_writes_split (evs : list Event) :
  failed_writes evs <> 0%nat ->
  exists pre ids e post, evs = pre ++ EvAdd ids (AddRaised e) :: post.
Proof.
  induction evs as [| ev evs IH]; intros Hfailed; [contradiction |].
  destruct ev as [q n res | ids [| e]].
  - destruct (IH Hfailed) as (pre & ids & e & post & ->).
    exists (EvSearch q n res :: pre), ids, e, post. reflexivity.
  - destruct (IH Hfailed) as (pre & ids' & e & post & ->).
    exists (EvAdd ids AddOk :: pre), ids', e, post. reflexivity.
  - exists [], ids, e, evs. reflexivity.
Qed.

Lemma failed_writes_in (pre post : list Event) (ids : list Z) (e : string) :
  failed_writes (pre ++ EvAdd ids (AddRaised e) :: post) <> 0%nat.
Proof. rewrite failed_writes_app. cbn. lia. Qed.

Lemma writes_return_none (evs : list Event) :
  failed_writes evs = 0%nat -> writes_return evs.
Proof.
  intros Hnone pre ids e post ->. exfalso. exact (failed_writes_in _ _ _ _ Hnone).
Qed.

Lemma concat_length (l : list (list Z)) (k : nat) :
  map length l = repeat 50%nat k -> length (concat l) = (50 * k)%nat.
Proof.
  revert k. induction l as [| x l IH]; intros [| k] Hl; try discriminate; [reflexivity |].
  cbn [map repeat] in Hl. injection Hl as Hx Hl.
  cbn [concat]. rewrite length_app, Hx, (IH k Hl). lia.
Qed.

Lemma matched_ids_app (a b : list (SpotifyTrack * MatchResult)) :
  matched_ids (a ++ b) = matched_ids a ++ matched_ids b.
Proof. apply map_app. Qed.

Section PlaylistFacts.

Context {World : Type}.
Variable tidal_search : World -> string -> nat -> World * SearchResult.
Variable playlist_add : World -> list Z -> World * AddResult.
Variable playlist_name : string.

Let item_step := process_item tidal_search playlist_add playlist_name.
Let items_step := process_items tidal_search playlist_add playlist_name.
Let pages_step := page_loop tidal_search playlist_add playlist_name.

(** One attempt returns, and its calls are search calls. *)
Lemma search_returns (w : World) (track_name artist_name : string)
    (album_name : option string) (duration_ms : option Z) :
  exists w' evs res,
    search_tidal_track tidal_search w track_name artist_name album_name duration_ms
    = (w', evs, Returned res)
    /\ searches evs = evs /\ writes evs = [] /\ failed_writes evs = 0%nat.
Proof.
  destruct (search_tidal_track_spec tidal_search w track_name artist_name
              album_name duration_ms) as (w' & evs & Hrun & Hall & _).
  eexists w', evs, _. split; [exact Hrun |].
  split; [eapply searches_searches, Hall |].
  split; [eapply writes_searches, Hall | eapply failed_writes_searches, Hall].
Qed.

Lemma attempted_app (tracks1 tracks2 : list SpotifyTrack) (evs1 evs2 : list Event)
    (matches1 matches2 : list (SpotifyTrack * MatchResult)) :
  attempted tidal_search tracks1 evs1 matches1 ->
  attempted tidal_search tracks2 evs2 matches2 ->
  attempted tidal_search (tracks1 ++ tracks2) (evs1 ++ evs2) (matches1 ++ matches2).
Proof.
  intros H1 H2. induction H1 as [| t w w' evs m tracks rest matches Hrun _ IH
                                  | t w w' evs tracks rest matches Hrun _ IH].
  - exact H2.
  - cbn [app]. rewrite <- app_assoc. eapply attempted_match; eassumption.
  - cbn [app]. rewrite <- app_assoc. eapply attempted_no_match; eassumption.
Qed.

(** The matches are matches of the tracks attempted. *)
Lemma attempted_tracks (P : SpotifyTrack -> Prop) (tracks : list SpotifyTrack)
    (evs : list Event) (matches : list (SpotifyTrack * MatchResult)) :
  attempted tidal_search tracks evs matches ->
  Forall P tracks -> Forall (fun tm => P tm.1) matches.
Proof.
  induction 1 as [| t w w' evs m tracks rest matches Hrun _ IH
                  | t w w' evs tracks rest matches Hrun _ IH]; intros Hall.
  - constructor.
  - apply Forall_cons in Hall as [Ht Hall]. constructor; [exact Ht | exact (IH Hall)].
  - apply Forall_cons in Hall as [_ Hall]. exact (IH Hall).
Qed.

Lemma buffered_searches (ps ps' : TransferState) (evs0 ev : list Event)
    (matches : list (SpotifyTrack * MatchResult)) :
  writes ev = [] -> failed_writes ev = 0%nat -> batch_ids ps' = batch_ids ps ->
  buffered ps evs0 matches -> buffered ps' (evs0 ++ ev) matches.
Proof.
  intros Hw Hf Hb [Hgood Hbad]. unfold buffered.
  rewrite failed_writes_app, writes_app, Hw, Hf, Hb, app_nil_r, Nat.add_0_r.
  split; assumption.
Qed.

(** One item: its search calls are one attempt, and the buffer is kept as
    [buffered] says. *)
Lemma process_item_buffered (item : option SpotifyTrack) (ps : TransferState)
    (w : World) :
  exists new,
    attempted tidal_search (tracks_of [item]) (searches (item_step item ps w).1.2) new
    /\ forall evs0 matches0,
         buffered ps evs0 matches0 ->
         buffered (item_step item ps w).2 (evs0 ++ (item_step item ps w).1.2)
                  (matches0 ++ new).
Proof.
  unfold item_step, process_item.
  destruct item as [t |];
    [| exists []; split; [constructor |]; intros evs0 matches0 H; cbn [fst snd];
       rewrite !app_nil_r; exact H].
  rewrite tracks_of_one.
  destruct (Str.eqb (sp_type t) "track");
    [| exists []; split; [constructor |]; intros evs0 matches0 H; cbn [fst snd];
       rewrite !app_nil_r; exact H].
  destruct (search_returns w (sp_name t) (Str.join ", " (sp_artists t))
              (Some (sp_album t)) (Some (sp_duration_ms t)))
    as (w1 & ev & res & Hrun & Hsearch & Hwrites & Hfailed).
  rewrite Hrun. destruct res as [m |].
  - (* a match *)
    exists [(t, m)].
    assert (Hatt : attempted tidal_search [t] (searches ev) [(t, m)]).
    { rewrite Hsearch, <- (app_nil_r ev).
      eapply attempted_match; [exact Hrun | constructor]. }
    unfold first_artist. destruct (sp_artists t) as [| name names] eqn:Hartists.
    + (* the progress line raises: the buffer is not tested *)
      cbn [fst snd]. split; [exact Hatt |].
      intros evs0 matches0 [Hgood Hbad]. unfold buffered.
      rewrite failed_writes_app, Hfailed, Nat.add_0_r.
      cbn [record_failure batch_ids]. rewrite length_app. cbn [length]. split.
      * intros _ Hcredited. apply Forall_app in Hcredited as [_ Hnew].
        apply Forall_inv in Hnew. cbn in Hnew. congruence.
      * intros Hf. specialize (Hbad Hf). lia.
    + cbn [imported failed batch_ids failed_items]. rewrite length_app. cbn [length].
      destruct (Nat.eqb_spec (length (batch_ids ps) + 1) 50) as [Hfull | Hroom].
      * destruct (playlist_add w1 (batch_ids ps ++ [t_id (track m)])) as [w2 [| e]];
          cbn [fst snd]; rewrite searches_app; cbn [searches List.filter];
          rewrite app_nil_r; (split; [exact Hatt |]);
          intros evs0 matches0 [Hgood Hbad]; unfold buffered;
          rewrite !failed_writes_app, !writes_app, Hwrites, Hfailed, writes_add;
          cbn [Nat.add app].
        -- (* the write returns: a full batch, the buffer is emptied *)
           rewrite failed_writes_returned, Nat.add_0_r.
           split; [| intros Hf; specialize (Hbad Hf); lia].
           intros Hf Hcredited. apply Forall_app in Hcredited as [Hold _].
           destruct (Hgood Hf Hold) as (k & Hsizes & Hids & Hlen).
           exists (S k). cbn [batch_ids length].
           rewrite map_app, Hsizes, concat_app, matched_ids_app, <- Hids.
           cbn [map concat length matched_ids snd]. rewrite length_app, !app_nil_r.
           cbn [length]. rewrite Hfull, app_assoc.
           repeat split; [| lia]. symmetry. exact (repeat_cons k 50%nat).
        -- (* the write raises: the buffer is kept *)
           rewrite failed_writes_raised.
           cbn [record_failure batch_ids]. rewrite length_app. cbn [length].
           split; intros; lia.
      * cbn [fst snd]. split; [exact Hatt |].
        intros evs0 matches0 [Hgood Hbad]. unfold buffered.
        rewrite failed_writes_app, writes_app, Hwrites, Hfailed, Nat.add_0_r, app_nil_r.
        cbn [batch_ids]. rewrite length_app. cbn [length]. split.
        -- intros Hf Hcredited. apply Forall_app in Hcredited as [Hold _].
           destruct (Hgood Hf Hold) as (k & Hsizes & Hids & Hlen).
           exists k. rewrite matched_ids_app, <- Hids, app_assoc.
           repeat split; [exact Hsizes | lia].
        -- intros Hf. specialize (Hbad Hf). lia.
  - (* no match *)
    exists [].
    assert (Hatt : attempted tidal_search [t] (searches ev) []).
    { rewrite Hsearch, <- (app_nil_r ev).
      eapply attempted_no_match; [exact Hrun | constructor]. }
    destruct (first_artist t); cbn [fst snd]; (split; [exact Hatt |]);
      intros evs0 matches0 H; rewrite app_nil_r;
      eapply buffered_searches; eauto.
Qed.

Lemma process_items_buffered (items : list (option SpotifyTrack)) :
  forall (ps : TransferState) (w : World),
  exists new,
    attempted tidal_search (tracks_of items) (searches (items_step items ps w).1.2) new
    /\ forall evs0 matches0,
         buffered ps evs0 matches0 ->
         buffered (items_step items ps w).2 (evs0 ++ (items_step items ps w).1.2)
                  (matches0 ++ new).
Proof.
  unfold items_step.
  induction items as [| item rest IH]; intros ps w.
  - exists []. split; [constructor |]. intros evs0 matches0 H. cbn [process_items fst snd].
    rewrite !app_nil_r. exact H.
  - cbn [process_items].
    destruct (process_item_buffered item ps w) as (new1 & Hatt1 & Hbuf1).
    unfold item_step in Hatt1, Hbuf1.
    destruct (process_item _ _ _ item ps w) as [[w1 ev] ps1]. cbn [fst snd] in Hatt1, Hbuf1.
    destruct (IH ps1 w1) as (new2 & Hatt2 & Hbuf2).
    destruct (process_items _ _ _ rest ps1 w1) as [[w2 evs] ps2].
    cbn [fst snd] in Hatt2, Hbuf2 |- *.
    exists (new1 ++ new2). split.
    + change (item :: rest) with ([item] ++ rest).
      rewrite tracks_of_app, searches_app. apply attempted_app; assumption.
    + intros evs0 matches0 H. rewrite !app_assoc. apply Hbuf2, Hbuf1, H.
Qed.

Lemma page_loop_buffered (pages : list Page) :
  forall (ps : TransferState) (w : World),
  exists new,
    attempted tidal_search (tracks_of (playlist_items_read pages))
              (searches (pages_step pages ps w).1.2) new
    /\ forall evs0 matches0,
         buffered ps evs0 matches0 ->
         buffered (pages_step pages ps w).2 (evs0 ++ (pages_step pages ps w).1.2)
                  (matches0 ++ new).
Proof.
  unfold pages_step.
  induction pages as [| page rest IH]; intros ps w.
  - exists []. split; [constructor |]. intros evs0 matches0 H. cbn [page_loop fst snd].
    rewrite !app_nil_r. exact H.
  - cbn [page_loop playlist_items_read].
    destruct (process_items_buffered (page_items page) ps w) as (new1 & Hatt1 & Hbuf1).
    unfold items_step in Hatt1, Hbuf1.
    destruct (process_items _ _ _ (page_items page) ps w) as [[w1 ev] ps1].
    cbn [fst snd] in Hatt1, Hbuf1.
    destruct (truthy_str (page_next page)).
    + destruct (IH ps1 w1) as (new2 & Hatt2 & Hbuf2).
      destruct (page_loop _ _ _ rest ps1 w1) as [[w2 evs] ps2].
      cbn [fst snd] in Hatt2, Hbuf2 |- *.
      exists (new1 ++ new2). split.
      * rewrite tracks_of_app, searches_app. apply attempted_app; assumption.
      * intros evs0 matches0 H. rewrite !app_assoc. apply Hbuf2, Hbuf1, H.
    + cbn [fst snd]. exists new1. rewrite app_nil_r. split; assumption.
Qed.

(** The track loop of one playlist, with its last write. *)
Lemma transfer_playlist_tracks_buffered (pages : list Page) (w : World) :
  let run := transfer_playlist_tracks tidal_search playlist_add playlist_name pages w in
  exists matches,
    attempted tidal_search (tracks_of (playlist_items_read pages))
              (searches run.1.2) matches
    /\ (writes_return run.1.2 -> credited matches ->
        concat (writes run.1.2) = matched_ids matches
        /\ map length (writes run.1.2) = batch_sizes (length matches)).
Proof.
  unfold transfer_playlist_tracks.
  set (ps0 := {| imported := 0; failed := 0; batch_ids := []; failed_items := [] |}).
  assert (Hinit : buffered ps0 [] []).
  { split; [| intros H; contradiction].
    intros _ _. exists 0%nat. cbn. repeat split. lia. }
  destruct (page_loop_buffered pages ps0 w) as (matches & Hatt & Hbuf).
  specialize (Hbuf [] [] Hinit). unfold pages_step in Hatt, Hbuf.
  destruct (page_loop _ _ _ pages ps0 w) as [[w1 ev] ps]. cbn [fst snd app] in Hatt, Hbuf.
  destruct Hbuf as [Hgood Hbad].
  exists matches.
  assert (Hsizes : forall k, (length (batch_ids ps) < 50)%nat ->
             map length (writes ev) = repeat 50%nat k ->
             concat (writes ev) ++ batch_ids ps = matched_ids matches ->
             length matches = (50 * k + length (batch_ids ps))%nat).
  { intros k _ Hk Hids. apply (f_equal length) in Hids.
    unfold matched_ids in Hids. rewrite length_map, length_app in Hids.
    rewrite (concat_length _ _ Hk) in Hids. lia. }
  destruct (batch_ids ps) as [| id ids] eqn:Hbatch.
  - cbn [fst snd]. split; [exact Hatt |]. intros Hreturn Hcredited.
    assert (Hf : failed_writes ev = 0%nat).
    { destruct (failed_writes ev) eqn:Hf; [reflexivity |].
      assert (Hne : S n <> 0%nat) by lia. specialize (Hbad Hne). cbn in Hbad. lia. }
    destruct (Hgood Hf Hcredited) as (k & Hk & Hids & Hlen).
    rewrite app_nil_r in Hids. split; [exact Hids |].
    rewrite (Hsizes k Hlen Hk ltac:(rewrite app_nil_r; exact Hids)).
    rewrite batch_sizes_spec by exact Hlen. cbn [length]. rewrite app_nil_r. exact Hk.
  - assert (Hlast : forall r,
               attempted tidal_search (tracks_of (playlist_items_read pages))
                         (searches (ev ++ [EvAdd (id :: ids) r])) matches
               /\ (writes_return (ev ++ [EvAdd (id :: ids) r]) -> credited matches ->
                   concat (writes (ev ++ [EvAdd (id :: ids) r])) = matched_ids matches
                   /\ map length (writes (ev ++ [EvAdd (id :: ids) r]))
                      = batch_sizes (length matches))).
    { intros r. split.
      - rewrite searches_app. cbn [searches List.filter]. rewrite app_nil_r. exact Hatt.
      - intros Hreturn Hcredited.
        assert (Hf : failed_writes ev = 0%nat).
        { destruct (failed_writes ev) eqn:Hf; [reflexivity |].
          assert (Hne : failed_writes ev <> 0%nat) by lia.
          destruct (failed_writes_split ev Hne) as (pre & ids' & e & post & ->).
          specialize (Hreturn pre ids' e (post ++ [EvAdd (id :: ids) r])).
          rewrite <- app_assoc in Hreturn. specialize (Hreturn eq_refl).
          destruct post; discriminate. }
        destruct (Hgood Hf Hcredited) as (k & Hk & Hids & Hlen).
        rewrite writes_app, writes_add, concat_app, map_app, Hk.
        cbn [concat map]. rewrite app_nil_r. split; [exact Hids |].
        rewrite (Hsizes k Hlen Hk Hids), batch_sizes_spec by exact Hlen.
        reflexivity. }
    destruct (playlist_add w1 (id :: ids)) as [w2 [| e]]; cbn [fst snd]; apply Hlast.
Qed.

End PlaylistFacts.




(** ** The text normaliser *)

Module TextFacts.
Import Char Text NoiseNotations.

(** *** Characters *)

Ltac each_char c :=
  destruct c as [[] [] [] [] [] [] [] []]; vm_compute; try reflexivity; try discriminate.

Lemma space_not_word (c : ascii) : is_space c = true -> is_word c = false.
Proof. each_char c. Qed.

Lemma lower_char_word (c : ascii) : is_word (lower_char c) = is_word c.
Proof. each_char c. Qed.

Lemma eq_ci_word (a b : ascii) : eq_ci a b = true -> is_word a = is_word b.
Proof.
  unfold eq_ci. intros H%bool_decide_eq_true.
  rewrite <- (lower_char_word a), <- (lower_char_word b), H. reflexivity.
Qed.

Lemma lower_char_amp (c : ascii) : lower_char c = "&"%char -> c = "&"%char.
Proof. each_char c. Qed.

(** *** [thinned] *)

Lemma thinned_refl (s : chars) : thinned s s.
Proof. induction s; constructor; assumption. Qed.

Lemma thinned_all (s : chars) : thinned [] s.
Proof. induction s; constructor; assumption. Qed.

Lemma thinned_app (u1 v1 u2 v2 : chars) :
  thinned u1 v1 -> thinned u2 v2 -> thinned (u1 ++ u2) (v1 ++ v2).
Proof.
  induction 1 as [| c u v _ IH | c u v _ IH | c u v Hc _ IH]; intros H2; cbn.
  - exact H2.
  - apply thinned_keep, IH, H2.
  - apply thinned_drop, IH, H2.
  - apply thinned_space; [exact Hc | apply IH, H2].
Qed.

Lemma thinned_trans (u v : chars) :
  thinned u v -> forall t, thinned t u -> thinned t v.
Proof.
  induction 1 as [| c u v _ IH | c u v _ IH | c u v Hc _ IH]; intros t Ht.
  - exact Ht.
  - inversion Ht; subst.
    + apply thinned_keep; auto.
    + apply thinned_drop; auto.
    + apply thinned_space; auto.
  - apply thinned_drop; auto.
  - inversion Ht; subst.
    + apply thinned_space; auto.
    + apply thinned_drop; auto.
    + apply thinned_space; auto.
Qed.

Lemma thinned_in (u v : chars) (x : ascii) :
  thinned u v -> x <> " "%char -> In x u -> In x v.
Proof.
  intros H Hx. induction H; cbn; intros Hin; auto.
  - destruct Hin; auto.
  - destruct Hin as [Heq | Hin]; [congruence | auto].
Qed.

Lemma thinned_span_free (op cl : ascii) (u v : chars) :
  op <> " "%char -> cl <> " "%char ->
  thinned u v -> span_free op cl v -> span_free op cl u.
Proof.
  intros Hop Hcl H. induction H as [| c u v H IH | c u v H IH | c u v Hc H IH];
    cbn; intros Hv; auto.
  - destruct Hv as [Hhead Hrest]. split; [| auto].
    intros Heq Hin. apply (Hhead Heq). eapply thinned_in; eauto.
  - apply IH, Hv.
  - split; [congruence | apply IH, Hv].
Qed.

(** *** Every stage thins the text *)

Lemma sub_delimited_thinned (op cl : ascii) (s : chars) :
  forall inside, thinned (sub_delimited op cl inside s) s.
Proof.
  induction s as [| c s IH]; intros inside; cbn; [constructor |].
  destruct inside; [apply thinned_drop, IH |].
  destruct (_ && _); [apply thinned_drop | apply thinned_keep]; apply IH.
Qed.

Lemma sub_word_thinned (w s : chars) :
  forall skip prev, thinned (sub_word w skip prev s) s.
Proof.
  induction s as [| c s IH]; intros skip prev; cbn [sub_word]; [constructor |].
  destruct skip; [| apply thinned_drop, IH].
  destruct (matches_at w prev (c :: s)); [apply thinned_drop | apply thinned_keep];
    apply IH.
Qed.

Lemma noise_thinned (noise : list chars) :
  forall s, thinned (fold_left (fun s w => sub_word w 0 None s) noise s) s.
Proof.
  induction noise as [| w noise IH]; intros s; cbn; [apply thinned_refl |].
  eapply thinned_trans; [apply sub_word_thinned | apply IH].
Qed.

Lemma join_cons (w : chars) (ws : list chars) :
  join [" "%char] (w :: ws)
  = w ++ match ws with [] => [] | _ :: _ => " "%char :: join [" "%char] ws end.
Proof. destruct ws; cbn; [rewrite app_nil_r |]; reflexivity. Qed.

Lemma join_flush (cur : chars) (ws : list chars) :
  join [" "%char] (flush cur ++ ws)
  = match cur, ws with
    | [], _ => join [" "%char] ws
    | _, [] => cur
    | _, _ => cur ++ " "%char :: join [" "%char] ws
    end.
Proof.
  destruct cur as [| c cur]; [reflexivity |].
  cbn [flush app]. rewrite join_cons. destruct ws; [apply app_nil_r | reflexivity].
Qed.

Lemma collapse_thinned (s : chars) :
  forall cur, thinned (join [" "%char] (fields is_space cur s)) (cur ++ s).
Proof.
  induction s as [| c s IH]; intros cur; cbn [fields].
  - rewrite <- (app_nil_r (flush cur)), join_flush, app_nil_r.
    destruct cur; apply thinned_refl.
  - destruct (is_space c) eqn:Hc.
    + rewrite join_flush. specialize (IH []). cbn [app] in IH.
      destruct cur as [| x cur]; [apply thinned_drop, IH |].
      destruct (fields is_space [] s) as [| f fs] eqn:Hf.
      * rewrite <- (app_nil_r (x :: cur)) at 1.
        apply thinned_app; [apply thinned_refl | apply thinned_all].
      * apply thinned_app; [apply thinned_refl |].
        apply thinned_space; assumption.
    + specialize (IH (cur ++ [c])). rewrite <- app_assoc in IH. exact IH.
Qed.

(** *** Fields *)

Section Fields.

Variable sep : ascii -> bool.

Lemma fields_app_field (w s : chars) :
  Forall (fun c => sep c = false) w ->
  forall cur, fields sep cur (w ++ s) = fields sep (cur ++ w) s.
Proof.
  induction 1 as [| c w Hc _ IH]; intros cur; cbn [app fields].
  - rewrite app_nil_r. reflexivity.
  - rewrite Hc, IH, <- app_assoc. reflexivity.
Qed.

Lemma fields_sep (c : ascii) (a b : chars) :
  sep c = true ->
  forall cur, fields sep cur (a ++ c :: b) = fields sep cur a ++ fields sep [] b.
Proof.
  intros Hc. induction a as [| x a IH]; intros cur; cbn [app fields].
  - rewrite Hc. reflexivity.
  - destruct (sep x); [rewrite IH, app_assoc |]; auto.
Qed.

Lemma flush_field (cur : chars) :
  Forall (fun c => sep c = false) cur -> Forall (field sep) (flush cur).
Proof.
  intros H. destruct cur; constructor; [| constructor]. split; [discriminate | exact H].
Qed.

Lemma fields_are_fields (s : chars) :
  forall cur, Forall (fun c => sep c = false) cur -> Forall (field sep) (fields sep cur s).
Proof.
  induction s as [| c s IH]; intros cur Hcur; cbn [fields].
  - apply flush_field, Hcur.
  - destruct (sep c) eqn:Hc.
    + apply Forall_app. split; [apply flush_field, Hcur | apply IH; constructor].
    + apply IH, Forall_app. split; [exact Hcur | repeat constructor; exact Hc].
Qed.

Lemma fields_of_field (f : chars) :
  Forall (fun c => sep c = false) f -> forall cur, fields sep cur f = flush (cur ++ f).
Proof.
  intros H cur. rewrite <- (app_nil_r f) at 1.
  rewrite fields_app_field by exact H. reflexivity.
Qed.

End Fields.

(** *** Whitespace *)

Lemma split_join (ws : list chars) :
  Forall (field is_space) ws -> split_ws (join [" "%char] ws) = ws.
Proof.
  unfold split_ws. induction 1 as [| w ws [Hne Hw] _ IH]; [reflexivity |].
  rewrite join_cons. destruct ws as [| w' ws].
  - rewrite app_nil_r, fields_of_field by exact Hw. destruct w; [contradiction | reflexivity].
  - rewrite (fields_sep is_space " "%char) by reflexivity.
    rewrite IH, fields_of_field by exact Hw. destruct w; [contradiction | reflexivity].
Qed.

Lemma lstrip_id (c : ascii) (s : chars) :
  is_space c = false -> lstrip (c :: s) = c :: s.
Proof. intros H. cbn. rewrite H. reflexivity. Qed.

Lemma join_ends (ws : list chars) :
  Forall (field is_space) ws ->
  join [" "%char] ws = []
  \/ (exists c s, join [" "%char] ws = c :: s /\ is_space c = false)
     /\ (exists s c, join [" "%char] ws = s ++ [c] /\ is_space c = false).
Proof.
  induction 1 as [| w ws [Hne Hw] Hws IH]; [left; reflexivity | right].
  rewrite join_cons. split.
  - destruct w as [| c w]; [contradiction |]. inversion Hw; subst.
    eexists c, _. split; [reflexivity | assumption].
  - destruct ws as [| w' ws].
    + rewrite app_nil_r. destruct (exists_last Hne) as (s & c & ->).
      exists s, c. split; [reflexivity |].
      apply Forall_app in Hw as [_ Hc]. inversion Hc; assumption.
    + destruct IH as [Hnil | [_ (s & c & Hs & Hc)]].
      * destruct w' as [| x w']; [inversion Hws as [| ? ? [Hw' _]]; contradiction |].
        rewrite join_cons in Hnil. discriminate.
      * rewrite Hs. exists (w ++ " "%char :: s), c.
        rewrite <- app_assoc. split; [reflexivity | exact Hc].
Qed.

Lemma strip_join (ws : list chars) :
  Forall (field is_space) ws -> strip (join [" "%char] ws) = join [" "%char] ws.
Proof.
  intros H. destruct (join_ends ws H) as [-> | [(c & s & Hhead & Hc) (s' & c' & Hlast & Hc')]];
    [reflexivity |].
  unfold strip. rewrite Hhead, (lstrip_id c s Hc), <- Hhead, Hlast.
  rewrite rev_unit, (lstrip_id c' _ Hc'), <- (rev_unit s' c'), rev_involutive.
  reflexivity.
Qed.

(** The whitespace clean-up of a text is its fields joined by single
    spaces, and cleaning up twice changes nothing more. *)
Lemma collapse_join (s : chars) :
  strip (join [" "%char] (split_ws s)) = join [" "%char] (split_ws s).
Proof. apply strip_join, fields_are_fields. constructor. Qed.

Lemma collapse_idempotent (s : chars) :
  split_ws (join [" "%char] (split_ws s)) = split_ws s.
Proof. apply split_join, fields_are_fields. constructor. Qed.

(** *** Span removal *)

Lemma existsb_In (cl : ascii) (s : chars) :
  existsb (fun d => bool_decide (d = cl)) s = true <-> In cl s.
Proof.
  rewrite existsb_exists. split.
  - intros (x & Hin & Hx%bool_decide_eq_true). congruence.
  - intros Hin. exists cl. split; [exact Hin | apply bool_decide_eq_true; reflexivity].
Qed.

Lemma sub_delimited_in (op cl x : ascii) (s : chars) :
  forall inside, In x (sub_delimited op cl inside s) -> In x s.
Proof.
  induction s as [| c s IH]; intros inside; cbn; [auto |].
  destruct inside; [eauto |].
  destruct (_ && _); [eauto |]. cbn. intros [Heq | Hin]; eauto.
Qed.

(** What a span removal returns holds no span. *)
Lemma sub_delimited_span_free (op cl : ascii) (s : chars) :
  forall inside, span_free op cl (sub_delimited op cl inside s).
Proof.
  induction s as [| c s IH]; intros inside; cbn; [exact I |].
  destruct inside; [apply IH |].
  destruct (bool_decide (c = op)) eqn:Hop; cbn [andb].
  - destruct (existsb _ s) eqn:Hcl; [apply IH |].
    cbn. split; [| apply IH].
    intros _ Hin%sub_delimited_in. apply existsb_In in Hin. congruence.
  - cbn. split; [| apply IH].
    intros Heq. apply bool_decide_eq_false in Hop. contradiction.
Qed.

(** A text that holds no span is left as it is. *)
Lemma sub_delimited_id (op cl : ascii) (s : chars) :
  span_free op cl s -> sub_delimited op cl false s = s.
Proof.
  induction s as [| c s IH]; cbn; [reflexivity |].
  intros [Hhead Hrest].
  destruct (bool_decide (c = op)) eqn:Hop; cbn [andb]; [| rewrite IH; auto].
  apply bool_decide_eq_true in Hop.
  destruct (existsb _ s) eqn:Hcl; [| rewrite IH; auto].
  apply existsb_In in Hcl. exfalso. exact (Hhead Hop Hcl).
Qed.

(** *** Noise words that hold a character outside every word *)

Lemma is_prefix_ci_in (x : ascii) (w : chars) :
  (forall c, lower_char c = lower_char x -> c = x) ->
  In x w ->
  forall s, is_prefix_ci w s = true -> In x s.
Proof.
  intros Hx. induction w as [| a w IH]; intros Hin s; [contradiction |].
  destruct s as [| b s]; cbn; [discriminate |].
  intros [Hab Hrest]%andb_prop. destruct Hin as [-> | Hin].
  - left. apply bool_decide_eq_true in Hab. apply Hx. congruence.
  - right. apply IH; assumption.
Qed.

(** A noise word with such a character is not found in a text without
    it: the removal leaves the text as it is. *)
Lemma sub_word_absent (x : ascii) (w : chars) :
  (forall c, lower_char c = lower_char x -> c = x) ->
  In x w ->
  forall s prev, ~ In x s -> sub_word w 0 prev s = s.
Proof.
  intros Hx Hw. induction s as [| c s IH]; intros prev Hs; [reflexivity |].
  cbn [sub_word].
  assert (matches_at w prev (c :: s) = false) as ->.
  { unfold matches_at. destruct (is_prefix_ci w (c :: s)) eqn:Hp.
    - exfalso. apply Hs. eapply is_prefix_ci_in; eauto.
    - rewrite andb_false_r. reflexivity. }
  rewrite IH; [reflexivity |]. intros Hin. apply Hs. right. exact Hin.
Qed.

(** *** Noise words made of word characters *)

Section PureWord.

Variable w : chars.
Hypothesis w_not_empty : w <> [].
Hypothesis w_word : Forall (fun c => is_word c = true) w.

Lemma is_prefix_ci_nonword (s : chars) :
  word_opt (head s) = false -> is_prefix_ci w s = false.
Proof.
  destruct w as [| a w']; [contradiction |]. inversion w_word; subst.
  destruct s as [| c s]; cbn; [reflexivity |]. intros Hc.
  destruct (eq_ci a c) eqn:Hac; [| reflexivity].
  apply eq_ci_word in Hac. congruence.
Qed.

Lemma matches_at_nonword (prev : option ascii) (s : chars) :
  word_opt (head s) = false -> matches_at w prev s = false.
Proof.
  intros H. unfold matches_at. rewrite (is_prefix_ci_nonword s H).
  rewrite andb_false_r. reflexivity.
Qed.

(** Before a character that is not a word character the scan does not
    depend on what it has just read. *)
Lemma sub_word_nonword (prev : option ascii) (s : chars) :
  word_opt (head s) = false -> sub_word w 0 prev s = sub_word w 0 None s.
Proof.
  intros H. destruct s as [| c s]; [reflexivity |]. cbn [sub_word].
  rewrite !matches_at_nonword by exact H. reflexivity.
Qed.

Lemma sub_word_skip (a b : chars) :
  forall prev,
    sub_word w (length a) prev (a ++ b)
    = sub_word w 0 (match last a with Some c => Some c | None => prev end) b.
Proof.
  induction a as [| c a IH]; intros prev; [destruct b; reflexivity |].
  cbn [length app sub_word]. rewrite IH. destruct a as [| x a]; [reflexivity |].
  change (last (c :: x :: a)) with (last (x :: a)).
  destruct (last (x :: a)) eqn:Hlast; [reflexivity |].
  apply last_None in Hlast. discriminate.
Qed.

(** Inside a run of word characters there is no word boundary. *)
Lemma sub_word_inside (r rest : chars) :
  Forall (fun c => is_word c = true) r ->
  forall p, is_word p = true ->
    exists p', sub_word w 0 (Some p) (r ++ rest) = r ++ sub_word w 0 (Some p') rest.
Proof.
  induction 1 as [| c r Hc _ IH]; intros p Hp; [exists p; reflexivity |].
  cbn [app sub_word].
  assert (matches_at w (Some p) (c :: r ++ rest) = false) as ->.
  { unfold matches_at, boundary. cbn. rewrite Hp, Hc. reflexivity. }
  destruct (IH c Hc) as (p' & ->). exists p'. reflexivity.
Qed.

Lemma same_word_cons (a c : ascii) (w' r : chars) :
  same_word (a :: w') (c :: r) = eq_ci a c && same_word w' r.
Proof.
  unfold same_word, eq_ci, lower. cbn [map]. rewrite <- bool_decide_and.
  apply bool_decide_ext. split.
  - intros [= H1 H2]. split; congruence.
  - intros [H1 H2]. congruence.
Qed.

End PureWord.

Lemma same_word_nil_l (r : chars) : same_word [] r = match r with [] => true | _ => false end.
Proof. destruct r; reflexivity. Qed.

Lemma same_word_nil_r (w : chars) : same_word w [] = match w with [] => true | _ => false end.
Proof. destruct w; reflexivity. Qed.

Lemma same_word_length (w r : chars) : same_word w r = true -> length w = length r.
Proof.
  unfold same_word, lower. intros H%bool_decide_eq_true.
  apply (f_equal (@length ascii)) in H. rewrite !length_map in H. congruence.
Qed.

(** At the head of a maximal run of word characters, [\b w \b] matches
    exactly when the run is [w] up to letter case. *)
Lemma run_match (w : chars) :
  w <> [] -> Forall (fun c => is_word c = true) w ->
  forall r rest,
    r <> [] -> Forall (fun c => is_word c = true) r ->
    word_opt (head rest) = false ->
    is_prefix_ci w (r ++ rest)
    && boundary (last (take (length w) (r ++ rest)))
                (head (drop (length w) (r ++ rest)))
    = same_word w r.
Proof.
  induction w as [| a w IH]; [contradiction |].
  intros _ Hw r rest Hr Hrw Hrest.
  destruct r as [| c r]; [contradiction |].
  inversion Hw as [| ? ? Ha Hw']; inversion Hrw as [| ? ? Hc Hr']; subst.
  rewrite same_word_cons. cbn [app is_prefix_ci length firstn skipn].
  destruct w as [| a' w'].
  - rewrite same_word_nil_l, take_0, drop_0. cbn [is_prefix_ci last].
    unfold boundary. cbn [word_opt]. rewrite Hc, andb_true_r.
    destruct r as [| c' r]; cbn [app head].
    + rewrite Hrest. reflexivity.
    + inversion Hr'; subst. cbn [word_opt].
      match goal with H : is_word c' = true |- _ => rewrite H end.
      reflexivity.
  - destruct r as [| c' r'].
    + rewrite same_word_nil_r. cbn [app].
      rewrite (is_prefix_ci_nonword (a' :: w')) by (assumption || discriminate).
      rewrite !andb_false_r. reflexivity.
    + rewrite <- (IH ltac:(discriminate) Hw' (c' :: r') rest ltac:(discriminate) Hr' Hrest).
      cbn [app length firstn skipn]. rewrite last_cons_cons, andb_assoc. reflexivity.
Qed.

Lemma keep_nil (p : chars -> bool) : keep p [] = [].
Proof. unfold keep. destruct (p []); reflexivity. Qed.

Lemma del_runs_app_run (p : chars -> bool) (r s : chars) :
  Forall (fun c => is_word c = true) r ->
  forall cur, del_runs p cur (r ++ s) = del_runs p (cur ++ r) s.
Proof.
  induction 1 as [| c r Hc _ IH]; intros cur; cbn [app del_runs].
  - rewrite app_nil_r. reflexivity.
  - rewrite Hc, IH, <- app_assoc. reflexivity.
Qed.

Lemma del_runs_nonword (p : chars -> bool) (cur s : chars) :
  word_opt (head s) = false ->
  del_runs p cur s = keep p cur ++ del_runs p [] s.
Proof.
  destruct s as [| c s]; cbn; intros H.
  - rewrite keep_nil, app_nil_r. reflexivity.
  - rewrite H, keep_nil. reflexivity.
Qed.

(** A text is empty, or starts with a character that is not a word
    character, or starts with a maximal run of word characters. *)
Lemma run_cases (s : chars) :
  s = []
  \/ (exists c rest, s = c :: rest /\ is_word c = false)
  \/ (exists r rest,
        s = r ++ rest /\ r <> [] /\ Forall (fun c => is_word c = true) r
        /\ word_opt (head rest) = false).
Proof.
  induction s as [| c s IH]; [left; reflexivity | right].
  destruct (is_word c) eqn:Hc; [right | left; eauto].
  destruct IH as [-> | [(c' & rest & -> & Hc') | (r & rest & -> & Hr & Hrw & Hrest)]].
  - exists [c], []. repeat split; [discriminate | repeat constructor; exact Hc].
  - exists [c], (c' :: rest). repeat split; [discriminate | repeat constructor; exact Hc | exact Hc'].
  - exists (c :: r), rest. repeat split; [discriminate | constructor; assumption | exact Hrest].
Qed.

Section PureWordRuns.

Variable w : chars.
Hypothesis w_not_empty : w <> [].
Hypothesis w_word : Forall (fun c => is_word c = true) w.

Lemma sub_word_prev (p1 p2 : option ascii) (s : chars) :
  word_opt p1 = word_opt p2 -> sub_word w 0 p1 s = sub_word w 0 p2 s.
Proof.
  intros H. destruct s as [| c s]; [reflexivity |]. cbn [sub_word].
  unfold matches_at, boundary. rewrite H. reflexivity.
Qed.

(** On a maximal run of word characters the removal drops the run if it
    is [w] up to letter case, and keeps it otherwise. *)
Lemma sub_word_run (prev : option ascii) (r rest : chars) :
  word_opt prev = false ->
  r <> [] -> Forall (fun c => is_word c = true) r ->
  word_opt (head rest) = false ->
  sub_word w 0 prev (r ++ rest) = keep (same_word w) r ++ sub_word w 0 None rest.
Proof.
  intros Hprev Hr Hrw Hrest.
  pose proof (run_match w w_not_empty w_word r rest Hr Hrw Hrest) as Hmatch.
  destruct r as [| c r']; [contradiction |]. inversion Hrw as [| ? ? Hc Hr']; subst.
  cbn [app sub_word]. unfold matches_at at 1.
  assert (boundary prev (head (c :: r' ++ rest)) = true) as ->.
  { unfold boundary. cbn. rewrite Hprev, Hc. reflexivity. }
  cbn [app] in Hmatch. rewrite andb_true_l, Hmatch. unfold keep.
  destruct (same_word w (c :: r')) eqn:Hsame.
  - apply same_word_length in Hsame. cbn [length] in Hsame.
    replace (length w - 1)%nat with (length r') by lia.
    rewrite (sub_word_skip w r' rest). apply sub_word_nonword; assumption.
  - destruct (sub_word_inside w r' rest Hr' c Hc) as (p' & ->).
    cbn [app]. do 2 f_equal. apply sub_word_nonword; assumption.
Qed.

(** Removing a noise word made of word characters is dropping the maximal
    runs of word characters that are that word up to letter case. *)
Lemma sub_word_del_runs (n : nat) :
  forall s prev,
    (length s <= n)%nat -> word_opt prev = false ->
    sub_word w 0 prev s = del_runs (same_word w) [] s.
Proof.
  induction n as [| n IH]; intros s prev Hn Hprev.
  - destruct s; [cbn [sub_word del_runs]; rewrite keep_nil; reflexivity | cbn in Hn; lia].
  - destruct (run_cases s)
      as [-> | [(c & rest & -> & Hc) | (r & rest & -> & Hr & Hrw & Hrest)]].
    + cbn [sub_word del_runs]. rewrite keep_nil. reflexivity.
    + cbn [sub_word del_runs]. rewrite Hc, keep_nil.
      rewrite matches_at_nonword by (assumption || (cbn; exact Hc)).
      cbn [app]. f_equal. apply IH; [cbn in Hn; lia | cbn; exact Hc].
    + rewrite sub_word_run by assumption.
      rewrite (del_runs_app_run _ r rest Hrw), del_runs_nonword by exact Hrest.
      cbn [app]. f_equal. apply IH; [| reflexivity].
      rewrite length_app in Hn. destruct r; [contradiction | cbn in Hn; lia].
Qed.

End PureWordRuns.

(** *** The words of a text *)

Lemma word_field (r : chars) :
  Forall (fun c => is_word c = true) r -> Forall (fun c => nonword c = false) r.
Proof.
  intros H. eapply Forall_impl; [exact H |]. cbn. intros c ->. reflexivity.
Qed.

Section DelRuns.

Variable p : chars -> bool.

Lemma runs_keep (cur : chars) :
  Forall (fun c => is_word c = true) cur ->
  word_runs (keep p cur) = List.filter (fun r => negb (p r)) (flush cur).
Proof.
  intros Hcur. unfold keep, word_runs. destruct (p cur) eqn:Hp.
  - destruct cur; cbn; [| rewrite Hp]; reflexivity.
  - rewrite fields_of_field by (apply word_field, Hcur).
    destruct cur; cbn; [| rewrite Hp]; reflexivity.
Qed.

(** The words of [del_runs p] are the words that do not satisfy [p]. *)
Lemma del_runs_runs (s : chars) :
  forall cur,
    Forall (fun c => is_word c = true) cur ->
    word_runs (del_runs p cur s)
    = List.filter (fun r => negb (p r)) (fields nonword cur s).
Proof.
  induction s as [| c s IH]; intros cur Hcur; cbn [del_runs fields].
  - apply runs_keep, Hcur.
  - destruct (is_word c) eqn:Hc; cbn [negb].
    + apply IH, Forall_app. split; [exact Hcur | repeat constructor; exact Hc].
    + unfold word_runs. rewrite (fields_sep nonword c) by (cbn; rewrite Hc; reflexivity).
      rewrite List.filter_app. f_equal; [apply runs_keep, Hcur | apply IH; constructor].
Qed.

(** A text without a word that satisfies [p] is left as it is. *)
Lemma del_runs_id (s : chars) :
  forall cur,
    Forall (fun r => p r = false) (fields nonword cur s) ->
    del_runs p cur s = cur ++ s.
Proof.
  assert (Hkeep : forall cur, Forall (fun r => p r = false) (flush cur) -> keep p cur = cur).
  { intros [| x cur] H; [apply keep_nil |]. inversion H as [| ? ? Hp _]; subst.
    unfold keep. rewrite Hp. reflexivity. }
  induction s as [| c s IH]; intros cur H; cbn [del_runs fields] in *.
  - rewrite app_nil_r. apply Hkeep, H.
  - destruct (is_word c); cbn [negb] in H.
    + rewrite IH by exact H. rewrite <- app_assoc. reflexivity.
    + apply Forall_app in H as [Hcur Hrest].
      rewrite (Hkeep cur Hcur), (IH [] Hrest). reflexivity.
Qed.

End DelRuns.

(** The whitespace clean-up keeps the words. *)
Lemma collapse_runs (s : chars) :
  forall cur,
    word_runs (join [" "%char] (fields is_space cur s)) = word_runs (cur ++ s).
Proof.
  unfold word_runs. induction s as [| c s IH]; intros cur; cbn [fields].
  - rewrite <- (app_nil_r (flush cur)), join_flush, !app_nil_r.
    destruct cur; reflexivity.
  - destruct (is_space c) eqn:Hc.
    + assert (Hsep : nonword c = true) by (cbn; rewrite (space_not_word c Hc); reflexivity).
      rewrite join_flush, (fields_sep nonword c) by exact Hsep.
      specialize (IH []). cbn [app] in IH.
      destruct cur as [| x cur]; [exact IH |].
      destruct (fields is_space [] s) as [| f fs].
      * cbn in IH. rewrite <- IH, app_nil_r. reflexivity.
      * rewrite (fields_sep nonword " "%char) by reflexivity. rewrite IH. reflexivity.
    + rewrite IH, <- app_assoc. reflexivity.
Qed.

(** *** The normaliser on character lists *)

Lemma pure_featuring : featuring <> [] /\ Forall (fun c => is_word c = true) featuring.
Proof. split; [discriminate | repeat constructor]. Qed.

Lemma pure_with : with_ <> [] /\ Forall (fun c => is_word c = true) with_.
Proof. split; [discriminate | repeat constructor]. Qed.

Lemma pure_vs : vs <> [] /\ Forall (fun c => is_word c = true) vs.
Proof. split; [discriminate | repeat constructor]. Qed.

Lemma normalize_join (s : chars) :
  normalize noise s
  = join [" "%char]
      (split_ws (remove_noise
         (sub_delimited "[" "]" false (sub_delimited "(" ")" false s)))).
Proof. unfold normalize. apply collapse_join. Qed.

Lemma normalize_thinned (s : chars) :
  thinned (normalize noise s) (sub_delimited "[" "]" false (sub_delimited "(" ")" false s))
  /\ thinned (normalize noise s) (sub_delimited "(" ")" false s)
  /\ thinned (normalize noise s) s.
Proof.
  rewrite normalize_join.
  set (s1 := sub_delimited "(" ")" false s). set (s2 := sub_delimited "[" "]" false s1).
  assert (H2 : thinned (join [" "%char] (split_ws (remove_noise s2))) s2).
  { eapply thinned_trans; [apply noise_thinned | apply (collapse_thinned _ [])]. }
  assert (H1 : thinned (join [" "%char] (split_ws (remove_noise s2))) s1).
  { eapply thinned_trans; [apply sub_delimited_thinned | exact H2]. }
  repeat split; [exact H2 | exact H1 |].
  eapply thinned_trans; [apply sub_delimited_thinned | exact H1].
Qed.

End TextFacts.

(** ** The normaliser on tokens *)

Module TokenFacts.
Import Char Text NoiseNotations TextFacts.

(** *** Tokens *)

Lemma flatten_app (a b : list token) : flatten (a ++ b) = flatten a ++ flatten b.
Proof. apply flat_map_app. Qed.

Lemma flatten_push (cur : chars) : flatten (push cur) = cur.
Proof. destruct cur; cbn; [| rewrite app_nil_r]; reflexivity. Qed.

Lemma flatten_tokens (s : chars) : forall cur, flatten (tokens cur s) = cur ++ s.
Proof.
  induction s as [| c s IH]; intros cur; cbn [tokens].
  - rewrite flatten_push, app_nil_r. reflexivity.
  - destruct (is_word c).
    + rewrite IH, <- app_assoc. reflexivity.
    + rewrite flatten_app, flatten_push. cbn. rewrite IH. reflexivity.
Qed.

Lemma well_formed_push (cur : chars) (ts : list token) :
  Forall (fun c => is_word c = true) cur ->
  starts_with_word ts = false -> well_formed ts -> well_formed (push cur ++ ts).
Proof.
  intros Hcur Hts Hwf. destruct cur as [| c cur]; [exact Hwf |].
  cbn. repeat split; [discriminate | exact Hcur | exact Hts | exact Hwf].
Qed.

Lemma tokens_well_formed (s : chars) :
  forall cur, Forall (fun c => is_word c = true) cur -> well_formed (tokens cur s).
Proof.
  induction s as [| c s IH]; intros cur Hcur; cbn [tokens].
  - rewrite <- (app_nil_r (push cur)). apply well_formed_push; [exact Hcur | reflexivity | exact I].
  - destruct (is_word c) eqn:Hc.
    + apply IH, Forall_app. split; [exact Hcur | repeat constructor; exact Hc].
    + apply well_formed_push; [exact Hcur | reflexivity |].
      split; [exact Hc | apply IH; constructor].
Qed.

Lemma well_formed_tail (t : token) (ts : list token) :
  well_formed (t :: ts) -> well_formed ts.
Proof. destruct t; cbn; tauto. Qed.

Lemma well_formed_app (a b : list token) :
  well_formed (a ++ b) -> well_formed a /\ well_formed b.
Proof.
  induction a as [| t a IH]; [cbn; tauto |].
  destruct t as [r | c]; cbn [app well_formed].
  - intros (Hr & Hw & Hnext & Hrest). destruct (IH Hrest) as [Ha Hb].
    repeat split; auto. destruct a as [| [] a]; [reflexivity | discriminate | reflexivity].
  - intros (Hc & Hrest). destruct (IH Hrest) as [Ha Hb]. repeat split; auto.
Qed.

(** The text of well-formed tokens starts with a word character exactly
    when the first token is a run. *)
Lemma flatten_head (ts : list token) :
  well_formed ts -> word_opt (head (flatten ts)) = starts_with_word ts.
Proof.
  destruct ts as [| [r | c] ts]; cbn; [reflexivity | |].
  - intros (Hr & Hw & _). destruct r as [| x r]; [contradiction |].
    inversion Hw; subst. cbn. assumption.
  - intros [Hc _]. exact Hc.
Qed.

Lemma fields_nonword_head (cur s : chars) :
  word_opt (head s) = false ->
  fields nonword cur s = flush cur ++ fields nonword [] s.
Proof.
  destruct s as [| c s]; cbn; intros H; [rewrite app_nil_r; reflexivity |].
  rewrite H. reflexivity.
Qed.

(** The words of the text of well-formed tokens are its runs. *)
Lemma word_runs_flatten (ts : list token) :
  well_formed ts -> word_runs (flatten ts) = runs ts.
Proof.
  unfold word_runs. induction ts as [| [r | c] ts IH]; [reflexivity | |].
  - intros (Hr & Hw & Hnext & Hwf). change (flatten (Word r :: ts)) with (r ++ flatten ts).
    rewrite fields_app_field by (apply word_field, Hw). cbn [app].
    rewrite fields_nonword_head by (rewrite (flatten_head ts Hwf); exact Hnext).
    rewrite IH by exact Hwf.
    destruct r; [contradiction | reflexivity].
  - intros (Hc & Hwf). change (flatten (Other c :: ts)) with (c :: flatten ts).
    cbn [fields]. rewrite Hc. cbn [negb flush app]. apply IH, Hwf.
Qed.

(** Dropping the runs that satisfy [p], on the text and on its tokens. *)
Lemma del_runs_flatten (p : chars -> bool) (ts : list token) :
  well_formed ts -> del_runs p [] (flatten ts) = flatten (drop_word p ts).
Proof.
  induction ts as [| [r | c] ts IH]; [intros _; cbn; apply keep_nil | |].
  - intros (Hr & Hw & Hnext & Hwf). change (flatten (Word r :: ts)) with (r ++ flatten ts).
    rewrite (del_runs_app_run p r _ Hw). cbn [app].
    rewrite del_runs_nonword by (rewrite (flatten_head ts Hwf); exact Hnext).
    rewrite IH by exact Hwf.
    unfold drop_word, keep. cbn [List.filter]. destruct (p r); reflexivity.
  - intros (Hc & Hwf). change (flatten (Other c :: ts)) with (c :: flatten ts).
    cbn [del_runs]. rewrite Hc, keep_nil.
    rewrite IH by exact Hwf. reflexivity.
Qed.

(** *** Noise words that end in ['.'] *)

Lemma eq_ci_dot (d : ascii) : eq_ci "."%char d = bool_decide (d = "."%char).
Proof. each_char d. Qed.

Section HeadWord.

Variable w : chars.
Hypothesis w_head : word_opt (head w) = true.

Lemma is_prefix_ci_head (s : chars) :
  word_opt (head s) = false -> is_prefix_ci w s = false.
Proof.
  destruct w as [| a w']; [discriminate |]. cbn in w_head.
  destruct s as [| c s]; cbn; [reflexivity |]. intros Hc.
  destruct (eq_ci a c) eqn:Hac; [| reflexivity].
  apply eq_ci_word in Hac. congruence.
Qed.

Lemma matches_at_head (prev : option ascii) (s : chars) :
  word_opt (head s) = false -> matches_at w prev s = false.
Proof.
  intros H. unfold matches_at. rewrite (is_prefix_ci_head s H).
  rewrite andb_false_r. reflexivity.
Qed.

Lemma sub_word_head (prev : option ascii) (s : chars) :
  word_opt (head s) = false -> sub_word w 0 prev s = sub_word w 0 None s.
Proof.
  intros H. destruct s as [| c s]; [reflexivity |]. cbn [sub_word].
  rewrite !matches_at_head by exact H. reflexivity.
Qed.

End HeadWord.

Section Dotted.

Variable w : chars.
Hypothesis w_not_empty : w <> [].
Hypothesis w_word : Forall (fun c => is_word c = true) w.

Let dotted := w ++ ["."%char].

Lemma dotted_head : word_opt (head dotted) = true.
Proof.
  unfold dotted. destruct w as [| a w']; [contradiction |].
  inversion w_word; subst. cbn. assumption.
Qed.

Lemma dotted_length : length dotted = S (length w).
Proof. unfold dotted. rewrite length_app. cbn. lia. Qed.

End Dotted.

(** A noise word [w] followed by ['.'] is found at the head of a run
    exactly when the run is [w] up to letter case and ['.'] follows. *)
Lemma dotted_prefix (w : chars) :
  Forall (fun c => is_word c = true) w ->
  forall r tail,
    Forall (fun c => is_word c = true) r ->
    word_opt (head tail) = false ->
    is_prefix_ci (w ++ ["."%char]) (r ++ tail)
    = same_word w r && bool_decide (head tail = Some "."%char).
Proof.
  induction 1 as [| a w Ha Hw IH]; intros r tail Hr Htail.
  - rewrite same_word_nil_l. destruct r as [| c r]; cbn [app is_prefix_ci].
    + destruct tail as [| d tail]; cbn; [reflexivity |].
      rewrite eq_ci_dot, andb_true_r. apply bool_decide_ext.
      split; [intros ->; reflexivity | intros [= ->]; reflexivity].
    + inversion Hr; subst. destruct (eq_ci "."%char c) eqn:Hc; [| reflexivity].
      apply eq_ci_word in Hc. change (is_word "."%char) with false in Hc. congruence.
  - destruct r as [| c r]; cbn [app].
    + rewrite same_word_nil_r. cbn [andb].
      apply (is_prefix_ci_head (a :: w ++ ["."%char])); [cbn; exact Ha | exact Htail].
    + inversion Hr; subst. cbn [is_prefix_ci]. rewrite same_word_cons, <- andb_assoc.
      f_equal. apply IH; assumption.
Qed.

(** Where [\b w \. \b] matches at the head of a run. *)
Lemma dotted_match (w : chars) (prev : option ascii) (r tail : chars) :
  w <> [] -> Forall (fun c => is_word c = true) w ->
  r <> [] -> Forall (fun c => is_word c = true) r ->
  word_opt prev = false -> word_opt (head tail) = false ->
  matches_at (w ++ ["."%char]) prev (r ++ tail)
  = same_word w r && bool_decide (head tail = Some "."%char)
    && word_opt (head (List.tl tail)).
Proof.
  intros Hne Hw Hr Hrw Hprev Htail. unfold matches_at.
  assert (boundary prev (head (r ++ tail)) = true) as ->.
  { destruct r as [| c r]; [contradiction |]. inversion Hrw; subst.
    unfold boundary. cbn. rewrite Hprev. cbn. assumption. }
  rewrite (dotted_prefix w Hw r tail Hrw Htail). cbn [andb].
  destruct (same_word w r) eqn:Hsame; [| reflexivity].
  destruct (bool_decide (head tail = Some "."%char)) eqn:Hdot; [| reflexivity].
  cbn [andb]. apply bool_decide_eq_true in Hdot.
  destruct tail as [| d tail]; [discriminate |]. injection Hdot as ->.
  apply same_word_length in Hsame.
  rewrite length_app. cbn [length]. rewrite Hsame.
  replace (length r + 1)%nat with (length (r ++ ["."%char])) by (rewrite length_app; cbn; lia).
  change (r ++ "."%char :: tail) with (r ++ ["."%char] ++ tail). rewrite app_assoc.
  rewrite take_app_length, drop_app_length, last_snoc. reflexivity.
Qed.

Lemma drop_dotted_skip (p : chars -> bool) (t : token) (ts : list token) :
  drop_dotted p true (t :: ts) = drop_dotted p false ts.
Proof. reflexivity. Qed.

Lemma drop_dotted_other (p : chars -> bool) (c : ascii) (ts : list token) :
  drop_dotted p false (Other c :: ts) = Other c :: drop_dotted p false ts.
Proof. reflexivity. Qed.

Lemma drop_dotted_word (p : chars -> bool) (r : chars) (ts : list token) :
  drop_dotted p false (Word r :: ts)
  = if dotted_at p (Word r :: ts) then drop_dotted p false (List.tl ts)
    else Word r :: drop_dotted p false ts.
Proof.
  cbn [drop_dotted]. destruct (dotted_at p (Word r :: ts)) eqn:Hat; [| reflexivity].
  destruct ts as [| t ts]; [discriminate | reflexivity].
Qed.

Section DottedRemoval.

Variable w : chars.
Hypothesis w_not_empty : w <> [].
Hypothesis w_word : Forall (fun c => is_word c = true) w.

(** Removing a noise word that ends in ['.'] is dropping, on the tokens,
    the runs that are that word up to letter case together with the ['.']
    after them, where a run follows. *)
Lemma sub_word_dotted (n : nat) :
  forall ts prev,
    (length ts <= n)%nat -> well_formed ts -> word_opt prev = false ->
    sub_word (w ++ ["."%char]) 0 prev (flatten ts)
    = flatten (drop_dotted (same_word w) false ts).
Proof.
  pose proof (dotted_head w w_not_empty w_word) as Hhead.
  induction n as [| n IH]; intros ts prev Hn Hwf Hprev.
  { destruct ts; [reflexivity | cbn in Hn; lia]. }
  destruct ts as [| [r | c] rest]; [reflexivity | |].
  - destruct Hwf as (Hr & Hrw & Hnext & Hrest).
    change (flatten (Word r :: rest)) with (r ++ flatten rest).
    assert (Htail : word_opt (head (flatten rest)) = false)
      by (rewrite (flatten_head rest Hrest); exact Hnext).
    pose proof (dotted_match w prev r (flatten rest) w_not_empty w_word Hr Hrw Hprev Htail)
      as Hmatch.
    rewrite drop_dotted_word.
    assert (Hat : matches_at (w ++ ["."%char]) prev (r ++ flatten rest)
                  = dotted_at (same_word w) (Word r :: rest)).
    { rewrite Hmatch. destruct rest as [| [r1 | d] rest1]; cbn [marked_at].
      - cbn. rewrite andb_false_r. reflexivity.
      - discriminate.
      - change (flatten (Other d :: rest1)) with (d :: flatten rest1). cbn [head List.tl].
        rewrite (flatten_head rest1 (well_formed_tail _ _ Hrest)).
        do 2 f_equal. apply bool_decide_ext.
        split; [intros [= ->]; reflexivity | intros ->; reflexivity]. }
    destruct r as [| c0 r']; [contradiction |]. inversion Hrw as [| ? ? Hc0 Hr']; subst.
    cbn [app sub_word]. cbn [app] in Hat. rewrite Hat.
    destruct (dotted_at (same_word w) (Word (c0 :: r') :: rest)) eqn:Hdot.
    + destruct rest as [| [r1 | d] rest1]; [discriminate | discriminate |].
      cbn [marked_at] in Hdot.
      apply andb_prop in Hdot as [Hdot _]. apply andb_prop in Hdot as [Hsame _].
      apply same_word_length in Hsame. cbn [length] in Hsame.
      rewrite length_app. cbn [length List.tl].
      replace (length w + 1 - 1)%nat with (length (r' ++ [d]))
        by (rewrite length_app; cbn; lia).
      change (flatten (Other d :: rest1)) with ([d] ++ flatten rest1).
      rewrite app_assoc, (sub_word_skip (w ++ ["."%char]) (r' ++ [d]) (flatten rest1)).
      rewrite last_snoc. destruct Hrest as [Hd Hrest1].
      apply IH; [cbn in Hn; lia | exact Hrest1 | exact Hd].
    + destruct (sub_word_inside (w ++ ["."%char]) r' (flatten rest) Hr' c0 Hc0) as (p' & ->).
      rewrite (sub_word_head _ Hhead (Some p') _ Htail).
      rewrite (IH rest None); [reflexivity | cbn in Hn; lia | exact Hrest | reflexivity].
  - destruct Hwf as (Hc & Hrest).
    change (flatten (Other c :: rest)) with (c :: flatten rest).
    cbn [sub_word]. rewrite (matches_at_head _ Hhead) by exact Hc.
    rewrite drop_dotted_other.
    change (flatten (Other c :: drop_dotted (same_word w) false rest))
      with (c :: flatten (drop_dotted (same_word w) false rest)).
    f_equal. apply IH; [cbn in Hn; lia | exact Hrest | exact Hc].
Qed.

End DottedRemoval.

(** *** Dropping tokens *)

Lemma pruned_head (u v : list token) :
  pruned u v -> starts_with_word u = true -> starts_with_word v = true.
Proof. destruct 1; cbn; auto. Qed.

Lemma pruned_other (u v : list token) :
  pruned u v -> starts_with_word v = false ->
  match u with
  | [] => v = []
  | t :: u' => exists v', v = t :: v' /\ pruned u' v'
  end.
Proof.
  destruct 1 as [| t u v H | r u v H | r d u v Hv H]; cbn; intros Hhead;
    [reflexivity | eauto | discriminate | discriminate].
Qed.

Lemma pruned_well_formed (u v : list token) :
  pruned u v -> well_formed v -> well_formed u.
Proof.
  induction 1 as [| t u v H IH | r u v H IH | r d u v Hv H IH]; intros Hwf.
  - exact I.
  - destruct t as [r | c]; cbn in Hwf |- *.
    + destruct Hwf as (Hr & Hw & Hnext & Hrest). repeat split; auto.
      destruct (starts_with_word u) eqn:Hu; [| reflexivity].
      rewrite <- Hnext. symmetry. apply (pruned_head u v H Hu).
    + destruct Hwf as (Hc & Hrest). split; auto.
  - apply IH. cbn in Hwf. tauto.
  - apply IH. cbn in Hwf. tauto.
Qed.

Lemma pruned_word_free (q : chars -> bool) (u v : list token) :
  pruned u v -> word_free q v -> word_free q u.
Proof.
  unfold word_free.
  induction 1 as [| t u v H IH | r u v H IH | r d u v Hv H IH]; intros Hfree.
  - constructor.
  - apply Forall_cons in Hfree as [Ht Hrest]. constructor; auto.
  - apply Forall_cons in Hfree as [_ Hrest]. auto.
  - apply Forall_cons in Hfree as [_ Hrest]. apply Forall_cons in Hrest as [_ Hrest]. auto.
Qed.

(** Dropping tokens in these ways puts no match of [\b w \. \b]
    together. *)
Lemma pruned_mark_free (p : chars -> bool) (x : ascii) (u v : list token) :
  pruned u v -> well_formed v -> mark_free p x v -> mark_free p x u.
Proof.
  induction 1 as [| t u v H IH | r u v H IH | r d u v Hv H IH]; intros Hwf Hfree.
  - exact I.
  - destruct Hfree as [Hat Hfree]. pose proof (well_formed_tail _ _ Hwf) as Hwf'.
    split; [| apply IH; assumption].
    destruct (marked_at p x (t :: u)) eqn:Hu; [| reflexivity]. exfalso.
    destruct t as [a | c]; [| discriminate].
    destruct u as [| [b | d] u'']; [discriminate | discriminate |].
    cbn [marked_at] in Hu. destruct Hwf as (_ & _ & Hnext & _).
    destruct (pruned_other _ _ H Hnext) as (v'' & -> & H'').
    apply andb_prop in Hu as [Hu Hword].
    cbn [marked_at] in Hat.
    rewrite Hu, (pruned_head _ _ H'' Hword) in Hat. discriminate.
  - apply IH; [exact (well_formed_tail _ _ Hwf) | apply Hfree].
  - apply IH; [exact (well_formed_tail _ _ (well_formed_tail _ _ Hwf)) | apply Hfree].
Qed.

Lemma drop_word_pruned (p : chars -> bool) (ts : list token) :
  pruned (drop_word p ts) ts.
Proof.
  unfold drop_word. induction ts as [| [r | c] ts IH]; cbn [List.filter].
  - constructor.
  - destruct (p r); cbn [negb]; constructor; exact IH.
  - constructor. exact IH.
Qed.

Lemma drop_dotted_pruned (p : chars -> bool) (n : nat) :
  forall ts, (length ts <= n)%nat -> pruned (drop_dotted p false ts) ts.
Proof.
  induction n as [| n IH]; intros ts Hn.
  { destruct ts; [constructor | cbn in Hn; lia]. }
  destruct ts as [| [r | c] rest]; [constructor | |].
  - rewrite drop_dotted_word. destruct (dotted_at p (Word r :: rest)) eqn:Hat.
    + destruct rest as [| [r1 | d] rest1]; [discriminate | discriminate |].
      cbn [marked_at] in Hat. apply andb_prop in Hat as [_ Hword].
      cbn [List.tl]. apply pruned_pair; [exact Hword |]. apply IH. cbn in Hn. lia.
    + apply pruned_keep, IH. cbn in Hn. lia.
  - rewrite drop_dotted_other. apply pruned_keep, IH. cbn in Hn. lia.
Qed.

(** What the removal of [\b w \. \b] returns holds no match. *)
Lemma drop_dotted_free (p : chars -> bool) (n : nat) :
  forall ts,
    (length ts <= n)%nat -> well_formed ts ->
    dotted_free p (drop_dotted p false ts).
Proof.
  induction n as [| n IH]; intros ts Hn Hwf.
  { destruct ts; [exact I | cbn in Hn; lia]. }
  destruct ts as [| [r | c] rest]; [exact I | |].
  - rewrite drop_dotted_word. destruct (dotted_at p (Word r :: rest)) eqn:Hat.
    + destruct rest as [| [r1 | d] rest1]; [discriminate | discriminate |].
      cbn [List.tl]. apply IH; [cbn in Hn; lia |].
      exact (well_formed_tail _ _ (well_formed_tail _ _ Hwf)).
    + split; [| apply IH; [cbn in Hn; lia | exact (well_formed_tail _ _ Hwf)]].
      destruct rest as [| [r1 | d] rest1]; [reflexivity | |].
      * destruct Hwf as (_ & _ & Hnext & _). discriminate.
      * rewrite drop_dotted_other. cbn [marked_at] in Hat |- *.
        destruct (starts_with_word (drop_dotted p false rest1)) eqn:Hword;
          [| rewrite andb_false_r; reflexivity].
        rewrite (pruned_head _ _ (drop_dotted_pruned p n rest1 ltac:(cbn in Hn; lia)) Hword)
          in Hat.
        exact Hat.
  - rewrite drop_dotted_other. split; [reflexivity |].
    apply IH; [cbn in Hn; lia | exact (well_formed_tail _ _ Hwf)].
Qed.

(** Tokens without a match are left as they are. *)
Lemma drop_dotted_id (p : chars -> bool) (ts : list token) :
  dotted_free p ts -> drop_dotted p false ts = ts.
Proof.
  induction ts as [| t ts IH]; [reflexivity |]. intros [Hat Hfree].
  cbn [drop_dotted]. rewrite Hat, IH by exact Hfree. reflexivity.
Qed.

Lemma drop_word_free (p : chars -> bool) (ts : list token) :
  word_free p (drop_word p ts).
Proof.
  unfold word_free, drop_word. apply List.Forall_forall. intros t Ht.
  apply List.filter_In in Ht as [_ Ht]. destruct t as [r | c]; [| exact I].
  apply negb_true_iff, Ht.
Qed.

Lemma drop_word_id (p : chars -> bool) (ts : list token) :
  word_free p ts -> drop_word p ts = ts.
Proof.
  unfold word_free, drop_word. induction 1 as [| t ts Ht _ IH]; [reflexivity |].
  cbn [List.filter]. destruct t as [r | c]; [rewrite Ht |]; cbn [negb]; rewrite IH;
    reflexivity.
Qed.

(** *** The whitespace clean-up on tokens *)

Lemma word_not_space (c : ascii) : is_word c = true -> is_space c = false.
Proof.
  intros Hc. destruct (is_space c) eqn:Hs; [| reflexivity].
  apply space_not_word in Hs. congruence.
Qed.

Lemma well_formed_spelled (ts : list token) :
  well_formed ts -> Forall (fun t => spell t <> []) ts.
Proof.
  induction ts as [| [r | c] ts IH]; cbn; intros H; constructor; cbn; try tauto;
    try discriminate; apply IH; tauto.
Qed.

Lemma flatten_nil (ts : list token) :
  Forall (fun t => spell t <> []) ts -> flatten ts = [] -> ts = [].
Proof.
  destruct 1 as [| t ts Ht _]; [reflexivity |]. cbn. intros H.
  apply app_eq_nil in H as [H _]. contradiction.
Qed.

Lemma flush_flatten (cur : list token) :
  Forall (fun t => spell t <> []) cur ->
  flush (flatten cur) = map flatten (flush_group cur).
Proof.
  intros H. destruct cur as [| t cur]; [reflexivity |].
  cbn [flush_group map]. destruct (flatten (t :: cur)) eqn:Hf; [| reflexivity].
  apply (flatten_nil _ H) in Hf. discriminate.
Qed.

(** The fields of the text are the texts of the groups. *)
Lemma fields_flatten (ts : list token) :
  forall cur,
    well_formed ts -> Forall (fun t => spell t <> []) cur ->
    fields is_space (flatten cur) (flatten ts) = map flatten (groups cur ts).
Proof.
  induction ts as [| t ts IH]; intros cur Hwf Hcur.
  - cbn [flatten flat_map fields groups]. apply flush_flatten, Hcur.
  - pose proof (well_formed_tail _ _ Hwf) as Hwf'.
    pose proof (well_formed_spelled _ Hwf) as Hsp. apply Forall_cons in Hsp as [Ht _].
    assert (Hcur' : Forall (fun t => spell t <> []) (cur ++ [t]))
      by (apply Forall_app; split; [exact Hcur | repeat constructor; exact Ht]).
    cbn [groups]. destruct t as [r | c].
    + destruct Hwf as (_ & Hr & _). cbn [is_gap].
      change (flatten (Word r :: ts)) with (r ++ flatten ts).
      rewrite fields_app_field
        by (eapply Forall_impl; [exact Hr | apply word_not_space]).
      rewrite <- (IH (cur ++ [Word r]) Hwf' Hcur'), flatten_app. cbn.
      rewrite app_nil_r. reflexivity.
    + change (flatten (Other c :: ts)) with (c :: flatten ts). cbn [fields is_gap].
      destruct (is_space c).
      * rewrite map_app, <- (IH [] Hwf') by constructor.
        rewrite flush_flatten by exact Hcur. reflexivity.
      * rewrite <- (IH (cur ++ [Other c]) Hwf' Hcur'), flatten_app. reflexivity.
Qed.

Lemma join_flatten (gs : list (list token)) :
  join [" "%char] (map flatten gs) = flatten (join_groups gs).
Proof.
  induction gs as [| g gs IH]; [reflexivity |].
  destruct gs as [| g' gs]; [reflexivity |].
  cbn [map join join_groups] in *. rewrite IH, flatten_app. reflexivity.
Qed.

(** The whitespace clean-up, on the text and on its tokens. *)
Lemma squeeze_flatten (ts : list token) :
  well_formed ts -> join [" "%char] (split_ws (flatten ts)) = flatten (squeeze ts).
Proof.
  intros Hwf. unfold split_ws, squeeze.
  rewrite <- join_flatten, <- (fields_flatten ts [] Hwf) by constructor. reflexivity.
Qed.

Lemma join_groups_flush (cur : list token) (gs : list (list token)) :
  join_groups (flush_group cur ++ gs)
  = match cur, gs with
    | [], _ => join_groups gs
    | _, [] => cur
    | _, _ => cur ++ Other " "%char :: join_groups gs
    end.
Proof.
  destruct cur as [| t cur]; [reflexivity |].
  destruct gs as [| g gs]; reflexivity.
Qed.

(** A property of token lists that parts inherit and that joining two
    lists with a space keeps is kept by the clean-up. *)
Lemma squeeze_keeps (Q : list token -> Prop) :
  Q [] ->
  (forall a b, Q (a ++ b) -> Q a /\ Q b) ->
  (forall a b, Q a -> Q b -> Q (a ++ Other " "%char :: b)) ->
  forall ts cur, Q (cur ++ ts) -> Q (join_groups (groups cur ts)).
Proof.
  intros Hnil Hsplit Hjoin. induction ts as [| t ts IH]; intros cur H; cbn [groups].
  - rewrite app_nil_r in H. destruct cur; [exact Hnil | exact H].
  - destruct (is_gap t).
    + apply Hsplit in H as [Hcur Hrest].
      change (t :: ts) with ([t] ++ ts) in Hrest. apply Hsplit in Hrest as [_ Hrest].
      specialize (IH [] Hrest). rewrite join_groups_flush.
      destruct cur as [| x cur]; [exact IH |].
      destruct (groups [] ts); [exact Hcur | apply Hjoin; assumption].
    + apply IH. rewrite <- app_assoc. exact H.
Qed.

Lemma well_formed_join (a b : list token) :
  well_formed a -> well_formed b -> well_formed (a ++ Other " "%char :: b).
Proof.
  intros Ha Hb. induction a as [| t a IH]; [cbn; split; [reflexivity | exact Hb] |].
  destruct t as [r | c]; cbn [app well_formed] in *.
  - destruct Ha as (Hr & Hw & Hnext & Hrest). repeat split; auto.
    destruct a as [| [] a]; [reflexivity | discriminate | reflexivity].
  - destruct Ha as (Hc & Hrest). split; auto.
Qed.

Lemma marked_at_app (p : chars -> bool) (x : ascii) (a b : list token) :
  marked_at p x a = true -> marked_at p x (a ++ b) = true.
Proof.
  destruct a as [| [r | c] [| [r' | d] [| [r'' | c''] a]]]; cbn;
    rewrite ?andb_false_r; intros H; (discriminate || exact H).
Qed.

Lemma mark_free_app (p : chars -> bool) (x : ascii) (a b : list token) :
  mark_free p x (a ++ b) -> mark_free p x a /\ mark_free p x b.
Proof.
  induction a as [| t a IH]; [cbn; tauto |].
  cbn [app mark_free]. intros [Hat Hrest]. destruct (IH Hrest) as [Ha Hb].
  repeat split; auto.
  destruct (marked_at p x (t :: a)) eqn:H; [| reflexivity].
  rewrite <- Hat. symmetry. apply (marked_at_app p x (t :: a) b H).
Qed.

Lemma mark_free_join (p : chars -> bool) (x : ascii) (a b : list token) :
  x <> " "%char ->
  mark_free p x a -> mark_free p x b -> mark_free p x (a ++ Other " "%char :: b).
Proof.
  intros Hx Ha Hb.
  assert (Hspace : bool_decide (" "%char = x) = false)
    by (apply bool_decide_eq_false; congruence). induction a as [| t a IH]; [cbn; auto |].
  destruct Ha as [Hat Ha]. cbn [app mark_free]. split; [| apply IH, Ha].
  destruct t as [r | c]; [| reflexivity].
  destruct a as [| [r' | d] a]; cbn [app marked_at] in *.
  - rewrite Hspace, andb_false_r. reflexivity.
  - reflexivity.
  - destruct a as [| [r'' | c''] a]; cbn [app starts_with_word] in *;
      [rewrite andb_false_r; reflexivity | exact Hat | exact Hat].
Qed.

Lemma word_free_app (p : chars -> bool) (a b : list token) :
  word_free p (a ++ b) -> word_free p a /\ word_free p b.
Proof. apply Forall_app. Qed.

Lemma word_free_join (p : chars -> bool) (a b : list token) :
  word_free p a -> word_free p b -> word_free p (a ++ Other " "%char :: b).
Proof.
  intros Ha Hb. apply Forall_app. split; [exact Ha | constructor; [exact I | exact Hb]].
Qed.

(** *** The noise word [&] *)

Lemma sub_word_length (w s : chars) :
  forall skip prev, (length (sub_word w skip prev s) <= length s)%nat.
Proof.
  induction s as [| c s IH]; intros skip prev; cbn [sub_word]; [lia |].
  destruct skip as [| k]; [| specialize (IH k (Some c)); cbn; lia].
  destruct (matches_at w prev (c :: s)).
  - specialize (IH (length w - 1)%nat (Some c)). cbn. lia.
  - specialize (IH 0%nat (Some c)). cbn. lia.
Qed.

Lemma amp_at_word (prev : option ascii) (c : ascii) (s : chars) :
  is_word c = true -> matches_at amp prev (c :: s) = false.
Proof.
  intros Hc. unfold matches_at. cbn [is_prefix_ci].
  destruct (eq_ci "&"%char c) eqn:Heq; [| rewrite andb_false_r; reflexivity].
  apply eq_ci_word in Heq. change (is_word "&"%char) with false in Heq. congruence.
Qed.

(** [\b & \b] matches at a character that is not a word character
    exactly when it is ['&'] between two word characters. *)
Lemma amp_at_other (prev : option ascii) (c : ascii) (s : chars) :
  is_word c = false ->
  matches_at amp prev (c :: s)
  = word_opt prev && bool_decide (c = "&"%char) && word_opt (head s).
Proof.
  intros Hc. unfold matches_at, boundary. cbn [head length firstn skipn last word_opt].
  rewrite take_0, drop_0. cbn [last is_prefix_ci word_opt]. rewrite Hc, !xorb_false_r.
  rewrite andb_true_r, xorb_false_l. unfold eq_ci. do 2 f_equal.
  apply bool_decide_ext. split.
  - intros H. apply lower_char_amp. symmetry. exact H.
  - intros ->. reflexivity.
Qed.

Lemma sub_amp_run (r : chars) :
  Forall (fun c => is_word c = true) r ->
  forall prev tail,
    sub_word amp 0 prev (r ++ tail)
    = r ++ sub_word amp 0 (match last r with Some c => Some c | None => prev end) tail.
Proof.
  induction 1 as [| c r Hc _ IH]; intros prev tail; [reflexivity |].
  cbn [app sub_word]. rewrite (amp_at_word prev c _ Hc), IH. do 2 f_equal.
  destruct r as [| x r]; [reflexivity |].
  change (last (c :: x :: r)) with (last (x :: r)).
  destruct (last (x :: r)) eqn:Hlast; [reflexivity |].
  apply last_None in Hlast. discriminate.
Qed.

Lemma last_word (r : chars) :
  r <> [] -> Forall (fun c => is_word c = true) r ->
  exists c, last r = Some c /\ is_word c = true.
Proof.
  intros Hr Hw. destruct (exists_last Hr) as (r' & c & ->).
  exists c. rewrite last_snoc. split; [reflexivity |].
  apply Forall_app in Hw as [_ Hc]. inversion Hc; assumption.
Qed.

(** The removal of [&] leaves a text as it is exactly when its tokens
    have no ['&'] between two runs. *)
Lemma sub_amp_tokens (n : nat) :
  forall ts prev,
    (length ts <= n)%nat -> well_formed ts -> word_opt prev = false ->
    (sub_word amp 0 prev (flatten ts) = flatten ts <-> amp_free ts).
Proof.
  induction n as [| n IH]; intros ts prev Hn Hwf Hprev.
  { destruct ts; [cbn; tauto | cbn in Hn; lia]. }
  destruct ts as [| [r | c] rest]; [cbn; tauto | |].
  - destruct Hwf as (Hr & Hrw & Hnext & Hrest).
    change (flatten (Word r :: rest)) with (r ++ flatten rest).
    rewrite (sub_amp_run r Hrw).
    destruct (last_word r Hr Hrw) as (x & -> & Hx).
    destruct rest as [| [r1 | d] rest1]; [cbn; tauto | discriminate |].
    destruct Hrest as (Hd & Hrest1).
    change (flatten (Other d :: rest1)) with (d :: flatten rest1).
    cbn [sub_word mark_free marked_at andb].
    rewrite (amp_at_other (Some x) d _ Hd), (flatten_head rest1 Hrest1).
    cbn [word_opt]. rewrite Hx. cbn [andb].
    specialize (IH rest1 (Some d) ltac:(cbn in Hn; lia) Hrest1 Hd).
    destruct (bool_decide (d = "&"%char) && starts_with_word rest1) eqn:Hat.
    + cbn [length Nat.sub]. split; [| intros [[=] _]].
      intros H%app_inv_head. exfalso.
      pose proof (sub_word_length amp (flatten rest1) 0 (Some d)) as Hlen.
      rewrite H in Hlen. cbn in Hlen. lia.
    + split.
      * intros H%app_inv_head. injection H as H. repeat split. apply IH, H.
      * intros (_ & _ & H). apply IH in H. rewrite H. reflexivity.
  - destruct Hwf as (Hc & Hrest).
    change (flatten (Other c :: rest)) with (c :: flatten rest).
    cbn [sub_word mark_free marked_at].
    rewrite (amp_at_other prev c _ Hc), Hprev. cbn [andb].
    specialize (IH rest (Some c) ltac:(cbn in Hn; lia) Hrest Hc).
    split.
    + intros H. injection H as H. split; [reflexivity | apply IH, H].
    + intros [_ H]. apply IH in H. rewrite H. reflexivity.
Qed.

(** *** The noise words on tokens *)

Section NoiseTokensFacts.
Import NoiseTokens.

Lemma pruned_in (x : ascii) (u v : list token) :
  pruned u v -> In x (flatten u) -> In x (flatten v).
Proof.
  induction 1 as [| t u v _ IH | r u v _ IH | r d u v _ _ IH]; cbn; auto.
  - rewrite !in_app_iff. tauto.
  - rewrite in_app_iff. tauto.
  - rewrite in_app_iff. cbn. tauto.
Qed.

Lemma pure_feat : feat <> [] /\ Forall (fun c => is_word c = true) feat.
Proof. split; [discriminate | repeat constructor]. Qed.

Lemma pure_ft : ft <> [] /\ Forall (fun c => is_word c = true) ft.
Proof. split; [discriminate | repeat constructor]. Qed.

Lemma sub_dotted_tokens (w : chars) (ts : list token) :
  w <> [] /\ Forall (fun c => is_word c = true) w -> well_formed ts ->
  sub_word (w ++ ["."%char]) 0 None (flatten ts)
  = flatten (drop_dotted (same_word w) false ts)
  /\ well_formed (drop_dotted (same_word w) false ts)
  /\ pruned (drop_dotted (same_word w) false ts) ts
  /\ dotted_free (same_word w) (drop_dotted (same_word w) false ts).
Proof.
  intros [Hne Hw] Hwf.
  pose proof (drop_dotted_pruned (same_word w) (length ts) ts (le_n _)) as Hpruned.
  repeat split.
  - apply (sub_word_dotted w Hne Hw (length ts)); auto.
  - exact (pruned_well_formed _ _ Hpruned Hwf).
  - exact Hpruned.
  - apply (drop_dotted_free _ (length ts)); auto.
Qed.

Lemma sub_word_tokens (w : chars) (ts : list token) :
  w <> [] /\ Forall (fun c => is_word c = true) w -> well_formed ts ->
  sub_word w 0 None (flatten ts) = flatten (drop_word (same_word w) ts)
  /\ well_formed (drop_word (same_word w) ts)
  /\ pruned (drop_word (same_word w) ts) ts
  /\ word_free (same_word w) (drop_word (same_word w) ts).
Proof.
  intros [Hne Hw] Hwf. repeat split.
  - rewrite (sub_word_del_runs w Hne Hw (length (flatten ts))) by auto.
    apply del_runs_flatten, Hwf.
  - exact (pruned_well_formed _ _ (drop_word_pruned _ ts) Hwf).
  - apply drop_word_pruned.
  - apply drop_word_free.
Qed.

(** On tokens without ['&'] between two runs the seven removals are
    [scrub], and what they return is well-formed and clean. *)
Lemma remove_noise_scrub (ts : list token) :
  well_formed ts -> amp_free ts ->
  remove_noise (flatten ts) = flatten (scrub ts)
  /\ well_formed (scrub ts) /\ clean (scrub ts).
Proof.
  intros Hwf Hamp. cbn [noise_words map fold_left]. unfold scrub, clean.
  change (Str.chars_of "feat.") with (feat ++ ["."%char]).
  change (Str.chars_of "ft.") with (ft ++ ["."%char]).
  change (Str.chars_of "vs.") with (vs ++ ["."%char]).
  destruct (sub_dotted_tokens feat ts pure_feat Hwf) as (-> & Hwf1 & Hp1 & Hf1).
  set (ts1 := drop_dotted (same_word feat) false ts) in *.
  destruct (sub_dotted_tokens ft ts1 pure_ft Hwf1) as (-> & Hwf2 & Hp2 & Hf2).
  set (ts2 := drop_dotted (same_word ft) false ts1) in *.
  destruct (sub_word_tokens featuring ts2 pure_featuring Hwf2) as (-> & Hwf3 & Hp3 & Hf3).
  set (ts3 := drop_word (same_word featuring) ts2) in *.
  destruct (sub_word_tokens with_ ts3 pure_with Hwf3) as (-> & Hwf4 & Hp4 & Hf4).
  set (ts4 := drop_word (same_word with_) ts3) in *.
  destruct (sub_dotted_tokens vs ts4 pure_vs Hwf4) as (-> & Hwf5 & Hp5 & Hf5).
  set (ts5 := drop_dotted (same_word vs) false ts4) in *.
  destruct (sub_word_tokens vs ts5 pure_vs Hwf5) as (-> & Hwf6 & Hp6 & Hf6).
  set (ts6 := drop_word (same_word vs) ts5) in *.
  assert (Hamp6 : amp_free ts6).
  { apply (pruned_mark_free _ _ _ _ Hp6 Hwf5), (pruned_mark_free _ _ _ _ Hp5 Hwf4),
      (pruned_mark_free _ _ _ _ Hp4 Hwf3), (pruned_mark_free _ _ _ _ Hp3 Hwf2),
      (pruned_mark_free _ _ _ _ Hp2 Hwf1), (pruned_mark_free _ _ _ _ Hp1 Hwf), Hamp. }
  split; [| split; [exact Hwf6 |]].
  - apply (sub_amp_tokens (length ts6) ts6 None (le_n _) Hwf6 eq_refl), Hamp6.
  - repeat split.
    + apply (pruned_mark_free _ _ _ _ Hp6 Hwf5), (pruned_mark_free _ _ _ _ Hp5 Hwf4),
        (pruned_mark_free _ _ _ _ Hp4 Hwf3), (pruned_mark_free _ _ _ _ Hp3 Hwf2),
        (pruned_mark_free _ _ _ _ Hp2 Hwf1), Hf1.
    + apply (pruned_mark_free _ _ _ _ Hp6 Hwf5), (pruned_mark_free _ _ _ _ Hp5 Hwf4),
        (pruned_mark_free _ _ _ _ Hp4 Hwf3), (pruned_mark_free _ _ _ _ Hp3 Hwf2), Hf2.
    + apply (pruned_word_free _ _ _ Hp6), (pruned_word_free _ _ _ Hp5),
        (pruned_word_free _ _ _ Hp4), Hf3.
    + apply (pruned_word_free _ _ _ Hp6), (pruned_word_free _ _ _ Hp5), Hf4.
    + apply (pruned_mark_free _ _ _ _ Hp6 Hwf5), Hf5.
    + exact Hf6.
    + exact Hamp6.
Qed.

(** Clean tokens are left as they are. *)
Lemma scrub_id (ts : list token) : clean ts -> scrub ts = ts.
Proof.
  intros (H1 & H2 & H3 & H4 & H5 & H6 & _). unfold scrub.
  rewrite (drop_dotted_id _ ts H1), (drop_dotted_id _ ts H2), (drop_word_id _ ts H3),
    (drop_word_id _ ts H4), (drop_dotted_id _ ts H5), (drop_word_id _ ts H6).
  reflexivity.
Qed.

Lemma squeeze_clean (ts : list token) :
  well_formed ts -> clean ts -> well_formed (squeeze ts) /\ clean (squeeze ts).
Proof.
  intros Hwf (H1 & H2 & H3 & H4 & H5 & H6 & H7). unfold squeeze, clean.
  assert (Hm : forall p x, x <> " "%char -> mark_free p x ts ->
                 mark_free p x (join_groups (groups [] ts))).
  { intros p x Hx H.
    exact (squeeze_keeps (mark_free p x) I (mark_free_app p x)
             (fun a b => mark_free_join p x a b Hx) ts [] H). }
  assert (Hw : forall p, word_free p ts -> word_free p (join_groups (groups [] ts))).
  { intros p H.
    exact (squeeze_keeps (word_free p) (List.Forall_nil _) (word_free_app p)
             (word_free_join p) ts [] H). }
  split; [| repeat split; auto; apply Hm; (discriminate || assumption)].
  exact (squeeze_keeps well_formed I well_formed_app well_formed_join ts [] Hwf).
Qed.

Lemma word_free_runs (p : chars -> bool) (ts : list token) :
  word_free p ts -> Forall (fun r => p r = false) (runs ts).
Proof.
  unfold word_free, runs. induction 1 as [| [r | c] ts Ht _ IH]; cbn; auto.
Qed.

(** What the normaliser returns, for a text in which the removal of [&]
    finds nothing once the spans are gone, is the text of well-formed,
    clean tokens. *)
Lemma normalize_tokens (s : chars) :
  sub_word amp 0 None (spans_removed s) = spans_removed s ->
  exists ts, normalize noise s = flatten ts /\ well_formed ts /\ clean ts.
Proof.
  intros Hamp. rewrite normalize_join. fold (spans_removed s).
  set (s2 := spans_removed s) in *.
  pose proof (tokens_well_formed s2 [] ltac:(constructor)) as Hwf.
  pose proof (flatten_tokens s2 []) as Hflat. cbn [app] in Hflat.
  rewrite <- Hflat in Hamp |- *.
  apply (sub_amp_tokens _ _ None (le_n _) Hwf eq_refl) in Hamp.
  destruct (remove_noise_scrub _ Hwf Hamp) as (-> & Hwf' & Hclean).
  rewrite (squeeze_flatten _ Hwf').
  eexists. split; [reflexivity | apply squeeze_clean; assumption].
Qed.

(** None of the words [featuring], [with] and [vs] is left then. *)
Lemma normalize_letter_noise (s : chars) :
  sub_word amp 0 None (spans_removed s) = spans_removed s ->
  Forall (fun r => letters_noise r = false) (word_runs (normalize noise s)).
Proof.
  intros Hamp. destruct (normalize_tokens s Hamp) as (ts & -> & Hwf & Hclean).
  rewrite (word_runs_flatten ts Hwf).
  destruct Hclean as (_ & _ & H3 & H4 & _ & H6 & _).
  apply word_free_runs in H3, H4, H6.
  rewrite List.Forall_forall in *. intros r Hr.
  rewrite (H3 r Hr), (H4 r Hr), (H6 r Hr). reflexivity.
Qed.

(** The normaliser is idempotent on such a text. *)
Lemma normalize_idempotent_amp (s : chars) :
  sub_word amp 0 None (spans_removed s) = spans_removed s ->
  normalize noise (normalize noise s) = normalize noise s.
Proof.
  intros Hamp. destruct (normalize_thinned s) as (H2 & H1 & H0).
  assert (Hpar : span_free "(" ")" (normalize noise s)).
  { eapply thinned_span_free; [discriminate | discriminate | exact H1 |].
    apply sub_delimited_span_free. }
  assert (Hbr : span_free "[" "]" (normalize noise s)).
  { eapply thinned_span_free; [discriminate | discriminate | exact H2 |].
    apply sub_delimited_span_free. }
  rewrite (normalize_join (normalize noise s)).
  rewrite (sub_delimited_id _ _ _ Hpar), (sub_delimited_id _ _ _ Hbr).
  destruct (normalize_tokens s Hamp) as (ts & Hts & Hwf & Hclean).
  assert (Hfixed : remove_noise (normalize noise s) = normalize noise s).
  { rewrite Hts.
    destruct (remove_noise_scrub ts Hwf ltac:(apply Hclean)) as (-> & _).
    rewrite (scrub_id ts Hclean). reflexivity. }
  rewrite Hfixed. rewrite (normalize_join s) at 1. rewrite collapse_idempotent.
  symmetry. apply normalize_join.
Qed.

(** A text without ['&'] is such a text. *)
Lemma no_amp (s : chars) :
  ~ In "&"%char s -> sub_word amp 0 None (spans_removed s) = spans_removed s.
Proof.
  intros Hamp. apply (sub_word_absent "&"%char); [apply lower_char_amp | cbn; tauto |].
  intros H. apply Hamp. do 2 apply sub_delimited_in in H. exact H.
Qed.

End NoiseTokensFacts.

End TokenFacts.

(** *** The normaliser on strings *)

Section NormalizeFacts.
Import NoiseNotations.

Lemma chars_of_of_chars (l : list ascii) : Str.chars_of (Str.of_chars l) = l.
Proof. apply list_ascii_of_string_of_list_ascii. Qed.

Lemma of_chars_chars_of (s : string) : Str.of_chars (Str.chars_of s) = s.
Proof. apply string_of_list_ascii_of_string. Qed.

Lemma chars_of_inj (a b : string) : Str.chars_of a = Str.chars_of b -> a = b.
Proof.
  intros H. rewrite <- (of_chars_chars_of a), <- (of_chars_chars_of b), H. reflexivity.
Qed.

Lemma map_chars_of_of_chars (ls : list (list ascii)) :
  map Str.chars_of (map Str.of_chars ls) = ls.
Proof.
  induction ls as [| l ls IH]; cbn; [reflexivity |].
  rewrite chars_of_of_chars, IH. reflexivity.
Qed.

Lemma noise_fold_chars (ws : list string) :
  forall s,
    Str.chars_of (fold_left (fun text word => Str.sub_word word text) ws s)
    = fold_left (fun s w => Text.sub_word w 0 None s) (map Str.chars_of ws)
                (Str.chars_of s).
Proof.
  induction ws as [| w ws IH]; intros s; cbn [fold_left map]; [reflexivity |].
  rewrite IH. unfold Str.sub_word. rewrite chars_of_of_chars. reflexivity.
Qed.

(** The normaliser, read on the characters of its argument. *)
Lemma normalize_chars (text : string) :
  Str.chars_of (_normalize_search_text text)
  = Text.normalize noise (Str.chars_of text).
Proof.
  destruct text as [| c text]; [vm_compute; reflexivity |].
  unfold _normalize_search_text. cbn [Str.truthy negb].
  unfold Str.strip, Str.join, Str.split, Text.normalize.
  rewrite !chars_of_of_chars, map_chars_of_of_chars, noise_fold_chars.
  unfold Str.sub_brackets, Str.sub_parens. rewrite !chars_of_of_chars.
  reflexivity.
Qed.

Lemma contains_char (c : ascii) (s : list ascii) :
  Text.contains [c] s = false -> ~ In c s.
Proof.
  induction s as [| x s IH]; cbn; [tauto |].
  rewrite andb_true_r. intros [Hx Hs]%orb_false_elim [-> | Hin].
  - apply bool_decide_eq_false in Hx. congruence.
  - exact (IH Hs Hin).
Qed.

Lemma lower_word (w : string) (r : list ascii) :
  Text.lower (Str.chars_of w) = Str.chars_of w ->
  Text.same_word (Str.chars_of w) r = false ->
  Str.lower (Str.of_chars r) <> w.
Proof.
  intros Hw Hr Heq. apply bool_decide_eq_false in Hr. apply Hr.
  rewrite Hw, <- Heq. unfold Str.lower. rewrite !chars_of_of_chars. reflexivity.
Qed.

End NormalizeFacts.

(** The removal of [&], read on the characters of the text without its
    spans. *)
Lemma amp_chars (x : string) :
  Str.sub_word "&" (Str.sub_brackets (Str.sub_parens x))
  = Str.sub_brackets (Str.sub_parens x) ->
  Text.sub_word Text.amp 0 None (Text.spans_removed (Str.chars_of x))
  = Text.spans_removed (Str.chars_of x).
Proof.
  intros H. apply (f_equal Str.chars_of) in H.
  unfold Str.sub_word, Str.sub_brackets, Str.sub_parens in H.
  rewrite !chars_of_of_chars in H. exact H.
Qed.

(** C3 (as amended). The normaliser is idempotent on every string in
    which, once the spans in parentheses and brackets are removed, the
    removal of [&] finds nothing: no ['&'] stands between two word
    characters.  Every string without ['&'] is one. *)
Theorem normalize_idempotent_unless_ampersand_joins :
  forall x : string,
    Str.sub_word "&" (Str.sub_brackets (Str.sub_parens x))
    = Str.sub_brackets (Str.sub_parens x) ->
    _normalize_search_text (_normalize_search_text x) = _normalize_search_text x.
Proof.
  intros x Hamp. apply chars_of_inj. rewrite !normalize_chars.
  apply TokenFacts.normalize_idempotent_amp, amp_chars, Hamp.
Qed.

Lemma normalize_idempotent_unless_ampersand_joins_witness :
  _normalize_search_text
    (_normalize_search_text "Tom & Jerry (Live) ft.with Bob vs. Carl feat. Dan")
  = _normalize_search_text "Tom & Jerry (Live) ft.with Bob vs. Carl feat. Dan".
Proof.
  apply (normalize_idempotent_unless_ampersand_joins
           "Tom & Jerry (Live) ft.with Bob vs. Carl feat. Dan").
  vm_compute. reflexivity.
Defined.

(** The claim of C3 fails on the code: removing ['&'] between two word
    characters can put a noise word together, which only a second
    normalisation removes. *)
Lemma normalize_not_idempotent :
  _normalize_search_text (_normalize_search_text "Tom v&s Jerry")
  <> _normalize_search_text "Tom v&s Jerry".
Proof. vm_compute. discriminate. Qed.

(** C2 (as amended). On ["Song (Live) [Remaster] feat. Bob"] the two span
    removals drop [(Live)] and [[Remaster]] and the result starts with the
    word [Song] and ends with the word [Bob]; with [FEATURING] for [feat.]
    the result is ["Song Bob"].  In general the result holds no span in
    parentheses or brackets, and it holds none of the words [featuring],
    [with] and [vs], in any letter case, for every argument in which, once
    the spans are removed, the removal of [&] finds nothing: no ['&']
    stands between two word characters.  The example is such an argument,
    as is every string without ['&']. *)
Theorem normalize_spans_and_letter_noise :
  forall x : string,
    let example := "Song (Live) [Remaster] feat. Bob" in
    (Str.sub_brackets (Str.sub_parens example) = "Song   feat. Bob"
     /\ head (Str.split (_normalize_search_text example)) = Some "Song"
     /\ last (Str.split (_normalize_search_text example)) = Some "Bob"
     /\ _normalize_search_text "Song (Live) [Remaster] FEATURING Bob" = "Song Bob")
    /\ (Text.span_free "(" ")" (Str.chars_of (_normalize_search_text x))
        /\ Text.span_free "[" "]" (Str.chars_of (_normalize_search_text x)))
    /\ (Str.sub_word "&" (Str.sub_brackets (Str.sub_parens x))
        = Str.sub_brackets (Str.sub_parens x) ->
        Forall (fun word => Str.lower word ∉ ["featuring"; "with"; "vs"])
               (Str.words (_normalize_search_text x))).
Proof.
  intros x example. split; [| split].
  - vm_compute. repeat split; reflexivity.
  - rewrite normalize_chars.
    destruct (TextFacts.normalize_thinned (Str.chars_of x)) as (H2 & H1 & _).
    split.
    + eapply TextFacts.thinned_span_free;
        [discriminate | discriminate | exact H1 | apply TextFacts.sub_delimited_span_free].
    + eapply TextFacts.thinned_span_free;
        [discriminate | discriminate | exact H2 | apply TextFacts.sub_delimited_span_free].
  - intros Hamp. unfold Str.words. rewrite normalize_chars.
    pose proof (TokenFacts.normalize_letter_noise _ (amp_chars x Hamp)) as Hruns.
    apply Forall_map. eapply Forall_impl; [exact Hruns |]. cbn beta.
    intros r Hr. apply orb_false_elim in Hr as [Hr H3].
    apply orb_false_elim in Hr as [H1 H2].
    intros Hin. apply list_elem_of_In in Hin. cbn [In] in Hin.
    destruct Hin as [Heq | [Heq | [Heq | []]]]; symmetry in Heq; revert Heq;
      apply lower_word; (reflexivity || assumption).
Qed.

Lemma normalize_spans_and_letter_noise_witness :
  Forall (fun word => Str.lower word ∉ ["featuring"; "with"; "vs"])
         (Str.words (_normalize_search_text "Song (Live) [Remaster] feat. Bob")).
Proof.
  apply (normalize_spans_and_letter_noise "Song (Live) [Remaster] feat. Bob").
  vm_compute. reflexivity.
Defined.

(** The claim of C2 fails on the code: the result is not ["Song"], and a
    [vs] that the removal of ['&'] puts together is a whole word of the
    result. *)
Lemma normalize_example_not_song :
  _normalize_search_text "Song (Live) [Remaster] feat. Bob" <> "Song"
  /\ _normalize_search_text "Song (Live) [Remaster] feat. Bob" = "Song feat. Bob"
  /\ _normalize_search_text "Tom v&s Jerry" = "Tom vs Jerry".
Proof. vm_compute. repeat split. discriminate. Qed.

(** * Further properties *)

(** ** The similarity scorer *)

Lemma truthy_nonempty (s : string) : Str.truthy s = true -> s <> EmptyString.
Proof. destruct s; [discriminate | discriminate]. Qed.

(** X1. The scorer returns a value between 0.0 and 1.0, as its docstring
    says. *)
Theorem similarity_between_zero_and_one :
  forall a b : string, (0 <= _calculate_artist_similarity a b <= 1)%Q.
Proof. exact similarity_range. Qed.

Lemma similarity_one_exact (a b : string) :
  (_calculate_artist_similarity a b == 1)%Q -> exact_match a b.
Proof.
  unfold _calculate_artist_similarity.
  destruct (Str.truthy a) eqn:Ha; destruct (Str.truthy b) eqn:Hb; cbn [negb orb];
    try (intros H; exfalso; lra).
  set (a1 := Str.strip (Str.lower a)). set (a2 := Str.strip (Str.lower b)).
  destruct (Str.eqb a1 a2) eqn:Heq.
  { intros _. apply bool_decide_eq_true in Heq.
    repeat split; auto using truthy_nonempty. }
  destruct (Str.is_in a1 a2 || Str.is_in a2 a1); [intros H; exfalso; lra |].
  destruct (Str.eqb (_extract_primary_artist a1) (_extract_primary_artist a2));
    [intros H; exfalso; lra |].
  set (w1 := list_to_set _ : gset string). set (w2 := list_to_set _ : gset string).
  destruct (bool_decide (w1 ≠ ∅)) eqn:H1; [| cbn [andb]; intros H; exfalso; lra].
  destruct (bool_decide (w2 ≠ ∅)) eqn:H2; [| cbn [andb]; intros H; exfalso; lra].
  cbn [andb]. apply bool_decide_eq_true in H1.
  assert (Hk : (size (w1 ∩ w2) <= Nat.max (size w1) (size w2))%nat).
  { transitivity (size w1); [apply subseteq_size, intersection_subseteq_l | lia]. }
  assert (Hm : (0 < Nat.max (size w1) (size w2))%nat).
  { destruct (size w1) eqn:Hsz; [| lia].
    apply size_empty_inv, leibniz_equiv in Hsz. contradiction. }
  pose proof (ratio_range _ _ Hk Hm) as [Hlo Hhi].
  intros H. exfalso. lra.
Qed.

(** X2. The scorer returns 1.0 on an exact match only: on two non-empty
    strings that are equal once lower-cased and trimmed. *)
Theorem similarity_one_iff_exact_match :
  forall a b : string,
    (_calculate_artist_similarity a b == 1)%Q <-> exact_match a b.
Proof.
  intros a b. split; [apply similarity_one_exact |].
  intros H. rewrite (exact_match_similarity a b H). reflexivity.
Qed.

(** A ratio of counts that is at least 1 has a numerator that is at least
    the denominator. *)
Lemma ratio_full (k m : nat) :
  (0 < m)%nat ->
  (0.7 <= inject_Z (Z.of_nat k) / inject_Z (Z.of_nat m) * 0.7)%Q -> (m <= k)%nat.
Proof.
  intros Hm Hfull.
  assert (Hpos : (0 < inject_Z (Z.of_nat m))%Q).
  { replace 0%Q with (inject_Z 0) by reflexivity. rewrite <- Zlt_Qlt. lia. }
  assert (Hone : (1 <= inject_Z (Z.of_nat k) / inject_Z (Z.of_nat m))%Q) by lra.
  apply (Qmult_le_compat_r _ _ (inject_Z (Z.of_nat m))) in Hone; [| lra].
  rewrite Qmult_1_l, Qmult_comm, Qmult_div_r in Hone by lra.
  rewrite <- Zle_Qle in Hone. lia.
Qed.

(** X20. A similarity of at least 0.7 comes from one of the scorer's rules
    only: the two names, lower-cased and trimmed, are equal, or one
    contains the other, or they have the same primary artist, or they
    consist of the same words; sharing only some of the words never
    reaches 0.7. *)
Theorem similarity_threshold_needs_a_rule (a b : string) :
  (0.7 <= _calculate_artist_similarity a b)%Q ->
  let a1 := Str.strip (Str.lower a) in
  let a2 := Str.strip (Str.lower b) in
  a1 = a2
  \/ Str.is_in a1 a2 = true
  \/ Str.is_in a2 a1 = true
  \/ _extract_primary_artist a1 = _extract_primary_artist a2
  \/ (list_to_set (Str.split a1) : gset string) = list_to_set (Str.split a2).
Proof.
  intros Hsim a1 a2. revert Hsim. unfold _calculate_artist_similarity. fold a1 a2.
  destruct (negb (Str.truthy a) || negb (Str.truthy b)); [intros H; exfalso; lra |].
  destruct (Str.eqb a1 a2) eqn:Heq; [left; apply bool_decide_eq_true in Heq; exact Heq |].
  destruct (Str.is_in a1 a2) eqn:H12; [auto |].
  destruct (Str.is_in a2 a1) eqn:H21; [auto |]. cbn [orb].
  destruct (Str.eqb (_extract_primary_artist a1) (_extract_primary_artist a2)) eqn:Hprim;
    [apply bool_decide_eq_true in Hprim; auto |].
  set (w1 := list_to_set (Str.split a1) : gset string).
  set (w2 := list_to_set (Str.split a2) : gset string).
  destruct (bool_decide (w1 ≠ ∅)) eqn:H1; [| cbn [andb]; intros H; exfalso; lra].
  destruct (bool_decide (w2 ≠ ∅)) eqn:H2; [| cbn [andb]; intros H; exfalso; lra].
  cbn [andb]. apply bool_decide_eq_true in H1. intros Hfull.
  assert (Hm : (0 < Nat.max (size w1) (size w2))%nat).
  { destruct (size w1) eqn:Hsz; [| lia].
    apply size_empty_inv, leibniz_equiv in Hsz. contradiction. }
  apply ratio_full in Hfull; [| exact Hm].
  do 4 right.
  assert (E1 : w1 ∩ w2 = w1).
  { apply leibniz_equiv, set_subseteq_size_equiv; [apply intersection_subseteq_l | lia]. }
  assert (E2 : w1 ∩ w2 = w2).
  { apply leibniz_equiv, set_subseteq_size_equiv; [apply intersection_subseteq_r | lia]. }
  rewrite <- E1 at 1. exact E2.
Qed.

Lemma similarity_threshold_needs_a_rule_witness :
  let a1 := Str.strip (Str.lower "Simon Garfunkel") in
  let a2 := Str.strip (Str.lower "garfunkel simon") in
  a1 = a2
  \/ Str.is_in a1 a2 = true
  \/ Str.is_in a2 a1 = true
  \/ _extract_primary_artist a1 = _extract_primary_artist a2
  \/ (list_to_set (Str.split a1) : gset string) = list_to_set (Str.split a2).
Proof.
  apply (similarity_threshold_needs_a_rule "Simon Garfunkel" "garfunkel simon").
  vm_compute. discriminate.
Defined.

(** ** Lower-casing and trimming *)

Module StripFacts.
Import Char Text.

Lemma lower_char_idempotent (c : ascii) : lower_char (lower_char c) = lower_char c.
Proof. TextFacts.each_char c. Qed.

Lemma lower_char_space (c : ascii) : is_space (lower_char c) = is_space c.
Proof. TextFacts.each_char c. Qed.

Lemma lower_idempotent (s : chars) : lower (lower s) = lower s.
Proof.
  unfold lower. rewrite map_map. apply map_ext. intros c. apply lower_char_idempotent.
Qed.

Lemma lstrip_lower (s : chars) : lstrip (lower s) = lower (lstrip s).
Proof.
  induction s as [| c s IH]; [reflexivity |]. cbn [lower map lstrip].
  rewrite lower_char_space. destruct (is_space c); [exact IH | reflexivity].
Qed.

Lemma lower_rev (s : chars) : lower (rev s) = rev (lower s).
Proof. apply map_rev. Qed.

Lemma strip_lower (s : chars) : strip (lower s) = lower (strip s).
Proof.
  unfold strip. rewrite lstrip_lower, <- lower_rev, lstrip_lower, lower_rev.
  reflexivity.
Qed.

(** What [lstrip] drops is whitespace, and what it returns does not start
    with whitespace. *)
Lemma lstrip_split (s : chars) :
  exists sp, s = sp ++ lstrip s /\ Forall (fun c => is_space c = true) sp.
Proof.
  induction s as [| c s (sp & IH & Hsp)]; [exists []; split; [reflexivity | constructor] |].
  cbn [lstrip]. destruct (is_space c) eqn:Hc.
  - exists (c :: sp). split; [cbn; congruence | constructor; assumption].
  - exists []. split; [reflexivity | constructor].
Qed.

Lemma lstrip_head (s : chars) :
  lstrip s = [] \/ exists c t, lstrip s = c :: t /\ is_space c = false.
Proof.
  induction s as [| c s IH]; [left; reflexivity |]. cbn [lstrip].
  destruct (is_space c) eqn:Hc; [exact IH | right; eauto].
Qed.

(** A text that neither starts nor ends with whitespace is its own trim. *)
Lemma strip_fixed (s : chars) :
  s = []
  \/ ((exists c t, s = c :: t /\ is_space c = false)
      /\ (exists t c, s = t ++ [c] /\ is_space c = false)) ->
  strip s = s.
Proof.
  intros [-> | [(c & t & Hhead & Hc) (t' & c' & Hlast & Hc')]]; [reflexivity |].
  unfold strip. rewrite Hhead, (TextFacts.lstrip_id c t Hc), <- Hhead, Hlast.
  rewrite rev_unit, (TextFacts.lstrip_id c' _ Hc'), <- (rev_unit t' c'), rev_involutive.
  reflexivity.
Qed.

(** The trim of a text is a middle part of it that neither starts nor ends
    with whitespace. *)
Lemma strip_split (s : chars) :
  exists pre post, s = pre ++ strip s ++ post.
Proof.
  destruct (lstrip_split s) as (pre & Hs & _).
  destruct (lstrip_split (rev (lstrip s))) as (sp & Hr & _).
  exists pre, (rev sp). unfold strip.
  rewrite Hs at 1. f_equal.
  rewrite <- (rev_involutive (lstrip s)) at 1. rewrite Hr at 1.
  apply rev_app_distr.
Qed.

Lemma strip_ends (s : chars) :
  strip s = []
  \/ ((exists c t, strip s = c :: t /\ is_space c = false)
      /\ (exists t c, strip s = t ++ [c] /\ is_space c = false)).
Proof.
  unfold strip.
  destruct (lstrip_head (rev (lstrip s))) as [-> | (c & t & Hb & Hc)];
    [left; reflexivity | right].
  rewrite Hb. cbn [rev]. split; [| eauto].
  destruct (lstrip_split (rev (lstrip s))) as (sp & Hr & _). rewrite Hb in Hr.
  assert (Ha : lstrip s = (rev t ++ [c]) ++ rev sp).
  { rewrite <- (rev_involutive (lstrip s)), Hr, rev_app_distr. reflexivity. }
  destruct (lstrip_head s) as [Hnil | (x & u & Hx & Hxs)].
  - rewrite Hnil in Ha. destruct (rev t); discriminate.
  - rewrite Hx in Ha. destruct (rev t) as [| y r]; cbn in Ha |- *.
    + injection Ha as -> _. eauto.
    + injection Ha as -> _. eauto.
Qed.

Lemma strip_idempotent (s : chars) : strip (strip s) = strip s.
Proof. apply strip_fixed, strip_ends. Qed.

Lemma strip_in (x : ascii) (s : chars) : In x (strip s) -> In x s.
Proof.
  destruct (strip_split s) as (pre & post & Hs). intros Hin.
  rewrite Hs. apply in_or_app. right. apply in_or_app. left. exact Hin.
Qed.

Lemma is_prefix_app (n post : chars) : is_prefix n (n ++ post) = true.
Proof.
  induction n as [| c n IH]; [reflexivity |]. cbn.
  rewrite IH, andb_true_r. apply bool_decide_eq_true. reflexivity.
Qed.

Lemma contains_prefix (n s : chars) : is_prefix n s = true -> contains n s = true.
Proof. intros H. destruct s; cbn; rewrite H; reflexivity. Qed.

Lemma contains_middle (n pre post : chars) : contains n (pre ++ n ++ post) = true.
Proof.
  induction pre as [| c pre IH]; [cbn [app]; apply contains_prefix, is_prefix_app |].
  cbn [app contains]. rewrite IH. apply orb_true_r.
Qed.

Lemma absent_char (c : ascii) (s : chars) : ~ In c s -> contains [c] s = false.
Proof.
  induction s as [| x s IH]; intros Hs; [reflexivity |]. cbn.
  rewrite andb_true_r, IH by (intros H; apply Hs; right; exact H).
  rewrite orb_false_r. apply bool_decide_eq_false. intros ->. apply Hs. left. reflexivity.
Qed.

Lemma before_split (sep s : chars) : exists rest, s = before sep s ++ rest.
Proof.
  induction s as [| c s (rest & IH)]; [exists []; reflexivity |].
  cbn [before]. destruct (is_prefix sep (c :: s)); [exists (c :: s); reflexivity |].
  exists rest. cbn. congruence.
Qed.

Lemma before_in (x : ascii) (sep s : chars) : In x (before sep s) -> In x s.
Proof.
  destruct (before_split sep s) as (rest & Hs). intros Hin.
  rewrite Hs. apply in_or_app. left. exact Hin.
Qed.

Lemma before_char (c : ascii) (s : chars) : ~ In c (before [c] s).
Proof.
  induction s as [| x s IH]; [intros [] |]. cbn [before is_prefix].
  rewrite andb_true_r. destruct (bool_decide (c = x)) eqn:Hx; [intros [] |].
  apply bool_decide_eq_false in Hx. intros [-> | Hin]; [congruence | exact (IH Hin)].
Qed.

End StripFacts.

Section StrFacts.

Lemma lower_lower (s : string) : Str.lower (Str.lower s) = Str.lower s.
Proof.
  unfold Str.lower. rewrite chars_of_of_chars, StripFacts.lower_idempotent. reflexivity.
Qed.

Lemma truthy_lower (s : string) : Str.truthy (Str.lower s) = Str.truthy s.
Proof. destruct s; reflexivity. Qed.

Lemma strip_strip (s : string) : Str.strip (Str.strip s) = Str.strip s.
Proof.
  unfold Str.strip. rewrite chars_of_of_chars, StripFacts.strip_idempotent. reflexivity.
Qed.

Lemma strip_lower_strip (s : string) :
  Str.strip (Str.lower (Str.strip s)) = Str.strip (Str.lower s).
Proof.
  unfold Str.strip, Str.lower. rewrite !chars_of_of_chars.
  rewrite <- StripFacts.strip_lower, StripFacts.strip_idempotent. reflexivity.
Qed.

End StrFacts.

(** X3. The scorer ignores letter case: lower-casing either argument, or
    both, does not change the score. *)
Theorem similarity_ignores_case :
  forall a b : string,
    _calculate_artist_similarity (Str.lower a) (Str.lower b)
    = _calculate_artist_similarity a b
    /\ _calculate_artist_similarity (Str.lower a) b
       = _calculate_artist_similarity a b.
Proof.
  intros a b. unfold _calculate_artist_similarity.
  rewrite !truthy_lower, !lower_lower. split; reflexivity.
Qed.

(** X4. The scorer ignores surrounding whitespace of an argument that is
    not all whitespace: trimming it does not change the score. *)
Theorem similarity_ignores_surrounding_whitespace :
  forall a b : string,
    Str.strip a <> EmptyString ->
    _calculate_artist_similarity (Str.strip a) b = _calculate_artist_similarity a b.
Proof.
  intros a b Ha. unfold _calculate_artist_similarity.
  rewrite strip_lower_strip, (truthy_true _ Ha).
  assert (Str.truthy a = true) as ->; [| reflexivity].
  destruct a; [exfalso; apply Ha; reflexivity | reflexivity].
Qed.

Lemma similarity_ignores_surrounding_whitespace_witness :
  _calculate_artist_similarity (Str.strip "  Daft Punk ") "Daft Punk feat. Pharrell"
  = _calculate_artist_similarity "  Daft Punk " "Daft Punk feat. Pharrell".
Proof.
  apply (similarity_ignores_surrounding_whitespace "  Daft Punk ").
  vm_compute. discriminate.
Defined.

(** ** The primary-artist extractor *)

Lemma is_in_refl_parts (p s : string) (pre post : list ascii) :
  Str.chars_of s = pre ++ Str.chars_of p ++ post -> Str.is_in p s = true.
Proof. intros H. unfold Str.is_in. rewrite H. apply StripFacts.contains_middle. Qed.

(** X5. The primary artist is a trimmed, contiguous part of the argument,
    and it never holds a comma: a comma-separated list is always cut at its
    first comma. *)
Theorem primary_artist_is_trimmed_part :
  forall s : string,
    let p := _extract_primary_artist s in
    Str.strip p = p /\ Str.is_in p s = true /\ Str.is_in "," p = false.
Proof.
  intros s p. subst p. unfold _extract_primary_artist.
  destruct (Str.truthy s) eqn:Hs; cbn [negb].
  2:{ repeat split. destruct s; [reflexivity | discriminate]. }
  assert (Hpart : forall t : string,
             (exists rest, Str.chars_of s = Str.chars_of t ++ rest) ->
             Str.is_in (Str.strip t) s = true).
  { intros t (rest & Ht). destruct (StripFacts.strip_split (Str.chars_of t)) as (pre & post & Hsplit).
    apply (is_in_refl_parts _ _ pre (post ++ rest)).
    unfold Str.strip. rewrite chars_of_of_chars, Ht. rewrite Hsplit at 1.
    rewrite <- !app_assoc. reflexivity. }
  assert (Hcomma : forall t : string,
             ~ In ","%char (Str.chars_of t) -> Str.is_in "," (Str.strip t) = false).
  { intros t Ht. unfold Str.is_in, Str.strip. rewrite chars_of_of_chars.
    apply StripFacts.absent_char. intros Hin. apply Ht, StripFacts.strip_in, Hin. }
  destruct (List.find _ separators) as [sep |] eqn:Hfind.
  - split; [apply strip_strip |]. split.
    + apply Hpart. unfold Str.before. rewrite chars_of_of_chars.
      apply StripFacts.before_split.
    + apply Hcomma. unfold Str.before. rewrite chars_of_of_chars.
      unfold separators in Hfind. cbn [List.find] in Hfind.
      destruct (Str.is_in "," s) eqn:Hc.
      * injection Hfind as <-. apply StripFacts.before_char.
      * intros Hin%StripFacts.before_in. revert Hin. apply contains_char, Hc.
  - split; [apply strip_strip |]. split.
    + apply Hpart. exists []. rewrite app_nil_r. reflexivity.
    + apply Hcomma. apply contains_char.
      apply (List.find_none _ _ Hfind ","). left. reflexivity.
Qed.

(** ** The text normaliser, on every argument *)

Lemma thinned_length (u v : list ascii) :
  Text.thinned u v -> (length u <= length v)%nat.
Proof. induction 1; cbn; lia. Qed.

Lemma chars_of_length (s : string) : length (Str.chars_of s) = String.length s.
Proof. induction s as [| c s IH]; cbn; [reflexivity | f_equal; exact IH]. Qed.

(** X6. The result of the normaliser is in normal form for whitespace:
    splitting it at whitespace and joining the words with single spaces
    gives it back, and so does trimming it. *)
Theorem normalize_whitespace_normal_form :
  forall text : string,
    let r := _normalize_search_text text in
    Str.join " " (Str.split r) = r /\ Str.strip r = r.
Proof.
  intros text r. subst r. split; apply chars_of_inj.
  - unfold Str.join, Str.split.
    rewrite chars_of_of_chars, map_chars_of_of_chars, !normalize_chars.
    rewrite TextFacts.normalize_join at 1. rewrite TextFacts.collapse_idempotent.
    symmetry. apply TextFacts.normalize_join.
  - unfold Str.strip. rewrite chars_of_of_chars, normalize_chars.
    rewrite TextFacts.normalize_join. apply TextFacts.collapse_join.
Qed.

(** X7. The normaliser only removes: its result is no longer than its
    argument, and every character of the result other than the space is a
    character of the argument. *)
Theorem normalize_only_removes :
  forall text : string,
    (String.length (_normalize_search_text text) <= String.length text)%nat
    /\ (forall c : ascii,
          c <> " "%char ->
          In c (Str.chars_of (_normalize_search_text text)) ->
          In c (Str.chars_of text)).
Proof.
  intros text.
  destruct (TextFacts.normalize_thinned (Str.chars_of text)) as (_ & _ & H).
  rewrite <- normalize_chars in H. split.
  - rewrite <- !chars_of_length. apply thinned_length, H.
  - intros c Hc. apply (TextFacts.thinned_in _ _ c H Hc).
Qed.

(** ** The matcher: when it gives up and when it cannot *)

Lemma build_queries_last (track_clean artist_clean primary_artist : string) :
  Str.truthy track_clean = true ->
  exists front,
    build_queries track_clean artist_clean primary_artist = front ++ [track_clean].
Proof.
  intros H. unfold build_queries.
  match goal with |- context [omap ?f [?a; ?b; ?c; ?d]] =>
    change [a; b; c; d] with ([a; b; c] ++ [d]) end.
  rewrite omap_app. eexists. f_equal. cbn. rewrite H. reflexivity.
Qed.

Section GiveUpFacts.

Context {World : Type}.
Variable tidal_search : World -> string -> nat -> World * SearchResult.
Variables (w : World) (track_name artist_name : string).
Variables (album_name : option string) (duration_ms : option Z).

Let track_clean := _normalize_search_text track_name.
Let artist_clean := _normalize_search_text artist_name.
Let queries :=
  build_queries track_clean artist_clean (_extract_primary_artist artist_clean).
Let step := replay_step track_clean artist_name album_name duration_ms.
Let cands := candidates track_clean artist_name album_name duration_ms.
Let score := score_track track_clean artist_name album_name duration_ms.

(** The running best of a trace is [None] at score 0, or the best
    candidate of the trace. *)
Lemma running_best_cases (evs : list Event) :
  let st := fold_left step evs initial_state in
  (st = initial_state /\ Forall (fun c => (c.2 <= 0)%Q) (cands evs))
  \/ (exists t,
        best_match st = Some t
        /\ Forall (fun c => (c.2 <= best_score st)%Q) (cands evs)).
Proof.
  cbn zeta. unfold step. rewrite replay_pick. fold cands.
  destruct (fold_pick_first_max (cands evs) initial_state)
    as [[Hsame Hall] | (pre & q & t & s & post & Hcs & Hfold & _ & Hpre & Hpost)].
  - left. split; [exact Hsame |].
    eapply Forall_impl; [exact Hall |]. cbn beta. intros c Hc.
    unfold initial_state in Hc. cbn [best_score] in Hc. lra.
  - right. exists t. rewrite Hfold. split; [reflexivity |]. cbn [best_score].
    rewrite Hcs. apply Forall_app. split.
    + eapply Forall_impl; [exact Hpre |]. cbn beta. intros c Hc. lra.
    + constructor; [cbn [snd]; lra | exact Hpost].
Qed.

Lemma high_best_is_returned (evs : list Event) :
  let st := fold_left step evs initial_state in
  (0.5 <= best_score st)%Q -> exists m, final_result st = Some m /\ confidence m = best_score st.
Proof.
  cbn zeta. intros Hhigh.
  destruct (running_best_cases evs) as [[Hsame _] | (t & Ht & _)].
  - rewrite Hsame in Hhigh. cbn in Hhigh. lra.
  - unfold final_result. rewrite Ht.
    rewrite (proj2 (Qgeb_le _ _) Hhigh). eexists. split; reflexivity.
Qed.

Lemma named_search_spec :
  Str.truthy track_clean = true ->
  exists w' evs,
    search_tidal_track tidal_search w track_name artist_name album_name duration_ms
    = (w', evs, Returned (final_result (fold_left step evs initial_state)))
    /\ search_calls evs = take (length evs) queries
    /\ ((length evs < length queries)%nat ->
        (0.8 <= best_score (fold_left step evs initial_state))%Q).
Proof.
  intros Htc.
  destruct (query_loop_spec tidal_search track_clean artist_name album_name
              duration_ms queries initial_state w eq_refl)
    as (w' & evs & Hloop & Hall & Hlen & Hpre & Hstop).
  exists w', evs. repeat split.
  - unfold search_tidal_track. fold track_clean artist_clean.
    rewrite Htc. cbn [negb]. fold queries. rewrite Hloop. reflexivity.
  - apply search_calls_all, Hall.
  - intros H. apply Qgeb_le, Hstop, H.
Qed.

End GiveUpFacts.

(** X8. The matcher gives up only after the whole plan: when it returns
    no match for a track name that does not normalise to the empty string,
    it has made every planned query, the last of them the normalised track
    name alone. *)
Theorem no_match_only_after_every_query :
  forall (World : Type) (tidal_search : World -> string -> nat -> World * SearchResult)
         (w : World) (track_name artist_name : string)
         (album_name : option string) (duration_ms : option Z)
         (w' : World) (evs : list Event),
    search_tidal_track tidal_search w track_name artist_name album_name duration_ms
    = (w', evs, Returned None) ->
    _normalize_search_text track_name <> EmptyString ->
    let track_clean := _normalize_search_text track_name in
    let artist_clean := _normalize_search_text artist_name in
    search_calls evs
    = build_queries track_clean artist_clean (_extract_primary_artist artist_clean)
    /\ last (search_calls evs) = Some track_clean.
Proof.
  intros World tidal_search w track_name artist_name album_name duration_ms
         w' evs Hrun Hname track_clean artist_clean.
  destruct (named_search_spec tidal_search w track_name artist_name album_name
              duration_ms (truthy_true _ Hname))
    as (w1 & evs1 & Hspec & Hcalls & Hstop).
  rewrite Hrun in Hspec. injection Hspec as <- <- Hres.
  fold track_clean artist_clean in Hcalls, Hstop.
  set (queries := build_queries track_clean artist_clean
                    (_extract_primary_artist artist_clean)) in *.
  assert (Hall : search_calls evs = queries).
  { rewrite Hcalls. apply take_ge.
    destruct (le_lt_dec (length queries) (length evs)) as [Hle | Hlt]; [exact Hle |].
    exfalso. specialize (Hstop Hlt).
    destruct (high_best_is_returned track_name artist_name album_name duration_ms evs)
      as (m & Hm & _);
      [cbn zeta; eapply Qle_trans; [| exact Hstop]; apply Qle_bool_imp_le; reflexivity |].
    cbn zeta in Hm. rewrite Hm in Hres. discriminate. }
  split; [exact Hall |]. rewrite Hall.
  destruct (build_queries_last track_clean artist_clean
              (_extract_primary_artist artist_clean) (truthy_true _ Hname))
    as (front & Hq).
  unfold queries. rewrite Hq. apply last_snoc.
Qed.

Lemma no_match_only_after_every_query_witness :
  last (search_calls
          (search_tidal_track Examples.search_hello tt "Hello" "Zebra Band"
             (Some "Other") (Some 100000%Z)).1.2)
  = Some "Hello".
Proof.
  destruct (search_tidal_track Examples.search_hello tt "Hello" "Zebra Band"
              (Some "Other") (Some 100000%Z)) as [[w' evs] r] eqn:Hrun.
  assert (Hr : r = Returned None).
  { apply (f_equal snd) in Hrun. vm_compute in Hrun. congruence. }
  subst r.
  refine (proj2 (no_match_only_after_every_query _ _ _ _ _ _ _ _ _ Hrun _)).
  vm_compute. discriminate.
Defined.

Lemma score_at_least_artist (track_clean artist_name : string)
    (album_name : option string) (duration_ms : option Z) (t : TidalTrack) :
  (_calculate_artist_similarity artist_name (default EmptyString (t_artist t)) * 0.6
   <= score_track track_clean artist_name album_name duration_ms t)%Q.
Proof.
  unfold score_track.
  repeat match goal with
         | |- context [match ?x with _ => _ end] =>
             match x with
             | _calculate_artist_similarity _ _ => fail 1
             | _ => destruct x eqn:?
             end
         end;
    try match goal with
        | |- context [(_calculate_artist_similarity ?x ?y * 0.2)%Q] =>
            pose proof (similarity_range x y)
        end;
    lra.
Qed.

(** X9. A hit by the very artist is never lost: when an answered search
    holds a hit whose artist matches exactly, the matcher returns a match,
    of confidence at least 0.6. *)
Theorem exact_artist_hit_gives_a_match :
  forall (World : Type) (tidal_search : World -> string -> nat -> World * SearchResult)
         (w : World) (track_name artist_name : string)
         (album_name : option string) (duration_ms : option Z)
         (w' : World) (evs : list Event) (r : Outcome (option MatchResult))
         (q : string) (limit : nat) (tracks : list TidalTrack) (t : TidalTrack)
         (track_artist : string),
    search_tidal_track tidal_search w track_name artist_name album_name duration_ms
    = (w', evs, r) ->
    In (EvSearch q limit (SearchOk tracks)) evs ->
    In t tracks ->
    t_artist t = Some track_artist ->
    exact_match artist_name track_artist ->
    exists m, r = Returned (Some m) /\ (0.6 <= confidence m)%Q.
Proof.
  intros World tidal_search w track_name artist_name album_name duration_ms
         w' evs r q limit tracks t track_artist Hrun Hev Ht Hartist Hexact.
  destruct (search_tidal_track_spec tidal_search w track_name artist_name
              album_name duration_ms) as (w1 & evs1 & Hspec & _).
  rewrite Hrun in Hspec. injection Hspec as <- <- ->.
  set (track_clean := _normalize_search_text track_name).
  set (s := score_track track_clean artist_name album_name duration_ms t).
  assert (Hs : (0.6 <= s)%Q).
  { pose proof (score_at_least_artist track_clean artist_name album_name duration_ms t) as H.
    rewrite Hartist in H. cbn [default] in H. unfold id in H.
    rewrite (exact_match_similarity _ _ Hexact) in H. unfold s. lra. }
  assert (Hin : In (q, t, s) (candidates track_clean artist_name album_name duration_ms evs)).
  { unfold candidates. apply in_flat_map. eexists. split; [exact Hev |].
    cbn. apply in_map_iff. exists t. split; [reflexivity | exact Ht]. }
  assert (Hbest : (s <= best_score
                          (fold_left (replay_step track_clean artist_name album_name
                                        duration_ms) evs initial_state))%Q).
  { destruct (running_best_cases track_name artist_name album_name duration_ms evs)
      as [[_ Hall] | (t' & _ & Hall)]; cbn zeta in *.
    - apply (proj1 (List.Forall_forall _ _) Hall) in Hin. cbn in Hin. lra.
    - apply (proj1 (List.Forall_forall _ _) Hall) in Hin. exact Hin. }
  destruct (high_best_is_returned track_name artist_name album_name duration_ms evs)
    as (m & Hm & Hc);
    [cbn zeta; eapply Qle_trans; [| exact Hbest]; eapply Qle_trans; [| exact Hs];
     apply Qle_bool_imp_le; reflexivity |].
  cbn zeta in Hm, Hc. exists m. split; [f_equal; exact Hm |].
  rewrite Hc. eapply Qle_trans; [exact Hs | exact Hbest].
Qed.

Lemma exact_artist_hit_gives_a_match_witness :
  exists m,
    (search_tidal_track Examples.search_hello tt "Goodbye" "ADELE" None None).2
    = Returned (Some m)
    /\ (0.6 <= confidence m)%Q.
Proof.
  destruct (search_tidal_track Examples.search_hello tt "Goodbye" "ADELE" None None)
    as [[w' evs] r] eqn:Hrun.
  refine (exact_artist_hit_gives_a_match _ _ _ _ _ _ _ _ evs r _ 10%nat
            [Examples.hello] Examples.hello "Adele" Hrun _ _ eq_refl _).
  - apply (f_equal (fun x => x.1.2)) in Hrun. vm_compute in Hrun. subst evs.
    left. reflexivity.
  - left. reflexivity.
  - repeat split; [discriminate | discriminate].
Defined.

(** ** The playlist loop: counters and ledger *)

Section PlaylistCounters.

Context {World : Type}.
Variable tidal_search : World -> string -> nat -> World * SearchResult.
Variable playlist_add : World -> list Z -> World * AddResult.
Variable playlist_name : string.

Let item_step := process_item tidal_search playlist_add playlist_name.
Let items_step := process_items tidal_search playlist_add playlist_name.
Let pages_step := page_loop tidal_search playlist_add playlist_name.

Lemma search_raises_nothing (w : World) (track_name artist_name : string)
    (album_name : option string) (duration_ms : option Z) :
  failed_writes (search_tidal_track tidal_search w track_name artist_name album_name
                   duration_ms).1.2 = 0%nat.
Proof.
  destruct (search_tidal_track_spec tidal_search w track_name artist_name
              album_name duration_ms) as (w' & evs & -> & Hall & _).
  cbn [fst snd]. eapply failed_writes_searches, Hall.
Qed.

Lemma process_item_counted (item : option SpotifyTrack) (ps : TransferState) (w : World) :
  names_artist item ->
  counted ps (item_step item ps w).2 [item] (item_step item ps w).1.2.
Proof.
  unfold item_step, process_item, counted, tracks_among, names_artist.
  destruct item as [t |]; [| intros _; cbn; lia].
  cbn [List.filter is_track].
  destruct (Str.eqb (sp_type t) "track"); [| intros _; cbn; lia].
  intros Hartist. destruct (Hartist eq_refl) as (t' & [= <-] & Hsome).
  unfold first_artist. destruct (sp_artists t) as [| name names]; [contradiction |].
  cbn [length].
  pose proof (search_raises_nothing w (sp_name t) (Str.join ", " (name :: names))
                (Some (sp_album t)) (Some (sp_duration_ms t))) as Hsearch.
  destruct (search_tidal_track _ _ _ _ _ _) as [[w1 ev] [[m |] | e]];
    cbn [fst snd] in Hsearch.
  - cbn [imported failed batch_ids failed_items].
    destruct (Nat.eqb _ 50).
    + destruct (playlist_add w1 _) as [w2 [| e]]; cbn [fst snd];
        rewrite failed_writes_app, Hsearch; unfold record_failure, failed_writes;
        simpl; rewrite ?length_app; simpl; lia.
    + cbn [fst snd]. rewrite Hsearch. simpl. lia.
  - cbn [fst snd]. rewrite Hsearch. unfold record_failure.
    simpl. rewrite length_app. simpl. lia.
  - cbn [fst snd]. rewrite Hsearch. unfold record_failure.
    simpl. rewrite length_app. simpl. lia.
Qed.

Lemma counted_trans (ps1 ps2 ps3 : TransferState)
    (items1 items2 : list (option SpotifyTrack)) (ev1 ev2 : list Event) :
  counted ps1 ps2 items1 ev1 -> counted ps2 ps3 items2 ev2 ->
  counted ps1 ps3 (items1 ++ items2) (ev1 ++ ev2).
Proof.
  unfold counted, tracks_among. intros [H1 H2] [H3 H4].
  rewrite List.filter_app, length_app, failed_writes_app. lia.
Qed.

Lemma counted_refl (ps : TransferState) : counted ps ps [] [].
Proof. unfold counted. cbn. lia. Qed.

Lemma process_items_counted (items : list (option SpotifyTrack)) :
  forall (ps : TransferState) (w : World),
    Forall names_artist items ->
    counted ps (items_step items ps w).2 items (items_step items ps w).1.2.
Proof.
  unfold items_step.
  induction items as [| item rest IH]; intros ps w Hnamed; [apply counted_refl |].
  apply Forall_cons in Hnamed as [Hitem_named Hrest].
  cbn [process_items].
  pose proof (process_item_counted item ps w Hitem_named) as Hitem.
  unfold item_step in Hitem.
  destruct (process_item _ _ _ item ps w) as [[w1 ev] ps1]. cbn [fst snd] in Hitem.
  specialize (IH ps1 w1 Hrest).
  destruct (process_items _ _ _ rest ps1 w1) as [[w2 evs] ps2]. cbn [fst snd] in *.
  apply (counted_trans ps ps1 ps2 [item] rest ev evs Hitem IH).
Qed.

Lemma page_loop_counted (pages : list Page) :
  forall (ps : TransferState) (w : World),
    Forall names_artist (playlist_items_read pages) ->
    counted ps (pages_step pages ps w).2 (playlist_items_read pages)
            (pages_step pages ps w).1.2.
Proof.
  unfold pages_step.
  induction pages as [| page rest IH]; intros ps w Hnamed; [apply counted_refl |].
  cbn [page_loop playlist_items_read] in Hnamed |- *.
  apply Forall_app in Hnamed as [Hpage_named Hrest].
  pose proof (process_items_counted (page_items page) ps w Hpage_named) as Hpage.
  unfold items_step in Hpage.
  destruct (process_items _ _ _ (page_items page) ps w) as [[w1 ev] ps1].
  cbn [fst snd] in Hpage.
  destruct (truthy_str (page_next page)).
  - specialize (IH ps1 w1 Hrest).
    destruct (page_loop _ _ _ rest ps1 w1) as [[w2 evs] ps2]. cbn [fst snd] in *.
    apply (counted_trans ps ps1 ps2 _ _ ev evs Hpage IH).
  - cbn [fst snd]. rewrite app_nil_r. exact Hpage.
Qed.

(** The failures counted are the entries put on the ledger, whatever the
    tracks are. *)
Lemma process_item_ledger (item : option SpotifyTrack) (ps : TransferState) (w : World) :
  (failed (item_step item ps w).2 + length (failed_items ps)
   = failed ps + length (failed_items (item_step item ps w).2))%nat.
Proof.
  unfold item_step, process_item.
  destruct item as [t |]; [| cbn; lia].
  destruct (Str.eqb (sp_type t) "track"); [| cbn; lia].
  destruct (search_tidal_track _ _ _ _ _ _) as [[w1 ev] [[m |] | e]].
  - destruct (first_artist t).
    + cbn [imported failed batch_ids failed_items].
      destruct (Nat.eqb _ 50); [| cbn; lia].
      destruct (playlist_add w1 _) as [w2 [| e]]; cbn [fst snd];
        unfold record_failure; simpl; rewrite ?length_app; simpl; lia.
    + cbn [fst snd]. unfold record_failure. simpl. rewrite length_app. simpl. lia.
  - destruct (first_artist t); cbn [fst snd]; unfold record_failure; simpl;
      rewrite !length_app; simpl; lia.
  - cbn [fst snd]. unfold record_failure. simpl. rewrite length_app. simpl. lia.
Qed.

Lemma process_items_ledger (items : list (option SpotifyTrack)) :
  forall (ps : TransferState) (w : World),
    (failed (items_step items ps w).2 + length (failed_items ps)
     = failed ps + length (failed_items (items_step items ps w).2))%nat.
Proof.
  unfold items_step.
  induction items as [| item rest IH]; intros ps w; [cbn; lia |].
  cbn [process_items].
  pose proof (process_item_ledger item ps w) as Hitem. unfold item_step in Hitem.
  destruct (process_item _ _ _ item ps w) as [[w1 ev] ps1]. cbn [fst snd] in Hitem.
  specialize (IH ps1 w1).
  destruct (process_items _ _ _ rest ps1 w1) as [[w2 evs] ps2]. cbn [fst snd] in *.
  lia.
Qed.

Lemma page_loop_ledger (pages : list Page) :
  forall (ps : TransferState) (w : World),
    (failed (pages_step pages ps w).2 + length (failed_items ps)
     = failed ps + length (failed_items (pages_step pages ps w).2))%nat.
Proof.
  unfold pages_step.
  induction pages as [| page rest IH]; intros ps w; [cbn; lia |].
  cbn [page_loop].
  pose proof (process_items_ledger (page_items page) ps w) as Hpage.
  unfold items_step in Hpage.
  destruct (process_items _ _ _ (page_items page) ps w) as [[w1 ev] ps1].
  cbn [fst snd] in Hpage.
  destruct (truthy_str (page_next page)); [| exact Hpage].
  specialize (IH ps1 w1).
  destruct (page_loop _ _ _ rest ps1 w1) as [[w2 evs] ps2]. cbn [fst snd] in *.
  lia.
Qed.

End PlaylistCounters.

(** X10. When the track loop of a playlist completes, its [failed] counter
    is the number of entries it put on the failure ledger, and [imported]
    and [failed] together count every track read from the pages once, plus
    one for each batch write inside the loop that raised: the track that
    filled such a batch is counted as imported and as failed.  The tracks
    are taken to name an artist, the first of which the progress line of a
    track prints. *)
Theorem playlist_counters_account_for_every_track {World : Type}
    (tidal_search : World -> string -> nat -> World * SearchResult)
    (playlist_add : World -> list Z -> World * AddResult)
    (playlist_name : string) (pages : list Page) (w w' : World)
    (evs : list Event) (ps : TransferState) :
  Forall names_artist (playlist_items_read pages) ->
  transfer_playlist_tracks tidal_search playlist_add playlist_name pages w
  = (w', evs, Returned ps) ->
  failed ps = length (failed_items ps)
  /\ (imported ps + failed ps
      = tracks_among (playlist_items_read pages) + failed_writes evs)%nat.
Proof.
  intros Hnamed. unfold transfer_playlist_tracks.
  set (ps0 := {| imported := 0; failed := 0; batch_ids := []; failed_items := [] |}).
  pose proof (page_loop_counted tidal_search playlist_add playlist_name pages ps0 w
                Hnamed) as Hloop.
  destruct (page_loop _ _ _ pages ps0 w) as [[w1 ev] ps1]. cbn [fst snd] in Hloop.
  destruct Hloop as [Hledger Hsum]. simpl in Hledger, Hsum.
  destruct (batch_ids ps1) as [| id ids].
  - intros [= <- <- <-]. lia.
  - destruct (playlist_add w1 (id :: ids)) as [w2 [| e]]; [| discriminate].
    intros [= <- <- <-]. rewrite failed_writes_app. cbn. lia.
Qed.

Lemma repeat_names_artist (t : SpotifyTrack) (n : nat) :
  sp_artists t <> [] -> Forall names_artist (repeat (Some t) n).
Proof.
  intros Hartists. apply List.Forall_forall. intros item Hin.
  apply repeat_spec in Hin as ->. intros _. exists t. split; [reflexivity | exact Hartists].
Qed.

Lemma playlist_counters_account_for_every_track_witness :
  match transfer_playlist_tracks Examples.search_hello_counting Examples.add_flaky
          "Road trip" Examples.pages_125 0%nat with
  | (_, evs, Returned ps) =>
      failed ps = length (failed_items ps)
      /\ (imported ps + failed ps
          = tracks_among (playlist_items_read Examples.pages_125) + failed_writes evs)%nat
  | (_, _, Raised _) => False
  end.
Proof.
  assert (Hartists : Forall names_artist (playlist_items_read Examples.pages_125)).
  { change (Forall names_artist (repeat Examples.hello_item 100
                                   ++ repeat Examples.hello_item 25 ++ [])).
    rewrite app_nil_r. apply Forall_app. split; apply repeat_names_artist; discriminate. }
  destruct (transfer_playlist_tracks Examples.search_hello_counting Examples.add_flaky
              "Road trip" Examples.pages_125 0%nat) as [[w' evs] [ps | e]] eqn:Hrun.
  - exact (playlist_counters_account_for_every_track _ _ _ _ _ _ _ _ Hartists Hrun).
  - vm_compute in Hrun. discriminate Hrun.
Defined.

(** ** Paging *)

Section PagedFacts.

Context {World Item Call State : Type}.
Variable process : Item -> State -> World -> World * list Call * State.

Lemma process_all_app (items1 items2 : list Item) :
  forall (st : State) (w : World),
    process_all process (items1 ++ items2) st w
    = let '(w1, ev1, st1) := process_all process items1 st w in
      let '(w2, ev2, st2) := process_all process items2 st1 w1 in
      (w2, ev1 ++ ev2, st2).
Proof.
  induction items1 as [| item rest IH]; intros st w; cbn [app process_all].
  - destruct (process_all process items2 st w) as [[w2 ev2] st2]. reflexivity.
  - destruct (process item st w) as [[w0 ev0] st0]. rewrite IH.
    destruct (process_all process rest st0 w0) as [[w1 ev1] st1].
    destruct (process_all process items2 st1 w1) as [[w2 ev2] st2].
    rewrite app_assoc. reflexivity.
Qed.

Lemma paged_loop_reads (limit : nat) (pages : list (list Item)) :
  forall (st : State) (w : World),
    paged_loop process limit pages st w
    = process_all process (items_read limit pages) st w.
Proof.
  induction pages as [| items rest IH]; intros st w; [reflexivity |].
  cbn [paged_loop items_read]. destruct items as [| item items']; [reflexivity |].
  set (page := item :: items').
  destruct (length page <? limit)%nat.
  - destruct (process_all process page st w) as [[w1 ev1] st1]. reflexivity.
  - rewrite process_all_app.
    destruct (process_all process page st w) as [[w1 ev1] st1]. rewrite IH. reflexivity.
Qed.

(** A relation between the states before and after, the items processed
    and the calls made holds of a run when it holds of no items, composes
    and holds of every step. *)
Lemma process_all_related (good : Item -> Prop)
    (R : State -> State -> list Item -> list Call -> Prop) :
  (forall st, R st st [] []) ->
  (forall st1 st2 st3 items1 items2 calls1 calls2,
      R st1 st2 items1 calls1 -> R st2 st3 items2 calls2 ->
      R st1 st3 (items1 ++ items2) (calls1 ++ calls2)) ->
  (forall item st w,
      good item -> R st (process item st w).2 [item] (process item st w).1.2) ->
  forall (items : list Item) (st : State) (w : World),
    Forall good items ->
    R st (process_all process items st w).2 items (process_all process items st w).1.2.
Proof.
  intros Hrefl Htrans Hstep.
  induction items as [| item rest IH]; intros st w Hgood; [apply Hrefl |].
  apply Forall_cons in Hgood as [Hitem Hrest].
  cbn [process_all]. specialize (Hstep item st w Hitem).
  destruct (process item st w) as [[w1 ev] st1]. cbn [fst snd] in Hstep.
  specialize (IH st1 w1 Hrest).
  destruct (process_all process rest st1 w1) as [[w2 evs] st2]. cbn [fst snd] in *.
  exact (Htrans st st1 st2 [item] rest ev evs Hstep IH).
Qed.

End PagedFacts.

Lemma served_short {Item : Type} (limit : nat) (library : list Item) :
  (length library < limit)%nat -> served limit library = [library].
Proof.
  intros Hshort. unfold served. rewrite Nat.div_small by exact Hshort.
  cbn [Nat.add seq map Nat.mul]. rewrite drop_0, take_ge by lia. reflexivity.
Qed.

Lemma served_full {Item : Type} (limit : nat) (library : list Item) :
  (0 < limit <= length library)%nat ->
  served limit library = take limit library :: served limit (drop limit library).
Proof.
  intros [Hpos Hfull]. unfold served. rewrite length_drop.
  assert (Hdiv : (length library / limit = S ((length library - limit) / limit))%nat).
  { replace (length library) with ((length library - limit) + 1 * limit)%nat at 1 by lia.
    rewrite Nat.div_add by lia. lia. }
  rewrite Hdiv. cbn [Nat.add seq map Nat.mul]. rewrite drop_0. f_equal.
  rewrite <- seq_shift, map_map. apply map_ext. intros k.
  rewrite drop_drop. do 2 f_equal; lia.
Qed.

Lemma items_read_served {Item : Type} (limit : nat) :
  (0 < limit)%nat ->
  forall library : list Item, items_read limit (served limit library) = library.
Proof.
  intros Hpos library.
  remember (length library) as n eqn:Hn. revert library Hn.
  induction n as [n IH] using lt_wf_ind. intros library Hn.
  destruct (Nat.lt_ge_cases (length library) limit) as [Hshort | Hfull].
  - rewrite served_short by exact Hshort. cbn [items_read].
    destruct library as [| item rest]; [reflexivity |].
    apply Nat.ltb_lt in Hshort. rewrite Hshort. reflexivity.
  - rewrite served_full by lia. cbn [items_read].
    destruct (take limit library) as [| item page] eqn:Hpage.
    + apply (f_equal length) in Hpage. rewrite length_take in Hpage. cbn in Hpage. lia.
    + rewrite <- Hpage.
      assert (Hlen : (length (take limit library) <? limit)%nat = false)
        by (apply Nat.ltb_ge; rewrite length_take; lia).
      rewrite Hlen, (IH (length (drop limit library))); [apply take_drop | | reflexivity].
      rewrite length_drop. lia.
Qed.

(** ** The favourites loops: counters and ledger *)

Lemma ledgered_refl (st : FavState) : ledgered st st [].
Proof. exists []. rewrite app_nil_r. cbn. repeat split; lia. Qed.

Lemma ledgered_trans (st1 st2 st3 : FavState) (added1 added2 : list Z) :
  ledgered st1 st2 added1 -> ledgered st2 st3 added2 ->
  ledgered st1 st3 (added1 ++ added2).
Proof.
  intros (new1 & Hl1 & Hf1 & Hi1) (new2 & Hl2 & Hf2 & Hi2).
  exists (new1 ++ new2). rewrite Hl2, Hl1, Hf2, Hf1, Hi2, Hi1, !length_app, app_assoc.
  repeat split; lia.
Qed.

Lemma ledgered_fail (item : FailedItem) (st : FavState) :
  ledgered st (fav_fail item st) [].
Proof. exists [item]. cbn. repeat split; lia. Qed.

Lemma ledgered_import (st : FavState) (id : Z) : ledgered st (fav_import st) [id].
Proof. exists []. cbn. rewrite app_nil_r. repeat split; lia. Qed.

Lemma ledgered_import_fail (item : FailedItem) (st : FavState) (id : Z) :
  ledgered st (fav_fail item (fav_import st)) [id].
Proof. exists [item]. cbn. repeat split; lia. Qed.

Lemma ledgered_fail_twice (item1 item2 : FailedItem) (st : FavState) :
  ledgered st (fav_fail item2 (fav_fail item1 st)) [].
Proof. exists [item1; item2]. cbn. rewrite <- app_assoc. repeat split; lia. Qed.

Lemma song_added_app (calls1 calls2 : list SongCall) :
  song_added (calls1 ++ calls2) = song_added calls1 ++ song_added calls2.
Proof. apply omap_app. Qed.

Lemma song_added_searches (evs : list Event) : song_added (map SongSearch evs) = [].
Proof. induction evs as [| ev evs IH]; [reflexivity | exact IH]. Qed.

Lemma fav_added_app {A : Type} (calls1 calls2 : list (FavCall A)) :
  fav_added (calls1 ++ calls2) = fav_added calls1 ++ fav_added calls2.
Proof. apply omap_app. Qed.

Section FavouritesFacts.

Context {World : Type}.
Variable tidal_search : World -> string -> nat -> World * SearchResult.
Variable search_artists : World -> string -> nat -> World * Found TidalArtist.
Variable search_albums : World -> string -> nat -> World * Found TidalAlbum.
Variable add_track add_artist add_album : World -> Z -> World * AddResult.
Variable percent : Q -> string.

Let song_step := process_song tidal_search add_track.
Let artist_step := process_artist search_artists add_artist percent.
Let album_step := process_album search_albums add_album percent.

Lemma process_song_ledgered (item : option SpotifyTrack) (st : FavState) (w : World) :
  ledgered st (song_step item st w).2 (song_added (song_step item st w).1.2).
Proof.
  unfold song_step, process_song.
  destruct item as [t |]; [| apply ledgered_refl].
  destruct (Str.eqb (sp_type t) "track"); [| apply ledgered_refl].
  destruct (search_tidal_track _ _ _ _ _ _) as [[w1 ev] [[m |] | e]].
  - destruct (add_track w1 (t_id (track m))) as [w2 [| e]];
      [destruct (first_artist t) |]; cbn [fst snd];
      rewrite song_added_app, song_added_searches; cbn [app song_added omap].
    + apply ledgered_import.
    + apply ledgered_import_fail.
    + apply ledgered_fail.
  - destruct (first_artist t); cbn [fst snd]; rewrite song_added_searches.
    + apply ledgered_fail.
    + apply ledgered_fail_twice.
  - cbn [fst snd]. rewrite song_added_searches. apply ledgered_fail.
Qed.

Lemma process_song_tallied (item : option SpotifyTrack) (st : FavState) (w : World) :
  names_artist item ->
  tallied st (song_step item st w).2 (tracks_among [item]).
Proof.
  unfold song_step, process_song, names_artist, tracks_among, tallied.
  cbn [List.filter].
  destruct item as [t |]; [| intros _; cbn; lia]. cbn [is_track].
  destruct (Str.eqb (sp_type t) "track"); [| intros _; cbn; lia].
  intros Hartist. destruct (Hartist eq_refl) as (t' & [= <-] & Hsome).
  unfold first_artist. destruct (sp_artists t) as [| name names]; [contradiction |].
  destruct (search_tidal_track _ _ _ _ _ _) as [[w1 ev] [[m |] | e]].
  - destruct (add_track w1 (t_id (track m))) as [w2 [| e]]; simpl; lia.
  - simpl. lia.
  - simpl. lia.
Qed.

Lemma process_artist_ledgered (artist : SpotifyArtist) (st : FavState) (w : World) :
  ledgered st (artist_step artist st w).2 (fav_added (artist_step artist st w).1.2)
  /\ tallied st (artist_step artist st w).2 1.
Proof.
  unfold artist_step, process_artist, tallied.
  destruct (search_artists w (spr_name artist) 5) as [w1 [[| hit hits] | e]].
  - split; [apply ledgered_fail | simpl; lia].
  - destruct (find_best _ (hit :: hits)) as [[best |] score].
    + destruct (Qgeb score 0.7).
      * destruct (add_artist w1 (ar_id best)) as [w2 [| e]]; cbn [fst snd].
        -- split; [apply ledgered_import | simpl; lia].
        -- split; [apply ledgered_fail | simpl; lia].
      * split; [apply ledgered_fail | simpl; lia].
    + split; [apply ledgered_fail | simpl; lia].
  - split; [apply ledgered_fail | simpl; lia].
Qed.

Lemma process_album_ledgered (album : SpotifyAlbum) (st : FavState) (w : World) :
  ledgered st (album_step album st w).2 (fav_added (album_step album st w).1.2)
  /\ tallied st (album_step album st w).2 1.
Proof.
  unfold album_step, process_album, tallied.
  destruct (search_albums w _ 5) as [w1 [[| hit hits] | e]].
  - split; [apply ledgered_fail | simpl; lia].
  - destruct (find_best _ (hit :: hits)) as [[best |] score].
    + destruct (Qgeb score 0.6).
      * destruct (add_album w1 (al_id best)) as [w2 [| e]]; cbn [fst snd].
        -- split; [apply ledgered_import | simpl; lia].
        -- split; [apply ledgered_fail | simpl; lia].
      * split; [apply ledgered_fail | simpl; lia].
    + split; [apply ledgered_fail | simpl; lia].
  - split; [apply ledgered_fail | simpl; lia].
Qed.

End FavouritesFacts.

(** X11. Whatever the services answer, the liked-songs transfer keeps its
    counters and the failure ledger in step: nothing already on the ledger
    is lost, [failed] is the number of entries appended, and [imported] is
    the number of [add_track] calls that returned. *)
Theorem songs_counters_match_ledger_and_writes {World : Type}
    (tidal_search : World -> string -> nat -> World * SearchResult)
    (add_track : World -> Z -> World * AddResult)
    (ledger : list FailedItem) (pages : list (list (option SpotifyTrack))) (w : World) :
  let run := direct_transfer_songs tidal_search add_track ledger pages w in
  exists new,
    fav_ledger run.2 = ledger ++ new
    /\ fav_failed run.2 = length new
    /\ fav_imported run.2 = length (song_added run.1.2).
Proof.
  unfold direct_transfer_songs. rewrite paged_loop_reads.
  apply (process_all_related (process_song tidal_search add_track) (fun _ => True)
           (fun st st' _ calls => ledgered st st' (song_added calls))).
  - apply ledgered_refl.
  - intros st1 st2 st3 _ _ calls1 calls2 H1 H2. rewrite song_added_app.
    exact (ledgered_trans _ _ _ _ _ H1 H2).
  - intros item st w0 _. apply process_song_ledgered.
  - apply Forall_true. trivial.
Qed.

(** X12. The liked-songs transfer counts every track it reads exactly once,
    as imported or as failed, provided each track names an artist; items
    that are not tracks are not counted. *)
Theorem songs_each_track_counted_once {World : Type}
    (tidal_search : World -> string -> nat -> World * SearchResult)
    (add_track : World -> Z -> World * AddResult)
    (ledger : list FailedItem) (pages : list (list (option SpotifyTrack))) (w : World) :
  Forall names_artist (items_read 50 pages) ->
  let st := (direct_transfer_songs tidal_search add_track ledger pages w).2 in
  (fav_imported st + fav_failed st = tracks_among (items_read 50 pages))%nat.
Proof.
  intros Hartists. unfold direct_transfer_songs. rewrite paged_loop_reads.
  apply (process_all_related (process_song tidal_search add_track) names_artist
           (fun st st' items _ => tallied st st' (tracks_among items)));
    [| | | exact Hartists].
  - intros st. unfold tallied. cbn. lia.
  - unfold tallied, tracks_among. intros st1 st2 st3 items1 items2 _ _ H1 H2.
    rewrite List.filter_app, length_app. lia.
  - intros item st w0. apply process_song_tallied.
Qed.

Lemma songs_each_track_counted_once_witness :
  let st := (direct_transfer_songs Examples.search_hello MoreExamples.add_favorite []
               (served 50 MoreExamples.library_120) tt).2 in
  (fav_imported st + fav_failed st = 118)%nat.
Proof.
  assert (Hread : items_read 50 (served 50 MoreExamples.library_120)
                  = MoreExamples.library_120) by (apply items_read_served; lia).
  assert (Hartists : Forall names_artist (items_read 50 (served 50 MoreExamples.library_120))).
  { rewrite Hread. unfold MoreExamples.library_120.
    assert (Hepisode : Forall names_artist [MoreExamples.episode])
      by (constructor; [intros [=] | constructor]).
    repeat (apply Forall_app; split); try exact Hepisode;
      apply repeat_names_artist; discriminate. }
  pose proof (songs_each_track_counted_once Examples.search_hello
                MoreExamples.add_favorite [] _ tt Hartists) as Hcount.
  cbv zeta in Hcount |- *. rewrite Hcount, Hread. reflexivity.
Defined.

(** A liked song without an artist that TIDAL has is counted twice: the
    progress line raises after [imported += 1], and the handler counts a
    failure. *)
Remark artistless_song_counted_twice :
  let anonymous :=
    Some {| sp_type := "track"; sp_name := "Hello"; sp_artists := [];
            sp_album := "25"; sp_duration_ms := 295000 |} in
  let st := (direct_transfer_songs Examples.search_hello MoreExamples.add_favorite []
               [[anonymous]] tt).2 in
  (fav_imported st, fav_failed st, map fi_reason (fav_ledger st))
  = (1%nat, 1%nat, ["Error: list index out of range"]).
Proof. vm_compute. reflexivity. Qed.

(** X13. The artists and the albums transfers count every item they read
    exactly once, as imported or as failed, whatever the services answer;
    nothing already on the ledger is lost, [failed] is the number of
    entries appended, and [imported] is the number of [add_artist] or
    [add_album] calls that returned. *)
Theorem artists_and_albums_each_counted_once {World : Type}
    (search_artists : World -> string -> nat -> World * Found TidalArtist)
    (search_albums : World -> string -> nat -> World * Found TidalAlbum)
    (add_artist add_album : World -> Z -> World * AddResult) (percent : Q -> string)
    (ledger : list FailedItem) (w : World) :
  (forall pages : list (list SpotifyArtist),
      let run := direct_transfer_artists search_artists add_artist percent ledger pages w in
      (fav_imported run.2 + fav_failed run.2 = length (items_read 50 pages))%nat
      /\ exists new,
           fav_ledger run.2 = ledger ++ new
           /\ fav_failed run.2 = length new
           /\ fav_imported run.2 = length (fav_added run.1.2))
  /\ (forall pages : list (list SpotifyAlbum),
         let run := direct_transfer_albums search_albums add_album percent ledger pages w in
         (fav_imported run.2 + fav_failed run.2 = length (items_read 50 pages))%nat
         /\ exists new,
              fav_ledger run.2 = ledger ++ new
              /\ fav_failed run.2 = length new
              /\ fav_imported run.2 = length (fav_added run.1.2)).
Proof.
  split; intros pages; cbv zeta.
  - unfold direct_transfer_artists. rewrite paged_loop_reads.
    apply (process_all_related (process_artist search_artists add_artist percent)
             (fun _ => True)
             (fun st st' items calls =>
                tallied st st' (length items) /\ ledgered st st' (fav_added calls))).
    + intros st. split; [unfold tallied; cbn; lia | apply ledgered_refl].
    + unfold tallied. intros st1 st2 st3 items1 items2 calls1 calls2 [H1 L1] [H2 L2].
      rewrite fav_added_app, length_app.
      split; [lia | exact (ledgered_trans _ _ _ _ _ L1 L2)].
    + intros item st w0 _. split; apply process_artist_ledgered.
    + apply Forall_true. trivial.
  - unfold direct_transfer_albums. rewrite paged_loop_reads.
    apply (process_all_related (process_album search_albums add_album percent)
             (fun _ => True)
             (fun st st' items calls =>
                tallied st st' (length items) /\ ledgered st st' (fav_added calls))).
    + intros st. split; [unfold tallied; cbn; lia | apply ledgered_refl].
    + unfold tallied. intros st1 st2 st3 items1 items2 calls1 calls2 [H1 L1] [H2 L2].
      rewrite fav_added_app, length_app.
      split; [lia | exact (ledgered_trans _ _ _ _ _ L1 L2)].
    + intros item st w0 _. split; apply process_album_ledgered.
    + apply Forall_true. trivial.
Qed.

(** X14. Served page by page at offsets 0, 50, 100, ..., a library of
    liked songs or of saved albums is processed whole, every item once
    and in order, also when its size is a multiple of 50 and the last
    request returns no items. *)
Theorem offset_paging_reads_whole_library {World : Type}
    (tidal_search : World -> string -> nat -> World * SearchResult)
    (search_albums : World -> string -> nat -> World * Found TidalAlbum)
    (add_track add_album : World -> Z -> World * AddResult) (percent : Q -> string)
    (ledger : list FailedItem) (w : World) :
  (forall songs : list (option SpotifyTrack),
      direct_transfer_songs tidal_search add_track ledger (served 50 songs) w
      = process_all (process_song tidal_search add_track) songs (fresh ledger) w)
  /\ (forall albums : list SpotifyAlbum,
         direct_transfer_albums search_albums add_album percent ledger (served 50 albums) w
         = process_all (process_album search_albums add_album percent) albums
             (fresh ledger) w).
Proof.
  split; intros library.
  - unfold direct_transfer_songs. rewrite paged_loop_reads, items_read_served by lia.
    reflexivity.
  - unfold direct_transfer_albums. rewrite paged_loop_reads, items_read_served by lia.
    reflexivity.
Qed.

(** ** Choosing among the hits of an artist or album search *)

(** Folding [better] either leaves the running best alone, because no hit
    beats it, or ends on the first hit of maximal score. *)
Lemma fold_better_first_max {A : Type} (score : A -> Q) (hits : list A) :
  forall best : option A * Q,
    (fold_left (better score) hits best = best
     /\ Forall (fun h => (score h <= best.2)%Q) hits)
    \/ (exists pre hit post,
          hits = pre ++ hit :: post
          /\ fold_left (better score) hits best = (Some hit, score hit)
          /\ (best.2 < score hit)%Q
          /\ Forall (fun h => (score h < score hit)%Q) pre
          /\ Forall (fun h => (score h <= score hit)%Q) post).
Proof.
  induction hits as [| h hits IH]; intros best.
  - left. split; [reflexivity | constructor].
  - cbn [fold_left]. unfold better at 2 4. destruct (Qgtb (score h) best.2) eqn:Hgt.
    + apply Qgtb_lt in Hgt.
      destruct (IH (Some h, score h))
        as [[Hsame Hall] | (pre & hit & post & -> & Hres & Hlt & Hpre & Hpost)].
      * right. exists [], h, hits. cbn [app snd] in *. repeat split; auto.
      * right. exists (h :: pre), hit, post. cbn [app snd] in *.
        repeat split; auto; lra.
    + apply Qgtb_le in Hgt.
      destruct (IH best)
        as [[Hsame Hall] | (pre & hit & post & -> & Hres & Hlt & Hpre & Hpost)].
      * left. split; [exact Hsame |]. constructor; [exact Hgt | exact Hall].
      * right. exists (h :: pre), hit, post. cbn [app] in *.
        repeat split; auto. constructor; [lra | exact Hpre].
Qed.

(** What [find_best] and the threshold test decide together. *)
Lemma find_best_decides {A : Type} (score : A -> Q) (threshold : Q) (hits : list A) :
  (0 < threshold)%Q ->
  (Forall (fun h => (score h < threshold)%Q) hits
   /\ forall hit s, find_best score hits = (Some hit, s) -> Qgeb s threshold = false)
  \/ (exists pre hit post,
        hits = pre ++ hit :: post
        /\ find_best score hits = (Some hit, score hit)
        /\ Qgeb (score hit) threshold = true
        /\ (threshold <= score hit)%Q
        /\ Forall (fun h => (score h < score hit)%Q) pre
        /\ Forall (fun h => (score h <= score hit)%Q) post).
Proof.
  intros Hpos. unfold find_best.
  destruct (fold_better_first_max score hits (None, 0%Q))
    as [[Hsame Hall] | (pre & hit & post & -> & Hres & Hlt & Hpre & Hpost)].
  - left. split.
    + eapply Forall_impl; [exact Hall |]. cbn [snd]. intros h Hh. lra.
    + intros hit s. rewrite Hsame. discriminate.
  - destruct (Qgeb (score hit) threshold) eqn:Hgeb.
    + right. exists pre, hit, post. pose proof (proj1 (Qgeb_le _ _) Hgeb).
      repeat split; auto.
    + left. pose proof (proj1 (Qgeb_lt _ _) Hgeb) as Hlow. split.
      * apply Forall_app. split; [| constructor; [exact Hlow |]].
        -- eapply Forall_impl; [exact Hpre |]. cbn beta. intros h Hh. lra.
        -- eapply Forall_impl; [exact Hpost |]. cbn beta. intros h Hh. lra.
      * intros hit' s. rewrite Hres. intros [= _ <-]. exact Hgeb.
Qed.

Section DecisionFacts.

Context {World : Type}.
Variable search_artists : World -> string -> nat -> World * Found TidalArtist.
Variable search_albums : World -> string -> nat -> World * Found TidalAlbum.
Variable add_artist add_album : World -> Z -> World * AddResult.
Variable percent : Q -> string.

Lemma process_artist_decides (artist : SpotifyArtist) (st : FavState) (w w1 : World)
    (hits : list TidalArtist) :
  search_artists w (spr_name artist) 5 = (w1, FoundOk hits) ->
  let sim hit := _calculate_artist_similarity (spr_name artist) (ar_name hit) in
  let calls := (process_artist search_artists add_artist percent artist st w).1.2 in
  (Forall (fun h => (sim h < 0.7)%Q) hits /\ fav_adds calls = [])
  \/ (exists pre hit post,
        hits = pre ++ hit :: post
        /\ (0.7 <= sim hit)%Q
        /\ Forall (fun h => (sim h < sim hit)%Q) pre
        /\ Forall (fun h => (sim h <= sim hit)%Q) post
        /\ fav_adds calls = [ar_id hit]).
Proof.
  intros Hsearch sim. cbv zeta. unfold process_artist. rewrite Hsearch.
  destruct hits as [| h0 hits0]; [left; split; [constructor | reflexivity] |].
  set (hits := h0 :: hits0).
  change (fun tidal_artist : TidalArtist =>
            _calculate_artist_similarity (spr_name artist) (ar_name tidal_artist))
    with sim.
  destruct (find_best_decides sim 0.7%Q hits)
    as [[Hall Hlow] | (pre & hit & post & Hsplit & Hbest & Hgeb & Hhigh & Hpre & Hpost)];
    [reflexivity | |].
  - left. split; [exact Hall |].
    destruct (find_best sim hits) as [[best |] score] eqn:Hbest; [| reflexivity].
    rewrite (Hlow best score eq_refl). reflexivity.
  - right. exists pre, hit, post. rewrite Hbest, Hgeb.
    destruct (add_artist w1 (ar_id hit)) as [w2 [| e]]; repeat split; auto.
Qed.

Lemma process_album_decides (album : SpotifyAlbum) (st : FavState) (w w1 : World)
    (hits : list TidalAlbum) :
  let artist_name := Str.join ", " (spa_artists album) in
  search_albums w (spa_name album ++ " " ++ artist_name)%string 5 = (w1, FoundOk hits) ->
  let score := album_score album artist_name in
  let calls := (process_album search_albums add_album percent album st w).1.2 in
  (Forall (fun h => (score h < 0.6)%Q) hits /\ fav_adds calls = [])
  \/ (exists pre hit post,
        hits = pre ++ hit :: post
        /\ (0.6 <= score hit)%Q
        /\ Forall (fun h => (score h < score hit)%Q) pre
        /\ Forall (fun h => (score h <= score hit)%Q) post
        /\ fav_adds calls = [al_id hit]).
Proof.
  intros artist_name Hsearch score. cbv zeta. unfold process_album.
  fold artist_name. rewrite Hsearch.
  destruct hits as [| h0 hits0]; [left; split; [constructor | reflexivity] |].
  set (hits := h0 :: hits0). fold score.
  destruct (find_best_decides score 0.6%Q hits)
    as [[Hall Hlow] | (pre & hit & post & Hsplit & Hbest & Hgeb & Hhigh & Hpre & Hpost)];
    [reflexivity | |].
  - left. split; [exact Hall |].
    destruct (find_best score hits) as [[best |] s] eqn:Hbest; [| reflexivity].
    rewrite (Hlow best s eq_refl). reflexivity.
  - right. exists pre, hit, post. rewrite Hbest, Hgeb.
    destruct (add_album w1 (al_id hit)) as [w2 [| e]]; repeat split; auto.
Qed.

End DecisionFacts.

(** X15. When the artist search answers, the transfer asks TIDAL to follow
    an artist exactly when some hit has a name similarity of at least 0.7,
    and the one it asks for is the first hit of maximal similarity;
    otherwise it makes no [add_artist] call. *)
Theorem artist_followed_is_first_best_hit {World : Type}
    (search_artists : World -> string -> nat -> World * Found TidalArtist)
    (add_artist : World -> Z -> World * AddResult) (percent : Q -> string)
    (artist : SpotifyArtist) (st : FavState) (w w1 : World) (hits : list TidalArtist) :
  search_artists w (spr_name artist) 5 = (w1, FoundOk hits) ->
  let sim hit := _calculate_artist_similarity (spr_name artist) (ar_name hit) in
  let calls := (process_artist search_artists add_artist percent artist st w).1.2 in
  (Forall (fun h => (sim h < 0.7)%Q) hits /\ fav_adds calls = [])
  \/ (exists pre hit post,
        hits = pre ++ hit :: post
        /\ (0.7 <= sim hit)%Q
        /\ Forall (fun h => (sim h < sim hit)%Q) pre
        /\ Forall (fun h => (sim h <= sim hit)%Q) post
        /\ fav_adds calls = [ar_id hit]).
Proof. apply process_artist_decides. Qed.

Lemma artist_followed_is_first_best_hit_witness :
  let sim hit := _calculate_artist_similarity "the beatles" (ar_name hit) in
  let calls := (process_artist MoreExamples.search_beatles MoreExamples.add_favorite
                  MoreExamples.percent MoreExamples.the_beatles (fresh []) tt).1.2 in
  (Forall (fun h => (sim h < 0.7)%Q) [MoreExamples.beatles_tribute; MoreExamples.beatles]
   /\ fav_adds calls = [])
  \/ (exists pre hit post,
        [MoreExamples.beatles_tribute; MoreExamples.beatles] = pre ++ hit :: post
        /\ (0.7 <= sim hit)%Q
        /\ Forall (fun h => (sim h < sim hit)%Q) pre
        /\ Forall (fun h => (sim h <= sim hit)%Q) post
        /\ fav_adds calls = [ar_id hit]).
Proof.
  apply (artist_followed_is_first_best_hit MoreExamples.search_beatles
           MoreExamples.add_favorite MoreExamples.percent MoreExamples.the_beatles
           (fresh []) tt tt [MoreExamples.beatles_tribute; MoreExamples.beatles]).
  reflexivity.
Defined.

(** X16. If a hit of the artist search has the artist's name, case and
    surrounding whitespace aside, the transfer asks TIDAL to follow the
    first such hit. *)
Theorem artist_of_same_name_is_followed {World : Type}
    (search_artists : World -> string -> nat -> World * Found TidalArtist)
    (add_artist : World -> Z -> World * AddResult) (percent : Q -> string)
    (artist : SpotifyArtist) (st : FavState) (w w1 : World) (hits : list TidalArtist) :
  search_artists w (spr_name artist) 5 = (w1, FoundOk hits) ->
  Exists (fun h => exact_match (spr_name artist) (ar_name h)) hits ->
  exists pre hit post,
    hits = pre ++ hit :: post
    /\ exact_match (spr_name artist) (ar_name hit)
    /\ Forall (fun h => ~ exact_match (spr_name artist) (ar_name h)) pre
    /\ fav_adds (process_artist search_artists add_artist percent artist st w).1.2
       = [ar_id hit].
Proof.
  intros Hsearch Hexact.
  apply Exists_exists in Hexact as (same & Hin & Hsame).
  pose proof (exact_match_similarity _ _ Hsame) as Hone.
  destruct (process_artist_decides search_artists add_artist percent artist st w w1 hits
              Hsearch)
    as [[Hall _] | (pre & hit & post & -> & Hhigh & Hpre & Hpost & Hadds)].
  - pose proof (proj1 (Forall_forall _ _) Hall same Hin) as Hlow. cbn beta in Hlow.
    rewrite Hone in Hlow. exfalso. lra.
  - exists pre, hit, post.
    pose proof (similarity_range (spr_name artist) (ar_name hit)) as [_ Hle].
    assert (Hhit : (_calculate_artist_similarity (spr_name artist) (ar_name hit) == 1)%Q).
    { apply elem_of_app in Hin as [Hin | Hin].
      - pose proof (proj1 (Forall_forall _ _) Hpre same Hin) as Hlt. cbn beta in Hlt.
        rewrite Hone in Hlt. lra.
      - apply elem_of_cons in Hin as [-> | Hin]; [rewrite Hone; reflexivity |].
        pose proof (proj1 (Forall_forall _ _) Hpost same Hin) as Hlt. cbn beta in Hlt.
        rewrite Hone in Hlt. lra. }
    split; [reflexivity |]. split; [exact (similarity_one_exact _ _ Hhit) |].
    split; [| exact Hadds].
    eapply Forall_impl; [exact Hpre |]. cbn beta. intros h Hlt Hh.
    rewrite (exact_match_similarity _ _ Hh) in Hlt. lra.
Qed.

Lemma artist_of_same_name_is_followed_witness :
  exists pre hit post,
    [MoreExamples.beatles_tribute; MoreExamples.beatles] = pre ++ hit :: post
    /\ exact_match "the beatles" (ar_name hit)
    /\ Forall (fun h => ~ exact_match "the beatles" (ar_name h)) pre
    /\ fav_adds (process_artist MoreExamples.search_beatles MoreExamples.add_favorite
                   MoreExamples.percent MoreExamples.the_beatles (fresh []) tt).1.2
       = [ar_id hit].
Proof.
  apply (artist_of_same_name_is_followed MoreExamples.search_beatles
           MoreExamples.add_favorite MoreExamples.percent MoreExamples.the_beatles
           (fresh []) tt tt [MoreExamples.beatles_tribute; MoreExamples.beatles]).
  - reflexivity.
  - apply Exists_cons_tl, Exists_cons_hd.
    split; [discriminate | split; [discriminate | vm_compute; reflexivity]].
Defined.

(** The combined score of an album hit lies between 0.7 times its title
    similarity and 0.3 more. *)
Lemma album_score_bounds (album : SpotifyAlbum) (artist_name : string)
    (tidal_album : TidalAlbum) :
  let title := _calculate_artist_similarity (spa_name album) (al_name tidal_album) in
  (title * 0.7 <= album_score album artist_name tidal_album <= title * 0.7 + 0.3)%Q.
Proof.
  cbv zeta. unfold album_score.
  pose proof (similarity_range artist_name (default EmptyString (al_artist tidal_album)))
    as [Hlo Hhi].
  split; lra.
Qed.

(** X17. If a hit of the album search has the album's title, case and
    surrounding whitespace aside, the transfer asks TIDAL to save one of
    the hits, whatever the artists of the hits are. *)
Theorem album_of_same_title_is_saved {World : Type}
    (search_albums : World -> string -> nat -> World * Found TidalAlbum)
    (add_album : World -> Z -> World * AddResult) (percent : Q -> string)
    (album : SpotifyAlbum) (st : FavState) (w w1 : World) (hits : list TidalAlbum) :
  search_albums w (spa_name album ++ " " ++ Str.join ", " (spa_artists album))%string 5
  = (w1, FoundOk hits) ->
  Exists (fun h => exact_match (spa_name album) (al_name h)) hits ->
  exists hit,
    In hit hits
    /\ fav_adds (process_album search_albums add_album percent album st w).1.2
       = [al_id hit].
Proof.
  intros Hsearch Hexact.
  apply Exists_exists in Hexact as (same & Hin & Hsame).
  pose proof (exact_match_similarity _ _ Hsame) as Hone.
  pose proof (album_score_bounds album (Str.join ", " (spa_artists album)) same)
    as [Hlo _]. cbv zeta in Hlo. rewrite Hone in Hlo.
  destruct (process_album_decides search_albums add_album percent album st w w1 hits
              Hsearch)
    as [[Hall _] | (pre & hit & post & -> & _ & _ & _ & Hadds)].
  - pose proof (proj1 (Forall_forall _ _) Hall same Hin) as Hlow. cbn beta in Hlow.
    exfalso. lra.
  - exists hit. split; [apply in_elt | exact Hadds].
Qed.

Lemma album_of_same_title_is_saved_witness :
  exists hit,
    In hit [MoreExamples.abbey_road]
    /\ fav_adds (process_album MoreExamples.search_abbey_road MoreExamples.add_favorite
                   MoreExamples.percent MoreExamples.abbey_road_saved (fresh []) tt).1.2
       = [al_id hit].
Proof.
  apply (album_of_same_title_is_saved MoreExamples.search_abbey_road
           MoreExamples.add_favorite MoreExamples.percent MoreExamples.abbey_road_saved
           (fresh []) tt tt [MoreExamples.abbey_road]).
  - reflexivity.
  - apply Exists_cons_hd.
    split; [discriminate | split; [discriminate | vm_compute; reflexivity]].
Defined.

(** X18. The artist alone never gets an album saved: when every hit of
    the album search has a title similarity below 3/7, the transfer makes
    no [add_album] call, and the album goes on the failure ledger. *)
Theorem album_needs_similar_title {World : Type}
    (search_albums : World -> string -> nat -> World * Found TidalAlbum)
    (add_album : World -> Z -> World * AddResult) (percent : Q -> string)
    (album : SpotifyAlbum) (st : FavState) (w w1 : World) (hits : list TidalAlbum) :
  search_albums w (spa_name album ++ " " ++ Str.join ", " (spa_artists album))%string 5
  = (w1, FoundOk hits) ->
  Forall (fun h => (_calculate_artist_similarity (spa_name album) (al_name h) < 3 # 7)%Q)
         hits ->
  let run := process_album search_albums add_album percent album st w in
  fav_adds run.1.2 = []
  /\ fav_imported run.2 = fav_imported st
  /\ fav_failed run.2 = S (fav_failed st)
  /\ exists entry, fav_ledger run.2 = fav_ledger st ++ [entry]
                   /\ fi_name entry = spa_name album.
Proof.
  intros Hsearch Hweak run.
  assert (Hadds : fav_adds run.1.2 = []).
  { destruct (process_album_decides search_albums add_album percent album st w w1 hits
                Hsearch)
      as [[_ Hnone] | (pre & hit & post & -> & Hhigh & _ & _ & _)]; [exact Hnone |].
    apply Forall_app in Hweak as [_ Hweak]. apply Forall_cons in Hweak as [Hweak _].
    pose proof (album_score_bounds album (Str.join ", " (spa_artists album)) hit)
      as [_ Hhi]. cbv zeta in Hhi. exfalso. lra. }
  split; [exact Hadds |]. revert Hadds. unfold run, process_album. rewrite Hsearch.
  destruct hits as [| h0 hits0]; [intros _; repeat split; eexists; split; reflexivity |].
  destruct (find_best _ (h0 :: hits0)) as [[best |] score].
  - destruct (Qgeb score 0.6).
    + destruct (add_album w1 (al_id best)) as [w2 [| e]]; discriminate.
    + intros _. repeat split. eexists. split; reflexivity.
  - intros _. repeat split. eexists. split; reflexivity.
Qed.

Lemma album_needs_similar_title_witness :
  let run := process_album MoreExamples.search_abbey_road MoreExamples.add_favorite
               MoreExamples.percent MoreExamples.let_it_be_saved (fresh []) tt in
  fav_adds run.1.2 = []
  /\ fav_imported run.2 = 0%nat
  /\ fav_failed run.2 = 1%nat
  /\ exists entry, fav_ledger run.2 = [] ++ [entry] /\ fi_name entry = "Let It Be".
Proof.
  apply (album_needs_similar_title MoreExamples.search_abbey_road
           MoreExamples.add_favorite MoreExamples.percent MoreExamples.let_it_be_saved
           (fresh []) tt tt [MoreExamples.abbey_road]).
  - reflexivity.
  - constructor; [vm_compute; reflexivity | constructor].
Defined.

(** ** Masking a credential *)

(** X19. The masked form of a credential gives away nothing but its
    length and its last four characters: two non-empty values of at most
    four characters, or two of the same length that end in the same four
    characters, are masked alike. *)
Theorem mask_reveals_only_length_and_last_four (a b : string) :
  a <> EmptyString -> b <> EmptyString ->
  (String.length a <= 4 /\ String.length b <= 4)%nat
  \/ (String.length a = String.length b
      /\ drop (String.length a - 4) (Str.chars_of a)
         = drop (String.length b - 4) (Str.chars_of b)) ->
  _mask (Some a) = _mask (Some b).
Proof.
  intros Ha Hb Hsame. unfold _mask, truthy_str.
  destruct a as [| a0 a']; [contradiction |]. destruct b as [| b0 b']; [contradiction |].
  cbn [Str.truthy]. rewrite !chars_of_length.
  destruct Hsame as [[Hshort1 Hshort2] | [Hlen Htail]].
  - apply Nat.leb_le in Hshort1, Hshort2. rewrite Hshort1, Hshort2. reflexivity.
  - rewrite Htail, Hlen. reflexivity.
Qed.

Lemma mask_reveals_only_length_and_last_four_witness :
  _mask (Some "0123456789abcdef") = _mask (Some "fedcba9876abcdef").
Proof.
  apply mask_reveals_only_length_and_last_four.
  - discriminate.
  - discriminate.
  - right. split; reflexivity.
Defined.

(** ** The playlists loop *)

Lemma find_first {A : Type} (f : A -> bool) (l : list A) :
  match List.find f l with
  | Some x => exists pre post,
                l = pre ++ x :: post /\ f x = true /\ Forall (fun y => f y = false) pre
  | None => Forall (fun y => f y = false) l
  end.
Proof.
  induction l as [| a l IH]; cbn [List.find]; [constructor |].
  destruct (f a) eqn:Ha.
  - exists [], l. repeat split; [exact Ha | constructor].
  - destruct (List.find f l) as [x |].
    + destruct IH as (pre & post & -> & Hx & Hpre). exists (a :: pre), post.
      repeat split; [exact Hx | constructor; [exact Ha | exact Hpre]].
    + constructor; [exact Ha | exact IH].
Qed.

Lemma creations_app (calls1 calls2 : list PlaylistCall) :
  creations (calls1 ++ calls2) = creations calls1 ++ creations calls2.
Proof. apply omap_app. Qed.

Lemma created_app (calls1 calls2 : list PlaylistCall) :
  created (calls1 ++ calls2) = created calls1 ++ created calls2.
Proof. apply omap_app. Qed.

Lemma targets_app (calls1 calls2 : list PlaylistCall) :
  targets (calls1 ++ calls2) = targets calls1 ++ targets calls2.
Proof. apply omap_app. Qed.

Lemma listings_app (calls1 calls2 : list PlaylistCall) :
  listings (calls1 ++ calls2) = (listings calls1 + listings calls2)%nat.
Proof. unfold listings. rewrite omap_app. apply length_app. Qed.

Lemma track_calls (target : TidalPlaylist) (evs : list Event) :
  creations (map (CallTrack target) evs) = []
  /\ created (map (CallTrack target) evs) = []
  /\ listings (map (CallTrack target) evs) = 0%nat
  /\ Forall (eq target) (targets (map (CallTrack target) evs)).
Proof.
  unfold listings.
  induction evs as [| ev evs (IH1 & IH2 & IH3 & IH4)]; cbn; [repeat split; constructor |].
  repeat split; auto.
Qed.

Section PlaylistsFacts.

Context {World : Type}.
Variable tidal_search : World -> string -> nat -> World * SearchResult.
Variable user_playlists : World -> World * Outcome (list TidalPlaylist).
Variable create_playlist : World -> string -> World * Outcome TidalPlaylist.
Variable playlist_add : TidalPlaylist -> World -> list Z -> World * AddResult.

Let tracks_step := transfer_tracks tidal_search playlist_add.
Let playlist_step := process_playlist tidal_search user_playlists create_playlist playlist_add.

(** The track transfer of one playlist lists and creates nothing, addresses
    its target only, and appends to the ledger at least the failures it
    adds to the total. *)
Lemma transfer_tracks_spec (target : TidalPlaylist) (playlist_name : string)
    (pages : list Page) (tot : PlaylistTotals) (w : World) :
  let run := tracks_step target playlist_name pages tot w in
  creations run.1.2 = []
  /\ created run.1.2 = []
  /\ listings run.1.2 = 0%nat
  /\ Forall (eq target) (targets run.1.2)
  /\ playlists_created run.2 = playlists_created tot
  /\ exists new,
       playlist_ledger run.2 = playlist_ledger tot ++ new
       /\ (total_failed run.2 = total_failed tot
           \/ total_failed run.2 = total_failed tot + length new)%nat.
Proof.
  unfold tracks_step, transfer_tracks.
  set (ps0 := {| imported := 0; failed := 0; batch_ids := []; failed_items := [] |}).
  pose proof (page_loop_ledger tidal_search (playlist_add target) playlist_name pages
                ps0 w) as Hledger.
  destruct (page_loop _ _ _ pages ps0 w) as [[w1 ev] ps]. cbn [fst snd] in Hledger.
  simpl in Hledger.
  destruct (track_calls target ev) as (H1 & H2 & H3 & H4).
  destruct (batch_ids ps) as [| id ids]; cbv zeta.
  - cbn [fst snd]. repeat split; auto. exists (failed_items ps). cbn. split; [reflexivity | lia].
  - destruct (playlist_add target w1 (id :: ids)) as [w2 [| e]]; cbn [fst snd];
      rewrite creations_app, created_app, listings_app, targets_app, H1, H2, H3;
      (repeat split; auto;
       [apply Forall_app; split; [exact H4 | repeat constructor]
       | exists (failed_items ps); cbn; split; [reflexivity | lia]]).
Qed.

Lemma process_playlist_listed (playlist : option SpotifyPlaylist) (tot : PlaylistTotals)
    (w : World) :
  let run := playlist_step playlist tot w in
  listings run.1.2 = length (omap id [playlist])
  /\ playlists_created run.2 = (playlists_created tot + length (created run.1.2))%nat
  /\ exists new,
       playlist_ledger run.2 = playlist_ledger tot ++ new
       /\ (total_failed tot <= total_failed run.2 <= total_failed tot + length new)%nat.
Proof.
  unfold playlist_step, process_playlist.
  destruct playlist as [p |]; cbv zeta.
  2:{ cbn. repeat split; [lia |]. exists []. rewrite app_nil_r. split; [reflexivity | lia]. }
  destruct (user_playlists w) as [w1 [existing | e]].
  2:{ cbn. repeat split; [lia |]. exists []. rewrite app_nil_r. split; [reflexivity | lia]. }
  destruct (find_playlist (spl_name p) existing) as [target |].
  - pose proof (transfer_tracks_spec target (spl_name p) (spl_pages p) tot w1)
      as (H1 & H2 & H3 & H4 & H5 & new & H6 & H7). unfold tracks_step in *.
    destruct (transfer_tracks _ _ target _ _ tot w1) as [[w2 evs] tot2].
    cbn [fst snd] in *. rewrite listings_app, created_app, H2, H3, H5. cbn.
    repeat split; [lia |]. exists new. split; [exact H6 | lia].
  - destruct (create_playlist w1 (spl_name p)) as [w2 [target | e]].
    2:{ cbn. repeat split; [lia |]. exists []. rewrite app_nil_r. split; [reflexivity | lia]. }
    set (tot1 := {| playlists_created := S (playlists_created tot);
                    total_imported := total_imported tot;
                    total_failed := total_failed tot;
                    playlist_ledger := playlist_ledger tot |}).
    pose proof (transfer_tracks_spec target (spl_name p) (spl_pages p) tot1 w2)
      as (H1 & H2 & H3 & H4 & H5 & new & H6 & H7). unfold tracks_step in *.
    destruct (transfer_tracks _ _ target _ _ tot1 w2) as [[w3 evs] tot3].
    cbn [fst snd] in *. subst tot1. cbn in H5, H6, H7.
    rewrite listings_app, created_app, H2, H3, H5. cbn.
    repeat split; [lia |]. exists new. split; [exact H6 | lia].
Qed.

End PlaylistsFacts.

(** X21. A playlist is created on TIDAL only when the account lists none
    of that name: when one is listed, the transfer makes no
    [create_playlist] call and sends every search result to the first
    listed playlist of that name; when none is listed, it makes one
    [create_playlist] call, with the Spotify name, and writes to the
    playlist that call returned, if it returned. *)
Theorem playlist_created_only_when_missing {World : Type}
    (tidal_search : World -> string -> nat -> World * SearchResult)
    (user_playlists : World -> World * Outcome (list TidalPlaylist))
    (create_playlist : World -> string -> World * Outcome TidalPlaylist)
    (playlist_add : TidalPlaylist -> World -> list Z -> World * AddResult)
    (p : SpotifyPlaylist) (tot : PlaylistTotals) (w w1 : World)
    (existing : list TidalPlaylist) :
  user_playlists w = (w1, Returned existing) ->
  let run := process_playlist tidal_search user_playlists create_playlist playlist_add
               (Some p) tot w in
  (exists pre target post,
      existing = pre ++ target :: post
      /\ tp_name target = spl_name p
      /\ Forall (fun pl => tp_name pl <> spl_name p) pre
      /\ creations run.1.2 = []
      /\ playlists_created run.2 = playlists_created tot
      /\ Forall (eq target) (targets run.1.2))
  \/ (Forall (fun pl => tp_name pl <> spl_name p) existing
      /\ creations run.1.2 = [spl_name p]
      /\ playlists_created run.2 = (playlists_created tot + length (created run.1.2))%nat
      /\ Forall (fun target => created run.1.2 = [target]) (targets run.1.2)).
Proof.
  intros Hlist. cbv zeta. unfold process_playlist. rewrite Hlist.
  pose proof (find_first (fun pl => Str.eqb (tp_name pl) (spl_name p)) existing) as Hfind.
  unfold find_playlist.
  destruct (List.find _ existing) as [target |].
  - left. destruct Hfind as (pre & post & -> & Hname & Hpre).
    exists pre, target, post.
    pose proof (transfer_tracks_spec tidal_search playlist_add target (spl_name p)
                  (spl_pages p) tot w1) as (H1 & H2 & H3 & H4 & H5 & _).
    destruct (transfer_tracks _ _ target _ _ tot w1) as [[w2 evs] tot2].
    cbn [fst snd] in *. split; [reflexivity |].
    split; [apply bool_decide_eq_true in Hname; exact Hname |].
    split; [eapply Forall_impl; [exact Hpre |]; cbn beta; intros pl Hpl;
            apply bool_decide_eq_false in Hpl; exact Hpl |].
    rewrite creations_app, targets_app, H1. cbn. auto.
  - right. split.
    { eapply Forall_impl; [exact Hfind |]. cbn beta. intros pl Hpl.
      apply bool_decide_eq_false in Hpl. exact Hpl. }
    destruct (create_playlist w1 (spl_name p)) as [w2 [target | e]].
    + set (tot1 := {| playlists_created := S (playlists_created tot);
                      total_imported := total_imported tot;
                      total_failed := total_failed tot;
                      playlist_ledger := playlist_ledger tot |}).
      pose proof (transfer_tracks_spec tidal_search playlist_add target (spl_name p)
                    (spl_pages p) tot1 w2) as (H1 & H2 & H3 & H4 & H5 & _).
      destruct (transfer_tracks _ _ target _ _ tot1 w2) as [[w3 evs] tot3].
      cbn [fst snd] in *. subst tot1. cbn in H5.
      rewrite !creations_app, !created_app, !targets_app, H1, H2, H5. cbn.
      repeat split; [lia |].
      eapply Forall_impl; [exact H4 |]. cbn beta. intros t <-. reflexivity.
    + cbn. repeat split; [lia | constructor].
Qed.

Lemma playlist_created_only_when_missing_witness :
  let run := process_playlist Examples.search_hello MoreExamples.playlists_road_trip
               MoreExamples.create_any MoreExamples.add_to
               (Some MoreExamples.road_trip_saved)
               {| playlists_created := 0; total_imported := 0; total_failed := 0;
                  playlist_ledger := [] |} tt in
  (exists pre target post,
      [MoreExamples.road_trip] = pre ++ target :: post
      /\ tp_name target = "Road trip"
      /\ Forall (fun pl => tp_name pl <> "Road trip") pre
      /\ creations run.1.2 = []
      /\ playlists_created run.2 = 0%nat
      /\ Forall (eq target) (targets run.1.2))
  \/ (Forall (fun pl => tp_name pl <> "Road trip") [MoreExamples.road_trip]
      /\ creations run.1.2 = ["Road trip"]
      /\ playlists_created run.2 = (0 + length (created run.1.2))%nat
      /\ Forall (fun target => created run.1.2 = [target]) (targets run.1.2)).
Proof.
  exact (playlist_created_only_when_missing Examples.search_hello
           MoreExamples.playlists_road_trip MoreExamples.create_any MoreExamples.add_to
           MoreExamples.road_trip_saved
           {| playlists_created := 0; total_imported := 0; total_failed := 0;
              playlist_ledger := [] |} tt tt [MoreExamples.road_trip] eq_refl).
Defined.

(** X22. An error in one playlist does not stop the others: the transfer
    asks TIDAL for the user's playlists once for every playlist of the
    Spotify answer that is not [None].  [playlists_created] is the number
    of [create_playlist] calls that returned, nothing already on the
    ledger is lost, and [total_failed] is at most the number of entries
    appended: the failures of a playlist whose last write raised are on
    the ledger but not in the total. *)
Theorem every_playlist_is_attempted {World : Type}
    (tidal_search : World -> string -> nat -> World * SearchResult)
    (user_playlists : World -> World * Outcome (list TidalPlaylist))
    (create_playlist : World -> string -> World * Outcome TidalPlaylist)
    (playlist_add : TidalPlaylist -> World -> list Z -> World * AddResult)
    (ledger : list FailureRecord) (playlists : list (option SpotifyPlaylist)) (w : World) :
  let run := direct_transfer_playlists tidal_search user_playlists create_playlist
               playlist_add ledger playlists w in
  listings run.1.2 = length (omap id playlists)
  /\ playlists_created run.2 = length (created run.1.2)
  /\ exists new,
       playlist_ledger run.2 = ledger ++ new
       /\ (total_failed run.2 <= length new)%nat.
Proof.
  cbv zeta. unfold direct_transfer_playlists.
  set (tot0 := {| playlists_created := 0; total_imported := 0; total_failed := 0;
                  playlist_ledger := ledger |}).
  pose proof (process_all_related
                (process_playlist tidal_search user_playlists create_playlist playlist_add)
                (fun _ => True)
                (fun tot tot' items calls =>
                   listings calls = length (omap id items)
                   /\ playlists_created tot'
                      = (playlists_created tot + length (created calls))%nat
                   /\ exists new,
                        playlist_ledger tot' = playlist_ledger tot ++ new
                        /\ (total_failed tot <= total_failed tot'
                            <= total_failed tot + length new)%nat)) as Hrun.
  destruct (Hrun) with (items := playlists) (st := tot0) (w := w)
    as (Hlist & Hcreated & new & Hledger & Hfailed).
  - intros tot. cbn. repeat split; [lia |]. exists []. rewrite app_nil_r.
    split; [reflexivity | lia].
  - intros tot1 tot2 tot3 items1 items2 calls1 calls2
           (L1 & C1 & new1 & G1 & F1) (L2 & C2 & new2 & G2 & F2).
    rewrite listings_app, created_app, omap_app, !length_app.
    repeat split; [lia | lia |].
    exists (new1 ++ new2). rewrite G2, G1, app_assoc, length_app. split; [reflexivity | lia].
  - intros item tot w0 _. apply process_playlist_listed.
  - apply Forall_true. trivial.
  - repeat split; [exact Hlist | exact Hcreated |]. exists new.
    split; [exact Hledger | cbn in Hfailed; lia].
Qed.
